(** * go-zed-tasks: discovery and reconciliation pipeline

    A shallow embedding of [cmd/go-zed-tasks/main.go] and the properties of
    its reconciler, relaxed-JSON reader, selector construction and toolchain
    bridge.  The embedding follows the version of the program that has
    dynamic subtest discovery; [mergeTasks], [isGenerated], [readTasks] and
    the two stripping passes are the same in the version without it.

    Conventions.
    - A Go [string] is a [string]; a Go [[]byte] is a [list ascii].
    - A Go [map[string]any] is a [gmap string any]; the dynamic type of an
      [any] value is the constructor of [any].
    - A Go [int] that counts or indexes the elements of an in-memory slice
      is a [nat]: it is bounded by the length of the slice, so the 64-bit
      wrap-around is never reached.
    - A Go [(T, error)] result is a [result T]. *)

From Stdlib Require Import Ascii String.
From stdpp Require Import gmap strings list fin_maps sorting.

#[local] Set Warnings "-register-all,-clear-no-such-hyp".
#[local] Open Scope string_scope.
#[local] Open Scope list_scope.

(** ** Errors *)

(** One constructor per place where the program builds or forwards an
    error; the payload is what the message is formatted from. *)
Inductive error : Type :=
| ErrReadFile (path : string)
    (* os.ReadFile failed for a reason other than "does not exist" *)
| ErrUnterminatedBlockComment
    (* "unterminated block comment in tasks file" *)
| ErrUnterminatedString
    (* "unterminated string in tasks file" *)
| ErrJSONUnmarshal
    (* json.Unmarshal rejected the normalized document *)
| ErrScanner
    (* bufio.Scanner.Err(): a line does not fit the scanner's buffer *)
| ErrDiscoveryFailed (packageDir : string) (exit : string) (output : list ascii)
    (* "go test discovery failed in %s: %w\n%s" *)
| ErrInvalidTimeout (value : string)
    (* resolveSubtestTimeout failed *)
| ErrWrap (context : string) (cause : error).
    (* fmt.Errorf("<context>: %w", err) *)

Inductive result (A : Type) : Type :=
| Ok (a : A)
| Err (e : error).
Arguments Ok {A} a.
Arguments Err {A} e.

(** ** Data model *)

(** Dynamic values held in a task map.  Entries decoded by
    [encoding/json] hold [nil], [bool], [float64], [string], [[]any] and
    [map[string]any]; entries built by the generator also hold [[]string].
    No arithmetic is done on a decoded number, so a [float64] is kept as its
    64-bit pattern. *)
Inductive any : Type :=
| ANil
| ABool (b : bool)
| AFloat64 (bits : Z)
| AString (s : string)
| AStrings (l : list string)
| ASlice (l : list any)
| AMap (m : gmap string any).

(** A document entry: [map[string]any]. *)
Abbreviation task := (gmap string any).

Record Config : Type := {
  TasksPath : string;
  DebugPath : string;
  LabelPrefix : string;
  DebugLabelPrefix : string;
  GoBinary : string;
  TestNameRegex : string;
  GoListRegex : string;
  AdditionalGoTestArgs : list string;
  UseNewTerminal : bool;
  AllowConcurrentRuns : bool;
  Reveal : string;
  Hide : string;
  PruneGenerated : bool;
  GeneratedEnvKey : string;
  GeneratedEnvValue : string;
  SubtestTimeout : string
}.

(** The [envDefault] values of [Config]. *)
Definition defaultConfig : Config := {|
  TasksPath := ".zed/tasks.json";
  DebugPath := ".zed/debug.json";
  LabelPrefix := "go:";
  DebugLabelPrefix := "go:debug:";
  GoBinary := "go";
  TestNameRegex := "^Test";
  GoListRegex := "^Test";
  AdditionalGoTestArgs := [];
  UseNewTerminal := false;
  AllowConcurrentRuns := false;
  Reveal := "always";
  Hide := "never";
  PruneGenerated := true;
  GeneratedEnvKey := "ZED_GO_TEST_TASK_GENERATED";
  GeneratedEnvValue := "1";
  SubtestTimeout := "30s"
|}.

Record mergeStats : Type := {
  Added : nat;
  Updated : nat;
  Removed : nat
}.

(** ** The marker test *)

(** [isGenerated]: four guarded steps, each a lookup or a type assertion. *)
Definition isGenerated (t : task) (cfg : Config) : bool :=
  match t !! "env" with
  | None => false
  | Some envAny =>
    match envAny with
    | AMap env =>
      match env !! GeneratedEnvKey cfg with
      | None => false
      | Some valAny =>
        match valAny with
        | AString val => String.eqb val (GeneratedEnvValue cfg)
        | _ => false
        end
      end
    | _ => false
    end
  end.

(** ** The reconciler *)

(** [task["label"].(string)] with its [ok] flag. *)
Definition label_of (t : task) : option string :=
  match t !! "label" with
  | Some (AString s) => Some s
  | _ => None
  end.

(** [label, _ := task["label"].(string)]: the zero value when the assertion
    fails. *)
Definition label_or_zero (t : task) : string := default EmptyString (label_of t).

(** First loop of [mergeTasks]: drop the generated entries when pruning. *)
Fixpoint pruneLoop (cfg : Config) (existing filtered : list task) (removed : nat)
  : list task * nat :=
  match existing with
  | [] => (filtered, removed)
  | t :: rest =>
    if PruneGenerated cfg && isGenerated t cfg
    then pruneLoop cfg rest filtered (S removed)
    else pruneLoop cfg rest (filtered ++ [t]) removed
  end.

(** Second loop: [labelIndex[label] = i] for every entry with a string
    label; a later entry overwrites an earlier one with the same label. *)
Fixpoint indexLoop (i : nat) (filtered : list task) (labelIndex : gmap string nat)
  : gmap string nat :=
  match filtered with
  | [] => labelIndex
  | t :: rest =>
    indexLoop (S i) rest
      (match label_of t with
       | Some label => <[label := i]> labelIndex
       | None => labelIndex
       end)
  end.

(** State of the third loop. *)
Record upsertState : Type := {
  us_filtered : list task;
  us_labelIndex : gmap string nat;
  us_added : nat;
  us_updated : nat
}.

(** One iteration of the third loop.  [filtered[idx] = task] is within
    range for every index the loops store (lemma [upsert_index_in_range]),
    so the list update never falls outside the slice. *)
Definition upsertStep (st : upsertState) (t : task) : upsertState :=
  let label := label_or_zero t in
  match us_labelIndex st !! label with
  | Some idx =>
    {| us_filtered := <[idx := t]> (us_filtered st);
       us_labelIndex := us_labelIndex st;
       us_added := us_added st;
       us_updated := S (us_updated st) |}
  | None =>
    {| us_filtered := us_filtered st ++ [t];
       us_labelIndex := <[label := length (us_filtered st)]> (us_labelIndex st);
       us_added := S (us_added st);
       us_updated := us_updated st |}
  end.

Definition upsertLoop (generated : list task) (st : upsertState) : upsertState :=
  foldl upsertStep st generated.

(** [mergeTasks] once the existing document has been read. *)
Definition mergeExisting (existing generated : list task) (cfg : Config)
  : list task * mergeStats :=
  let '(filtered, removed) := pruneLoop cfg existing [] 0 in
  let labelIndex := indexLoop 0 filtered ∅ in
  let st := upsertLoop generated
              {| us_filtered := filtered; us_labelIndex := labelIndex;
                 us_added := 0; us_updated := 0 |} in
  (us_filtered st,
   {| Added := us_added st; Updated := us_updated st; Removed := removed |}).

(** The filtering loop of [runClear]. *)
Fixpoint clearLoop (cfg : Config) (existing filtered : list task) (removed : nat)
  : list task * nat :=
  match existing with
  | [] => (filtered, removed)
  | t :: rest =>
    if isGenerated t cfg
    then clearLoop cfg rest filtered (S removed)
    else clearLoop cfg rest (filtered ++ [t]) removed
  end.

(** ** Strings and byte slices *)

(** Control characters used below. *)
Definition TAB : ascii := "009"%char.
Definition LF : ascii := "010"%char.
Definition VT : ascii := "011"%char.
Definition FF : ascii := "012"%char.
Definition CR : ascii := "013"%char.
Definition QUOTE : ascii := "034"%char.

(** [strings.HasPrefix]. *)
Definition HasPrefix (s prefix : string) : bool := String.prefix prefix s.

(** [strings.TrimPrefix]. *)
Definition TrimPrefix (s prefix : string) : string :=
  if HasPrefix s prefix
  then String.substring (String.length prefix)
         (String.length s - String.length prefix) s
  else s.

(** [strings.Split(s, sep)] for a one-byte separator: every substring
    between separators, so [n] separators give [n + 1] substrings. *)
Fixpoint Split (s : string) (sep : ascii) : list string :=
  match s with
  | EmptyString => [EmptyString]
  | String c rest =>
    if Ascii.eqb c sep then EmptyString :: Split rest sep
    else match Split rest sep with
         | seg :: segs => String c seg :: segs
         | [] => [String c EmptyString]
         end
  end.

(** [strings.Join(elems, sep)]. *)
Definition Join (elems : list string) (sep : string) : string :=
  String.concat sep elems.

(** [regexp.QuoteMeta]: every byte of [specialBytes] (the regular-expression
    metacharacters, all ASCII) is preceded by a backslash. *)
Definition specialBytes : list ascii :=
  list_ascii_of_string "\.+*?()|[]{}^$".

Definition special (b : ascii) : bool :=
  existsb (Ascii.eqb b) specialBytes.

Fixpoint QuoteMeta (s : string) : string :=
  match s with
  | EmptyString => EmptyString
  | String b rest =>
    if special b then String "\"%char (String b (QuoteMeta rest))
    else String b (QuoteMeta rest)
  end.

(** [sort.Strings]: ascending byte-wise order, [String.le].  The order is
    total and antisymmetric, so the sorted arrangement of a list is unique
    and does not depend on the sorting algorithm (lemma
    [sort_Strings_unique]). *)
Definition sort_Strings (l : list string) : list string :=
  merge_sort String.le l.

(** ** Selector construction *)

Definition runPatternForTestName (testName : string) : string :=
  if String.eqb testName EmptyString then "^$"
  else
    let segments := Split testName "/"%char in
    let segments := map (fun segment => "^" +:+ QuoteMeta segment +:+ "$") segments in
    Join segments "/".

Definition buildTopLevelRunPattern (testNames : list string) : string :=
  match testNames with
  | [name] => "^" +:+ QuoteMeta name +:+ "$"
  | _ =>
    let parts := map QuoteMeta testNames in
    let parts := sort_Strings parts in
    "^(" +:+ Join parts "|" +:+ ")$"
  end.

(** ** Generated entries *)

Definition generatedEnv (cfg : Config) (testName relFilePath : string)
  : gmap string any :=
  <["ZED_GO_TEST_FILE" := AString relFilePath]>
    (<["ZED_GO_TEST_NAME" := AString testName]>
       (<[GeneratedEnvKey cfg := AString (GeneratedEnvValue cfg)]> ∅)).

Definition makeGeneratedTasks (testNames : list string)
    (pkgArg relFilePath : string) (cfg : Config)
    (extraGoTestArgs : list string) : list task :=
  map (fun testName =>
         let args := ["test"] ++ extraGoTestArgs
                       ++ [pkgArg; "-run"; runPatternForTestName testName] in
         <["env" := AMap (generatedEnv cfg testName relFilePath)]>
           (<["hide" := AString (Hide cfg)]>
           (<["reveal" := AString (Reveal cfg)]>
           (<["allow_concurrent_runs" := ABool (AllowConcurrentRuns cfg)]>
           (<["use_new_terminal" := ABool (UseNewTerminal cfg)]>
           (<["args" := AStrings args]>
           (<["command" := AString (GoBinary cfg)]>
           (<["label" := AString (LabelPrefix cfg +:+ testName)]> ∅))))))))
      testNames.

Fixpoint normalizeGoTestArgsForDelve (args : list string) : list string :=
  match args with
  | [] => []
  | arg :: rest =>
    if String.eqb arg "-v" then "-test.v" :: normalizeGoTestArgsForDelve rest
    else if String.eqb arg "-count" then normalizeGoTestArgsForDelve rest
    else if HasPrefix arg "-count="
    then ("-test." +:+ TrimPrefix arg "-") :: normalizeGoTestArgsForDelve rest
    else arg :: normalizeGoTestArgsForDelve rest
  end.

Definition makeGeneratedDebugConfigs (testNames : list string)
    (pkgArg relFilePath : string) (cfg : Config)
    (extraGoTestArgs : list string) : list task :=
  map (fun testName =>
         let taskArgs := normalizeGoTestArgsForDelve extraGoTestArgs
                           ++ ["-test.run"; runPatternForTestName testName] in
         <["env" := AMap (generatedEnv cfg testName relFilePath)]>
           (<["args" := AStrings taskArgs]>
           (<["program" := AString pkgArg]>
           (<["mode" := AString "test"]>
           (<["request" := AString "launch"]>
           (<["adapter" := AString "Delve"]>
           (<["label" := AString (DebugLabelPrefix cfg +:+ testName)]> ∅)))))))
      testNames.

(** ** External collaborators

    The standard library and the operating system are taken as interfaces;
    the program's functions are written against them. *)

Record goTestJSONEvent : Type := {
  Action : string;
  Test : string
}.

(** [encoding/json]: [json.Unmarshal] into a [goTestJSONEvent] and into a
    [[]map[string]any]; [None] is a decoding error. *)
Class JSON : Type := {
  json_Unmarshal_event : string -> option goTestJSONEvent;
  json_Unmarshal_tasks : list ascii -> option (list task)
}.

(** [unicode]: [TrimFunc(s, unicode.IsSpace)], the slow path that the
    [TrimSpace] functions take when they meet a byte outside ASCII. *)
Class Unicode : Type := {
  TrimFunc_IsSpace : list ascii -> list ascii
}.

(** [os/exec]: [exec.Command(name, args...)] run in [dir] to completion;
    the combined output and the error of [CombinedOutput]. *)
Class Exec : Type := {
  exec_CombinedOutput :
    string -> list string -> string -> list ascii * option string
}.

(** [time]: a [Duration] is its count of nanoseconds. *)
Class Time : Type := {
  time_ParseDuration : string -> option Z;
  Duration_String : Z -> string
}.

Inductive readFileResult : Type :=
| ReadData (data : list ascii)
| ReadNotExist
| ReadFailed.

(** [os.ReadFile]. *)
Class FileSystem : Type := {
  os_ReadFile : string -> readFileResult
}.

(** *** [TrimSpace] *)

Definition asciiSpace (c : ascii) : bool :=
  existsb (Ascii.eqb c) [TAB; LF; VT; FF; CR; " "%char].

(** [utf8.RuneSelf]. *)
Definition RuneSelf : nat := 128.

(** First loop of [TrimSpace]: skip leading ASCII space; the flag tells
    that a byte outside ASCII stopped the loop. *)
Fixpoint trimStart (s : list ascii) : list ascii * bool :=
  match s with
  | [] => ([], false)
  | c :: rest =>
    if (RuneSelf <=? nat_of_ascii c)%nat then (s, true)
    else if asciiSpace c then trimStart rest
    else (s, false)
  end.

(** [bytes.TrimSpace]; the second loop runs [trimStart] from the end. *)
Definition bytes_TrimSpace `{Unicode} (s : list ascii) : list ascii :=
  match trimStart s with
  | (s1, true) => TrimFunc_IsSpace s1
  | (s1, false) =>
    match trimStart (rev s1) with
    | (r, true) => TrimFunc_IsSpace (rev r)
    | (r, false) => rev r
    end
  end.

(** [strings.TrimSpace]. *)
Definition strings_TrimSpace `{Unicode} (s : string) : string :=
  string_of_list_ascii (bytes_TrimSpace (list_ascii_of_string s)).

(** *** [bufio.Scanner] with [ScanLines] *)

(** [bufio.MaxScanTokenSize]: the buffer holds at most this many bytes, so
    a line of that many bytes or more (before its newline) stops the scan
    with [ErrTooLong]. *)
Definition MaxScanTokenSize : nat := (64 * 1024)%nat.

(** [dropCR] of [ScanLines], on the reversed line. *)
Definition dropCR_rev (r : list ascii) : list ascii :=
  match r with
  | c :: r' => if Ascii.eqb c CR then r' else r
  | [] => []
  end.

(** The tokens [scanner.Scan] yields and whether [scanner.Err] is set.
    [cur] is the current line, reversed. *)
Fixpoint scanLines_from (data cur : list ascii) (lines : list string)
  : list string * bool :=
  match data with
  | [] =>
    match cur with
    | [] => (lines, false)
    | _ =>
      if (MaxScanTokenSize <=? length cur)%nat then (lines, true)
      else (lines ++ [string_of_list_ascii (rev (dropCR_rev cur))], false)
    end
  | c :: rest =>
    if Ascii.eqb c LF then
      if (MaxScanTokenSize <=? length cur)%nat then (lines, true)
      else scanLines_from rest []
             (lines ++ [string_of_list_ascii (rev (dropCR_rev cur))])
    else scanLines_from rest (c :: cur) lines
  end.

Definition scanLines (data : list ascii) : list string * bool :=
  scanLines_from data [] [].

(** ** Toolchain bridge *)

Fixpoint sanitizeDiscoveryGoTestArgs (args : list string) : list string :=
  match args with
  | [] => []
  | arg :: rest =>
    if String.eqb arg "-json" || String.eqb arg "-run" || HasPrefix arg "-run="
       || String.eqb arg "-list" || HasPrefix arg "-list="
       || String.eqb arg "-timeout" || HasPrefix arg "-timeout="
       || String.eqb arg "-count" || HasPrefix arg "-count="
    then sanitizeDiscoveryGoTestArgs rest
    else arg :: sanitizeDiscoveryGoTestArgs rest
  end.

(** The scanning loop of [parseRunEventsFromGoTestJSON]: [seen] after the
    given lines. *)
Fixpoint parseRunEvents_loop `{JSON} `{Unicode} (lines : list string)
    (seen : gset string) : gset string :=
  match lines with
  | [] => seen
  | text :: rest =>
    let line := strings_TrimSpace text in
    if String.eqb line EmptyString then parseRunEvents_loop rest seen
    else
      match json_Unmarshal_event line with
      | None => parseRunEvents_loop rest seen
      | Some ev =>
        if String.eqb (Action ev) "run" && negb (String.eqb (Test ev) EmptyString)
        then parseRunEvents_loop rest ({[Test ev]} ∪ seen)
        else parseRunEvents_loop rest seen
      end
  end.

(** The keys of [seen] are collected in the map's iteration order and then
    sorted; the sorted list does not depend on that order. *)
Definition parseRunEventsFromGoTestJSON `{JSON} `{Unicode}
    (output : list ascii) : result (list string) :=
  let '(lines, scanErr) := scanLines output in
  let seen := parseRunEvents_loop lines ∅ in
  if scanErr then Err ErrScanner
  else Ok (sort_Strings (elements seen)).

(** The argument list that [discoverSubtestsWithGo] builds. *)
Definition discoverSubtestsArgs `{Time} (topLevelTests : list string)
    (timeout : Z) (extraGoTestArgs : list string) : list string :=
  let args := ["test"; "-json"; "-count=1"; "-timeout"; Duration_String timeout] in
  let args := args ++ sanitizeDiscoveryGoTestArgs extraGoTestArgs in
  args ++ ["-run"; buildTopLevelRunPattern topLevelTests; "."].

Definition discoverSubtestsWithGo `{JSON} `{Unicode} `{Exec} `{Time}
    (goBinary packageDir : string) (topLevelTests : list string)
    (timeout : Z) (extraGoTestArgs : list string) : result (list string) :=
  match topLevelTests with
  | [] => Ok []
  | _ =>
    let args := discoverSubtestsArgs topLevelTests timeout extraGoTestArgs in
    let '(out, err) := exec_CombinedOutput goBinary args packageDir in
    match parseRunEventsFromGoTestJSON out with
    | Err parseErr => Err parseErr
    | Ok discovered =>
      match err, discovered with
      | Some exit, [] =>
        Err (ErrDiscoveryFailed packageDir exit (bytes_TrimSpace out))
      | _, _ => Ok discovered
      end
    end
  end.

(** [intersectTests]: the names of the file that the toolchain lists, in
    the order of the file. *)
Fixpoint intersectTests (fileTests : list string) (listed : gset string)
  : list string :=
  match fileTests with
  | [] => []
  | name :: rest =>
    if bool_decide (name ∈ listed) then name :: intersectTests rest listed
    else intersectTests rest listed
  end.

(** One loop of [mergeUniqueTests]. *)
Fixpoint mergeUnique_loop (names : list string) (seen : gset string)
    (merged : list string) : gset string * list string :=
  match names with
  | [] => (seen, merged)
  | testName :: rest =>
    if bool_decide (testName ∈ seen) then mergeUnique_loop rest seen merged
    else mergeUnique_loop rest ({[testName]} ∪ seen) (merged ++ [testName])
  end.

Definition mergeUniqueTests (base extra : list string) : list string :=
  let '(seen, merged) := mergeUnique_loop base ∅ [] in
  let '(_, merged) := mergeUnique_loop extra seen merged in
  merged.

Fixpoint countUniqueNotInBase_loop (baseSet : gset string)
    (candidates : list string) (seen : gset string) (count : nat) : nat :=
  match candidates with
  | [] => count
  | name :: rest =>
    if bool_decide (name ∈ seen)
    then countUniqueNotInBase_loop baseSet rest seen count
    else countUniqueNotInBase_loop baseSet rest ({[name]} ∪ seen)
           (if bool_decide (name ∈ baseSet) then count else S count)
  end.

Definition countUniqueNotInBase (base candidates : list string) : nat :=
  countUniqueNotInBase_loop (list_to_set base) candidates ∅ 0.

Definition resolveSubtestTimeout `{Unicode} `{Time} (fromEnv fromFlag : string)
  : result Z :=
  let value := strings_TrimSpace fromEnv in
  let value :=
    if negb (String.eqb (strings_TrimSpace fromFlag) EmptyString)
    then strings_TrimSpace fromFlag else value in
  let value := if String.eqb value EmptyString then "30s" else value in
  match time_ParseDuration value with
  | None => Err (ErrInvalidTimeout value)
  | Some timeout =>
    if (timeout <=? 0)%Z then Err (ErrInvalidTimeout value) else Ok timeout
  end.

(** The part of [runGenerate] that fixes the names to generate entries
    for, from the names found in the file and the names the toolchain
    lists: [runnableTests], then [selectedTests]. *)
Definition runnableTests (testsInFile : list string)
    (testsListedByGo : gset string) : list string :=
  sort_Strings (intersectTests testsInFile testsListedByGo).

Definition selectedTests `{JSON} `{Unicode} `{Exec} `{Time}
    (cfg : Config) (discoverSubtests : bool) (subtestTimeout : string)
    (packageDir : string) (allExtraGoTestArgs : list string)
    (testsInFile : list string) (testsListedByGo : gset string)
  : result (list string) :=
  let runnable := runnableTests testsInFile testsListedByGo in
  if discoverSubtests then
    match resolveSubtestTimeout (SubtestTimeout cfg) subtestTimeout with
    | Err e => Err e
    | Ok subtestDiscoveryTimeout =>
      match discoverSubtestsWithGo (GoBinary cfg) packageDir runnable
              subtestDiscoveryTimeout allExtraGoTestArgs with
      | Err e => Err (ErrWrap "discover subtests" e)
      | Ok discoveredTests =>
        Ok (sort_Strings (mergeUniqueTests runnable discoveredTests))
      end
    end
  else Ok runnable.

(** ** Relaxed-document parser *)

(** The four flags of [stripJSONComments]. *)
Record commentScan : Type := {
  inString : bool;
  inLineComment : bool;
  inBlockComment : bool;
  escape : bool
}.

Definition scanCode : commentScan :=
  {| inString := false; inLineComment := false;
     inBlockComment := false; escape := false |}.

(** The loop of [stripJSONComments] on [data[i:]].  Where the source
    does [i++] before [continue], the loop goes on two bytes further. *)
Fixpoint stripJSONComments_loop (data : list ascii) (st : commentScan)
    (out : list ascii) : commentScan * list ascii :=
  match data with
  | [] => (st, out)
  | ch :: rest =>
    if inLineComment st then
      if Ascii.eqb ch LF
      then stripJSONComments_loop rest
             {| inString := inString st; inLineComment := false;
                inBlockComment := inBlockComment st; escape := escape st |}
             (out ++ [ch])
      else stripJSONComments_loop rest st out
    else if inBlockComment st then
      match rest with
      | next :: rest' =>
        if Ascii.eqb ch "*" && Ascii.eqb next "/"
        then stripJSONComments_loop rest'
               {| inString := inString st; inLineComment := inLineComment st;
                  inBlockComment := false; escape := escape st |}
               out
        else stripJSONComments_loop rest st out
      | [] => stripJSONComments_loop rest st out
      end
    else if inString st then
      if escape st
      then stripJSONComments_loop rest
             {| inString := inString st; inLineComment := inLineComment st;
                inBlockComment := inBlockComment st; escape := false |}
             (out ++ [ch])
      else if Ascii.eqb ch "\"
      then stripJSONComments_loop rest
             {| inString := inString st; inLineComment := inLineComment st;
                inBlockComment := inBlockComment st; escape := true |}
             (out ++ [ch])
      else if Ascii.eqb ch QUOTE
      then stripJSONComments_loop rest
             {| inString := false; inLineComment := inLineComment st;
                inBlockComment := inBlockComment st; escape := escape st |}
             (out ++ [ch])
      else stripJSONComments_loop rest st (out ++ [ch])
    else if Ascii.eqb ch QUOTE
    then stripJSONComments_loop rest
           {| inString := true; inLineComment := inLineComment st;
              inBlockComment := inBlockComment st; escape := escape st |}
           (out ++ [ch])
    else
      match rest with
      | next :: rest' =>
        if Ascii.eqb ch "/" && Ascii.eqb next "/"
        then stripJSONComments_loop rest'
               {| inString := inString st; inLineComment := true;
                  inBlockComment := inBlockComment st; escape := escape st |}
               out
        else if Ascii.eqb ch "/" && Ascii.eqb next "*"
        then stripJSONComments_loop rest'
               {| inString := inString st; inLineComment := inLineComment st;
                  inBlockComment := true; escape := escape st |}
               out
        else stripJSONComments_loop rest st (out ++ [ch])
      | [] => stripJSONComments_loop rest st (out ++ [ch])
      end
  end.

Definition stripJSONComments (data : list ascii) : result (list ascii) :=
  let '(st, out) := stripJSONComments_loop data scanCode [] in
  if inBlockComment st then Err ErrUnterminatedBlockComment
  else if inString st then Err ErrUnterminatedString
  else Ok out.

Definition isJSONWhitespace (ch : ascii) : bool :=
  Ascii.eqb ch " " || Ascii.eqb ch TAB || Ascii.eqb ch LF || Ascii.eqb ch CR.

(** The inner loop of [stripTrailingCommas]: [data[j:]] once [j] has passed
    the whitespace. *)
Fixpoint skipJSONWhitespace (data : list ascii) : list ascii :=
  match data with
  | ch :: rest => if isJSONWhitespace ch then skipJSONWhitespace rest else data
  | [] => []
  end.

(** [j < len(data) && (data[j] == '}' || data[j] == ']')]. *)
Definition closesAfterWhitespace (rest : list ascii) : bool :=
  match skipJSONWhitespace rest with
  | ch :: _ => Ascii.eqb ch "}" || Ascii.eqb ch "]"
  | [] => false
  end.

(** The loop of [stripTrailingCommas] on [data[i:]]. *)
Fixpoint stripTrailingCommas_loop (data : list ascii) (inStr esc : bool)
    (out : list ascii) : list ascii :=
  match data with
  | [] => out
  | ch :: rest =>
    if inStr then
      if esc then stripTrailingCommas_loop rest inStr false (out ++ [ch])
      else if Ascii.eqb ch "\"
      then stripTrailingCommas_loop rest inStr true (out ++ [ch])
      else if Ascii.eqb ch QUOTE
      then stripTrailingCommas_loop rest false esc (out ++ [ch])
      else stripTrailingCommas_loop rest inStr esc (out ++ [ch])
    else if Ascii.eqb ch QUOTE
    then stripTrailingCommas_loop rest true esc (out ++ [ch])
    else if Ascii.eqb ch "," && closesAfterWhitespace rest
    then stripTrailingCommas_loop rest inStr esc out
    else stripTrailingCommas_loop rest inStr esc (out ++ [ch])
  end.

Definition stripTrailingCommas (data : list ascii) : list ascii :=
  stripTrailingCommas_loop data false false [].

Definition normalizeRelaxedJSON (data : list ascii) : result (list ascii) :=
  match stripJSONComments data with
  | Err e => Err e
  | Ok withoutComments => Ok (stripTrailingCommas withoutComments)
  end.

(** ** Reading and merging the persisted document *)

Definition readTasks `{FileSystem} `{JSON} `{Unicode} (path : string)
  : result (list task) :=
  match os_ReadFile path with
  | ReadNotExist => Ok []
  | ReadFailed => Err (ErrReadFile path)
  | ReadData data =>
    let data := bytes_TrimSpace data in
    match data with
    | [] => Ok []
    | _ =>
      match normalizeRelaxedJSON data with
      | Err e => Err e
      | Ok normalized =>
        match json_Unmarshal_tasks normalized with
        | None => Err ErrJSONUnmarshal
        | Some tasks => Ok tasks
        end
      end
    end
  end.

Definition mergeTasks `{FileSystem} `{JSON} `{Unicode} (tasksPath : string)
    (generated : list task) (cfg : Config) : result (list task * mergeStats) :=
  match readTasks tasksPath with
  | Err e => Err e
  | Ok existing => Ok (mergeExisting existing generated cfg)
  end.

(** [runClear] from the document read to the document written and the
    count printed. *)
Definition runClear_filtered `{FileSystem} `{JSON} `{Unicode}
    (tasksAbsPath : string) (cfg : Config) : result (list task * nat) :=
  match readTasks tasksAbsPath with
  | Err e => Err (ErrWrap "read tasks" e)
  | Ok existing => Ok (clearLoop cfg existing [] 0)
  end.

(** ** Lexical structure of a relaxed-JSON document

    The reference against which the two stripping passes are checked: a
    document is a sequence of chunks, each a byte outside strings and
    comments, a string literal, or a comment. *)
Inductive chunk : Type :=
| Plain (c : ascii)
| StrLit (body : list ascii)
| LineComment (text : list ascii)
| BlockComment (text : list ascii)
| TailComment (text : list ascii).

Definition render_chunk (k : chunk) : list ascii :=
  match k with
  | Plain c => [c]
  | StrLit body => QUOTE :: body ++ [QUOTE]
  | LineComment text => "/"%char :: "/"%char :: text ++ [LF]
  | BlockComment text => "/"%char :: "*"%char :: text ++ ["*"%char; "/"%char]
  | TailComment text => "/"%char :: "/"%char :: text
  end.

Definition render (ks : list chunk) : list ascii :=
  concat (map render_chunk ks).

(** The body of a string literal: bytes other than the quote and the
    backslash, and backslash escapes of any byte. *)
Fixpoint str_body (body : list ascii) : bool :=
  match body with
  | [] => true
  | c :: rest =>
    if Ascii.eqb c "\" then
      match rest with
      | _ :: rest' => str_body rest'
      | [] => false
      end
    else if Ascii.eqb c QUOTE then false
    else str_body rest
  end.

Definition no_newline (text : list ascii) : bool :=
  forallb (fun c => negb (Ascii.eqb c LF)) text.

(** The text of a block comment holds no [*/]. *)
Fixpoint no_block_end (text : list ascii) : bool :=
  match text with
  | [] => true
  | c :: rest =>
    match rest with
    | next :: _ =>
      if Ascii.eqb c "*" && Ascii.eqb next "/" then false
      else no_block_end rest
    | [] => true
    end
  end.

(** A plain slash is not followed by the byte that would open a comment. *)
Definition opens_no_comment (c : ascii) (following : list ascii) : bool :=
  if Ascii.eqb c "/" then
    match following with
    | next :: _ => negb (Ascii.eqb next "/" || Ascii.eqb next "*")
    | [] => true
    end
  else true.

Fixpoint wf_chunks (ks : list chunk) : bool :=
  match ks with
  | [] => true
  | Plain c :: rest =>
    negb (Ascii.eqb c QUOTE) && opens_no_comment c (render rest) && wf_chunks rest
  | StrLit body :: rest => str_body body && wf_chunks rest
  | LineComment text :: rest => no_newline text && wf_chunks rest
  | BlockComment text :: rest => no_block_end text && wf_chunks rest
  | TailComment text :: rest =>
    no_newline text && match rest with [] => true | _ => false end
  end.

(** What a standard decoder is handed: no comment is left. *)
Definition comment_free (k : chunk) : bool :=
  match k with
  | Plain c => negb (Ascii.eqb c QUOTE)
  | StrLit body => str_body body
  | _ => false
  end.

(** A comment to the end of a line leaves the newline; the other comments
    leave nothing. *)
Definition uncomment (k : chunk) : list chunk :=
  match k with
  | Plain _ | StrLit _ => [k]
  | LineComment _ => [Plain LF]
  | BlockComment _ | TailComment _ => []
  end.

(** Only whitespace separates the head of [ks] from a closing brace or
    bracket. *)
Fixpoint closes (ks : list chunk) : bool :=
  match ks with
  | Plain c :: rest =>
    if isJSONWhitespace c then closes rest
    else Ascii.eqb c "}" || Ascii.eqb c "]"
  | _ => false
  end.

Fixpoint drop_trailing_commas (ks : list chunk) : list chunk :=
  match ks with
  | [] => []
  | Plain c :: rest =>
    if Ascii.eqb c "," && closes rest then drop_trailing_commas rest
    else Plain c :: drop_trailing_commas rest
  | k :: rest => k :: drop_trailing_commas rest
  end.

Definition normalize_chunks (ks : list chunk) : list chunk :=
  drop_trailing_commas (concat (map uncomment ks)).

(** The contents of the string literals, in order. *)
Fixpoint literals (ks : list chunk) : list (list ascii) :=
  match ks with
  | [] => []
  | StrLit body :: rest => body :: literals rest
  | _ :: rest => literals rest
  end.

(** ** A matcher for run-selectors *)

(** Modelled from the spec: the synthetic matcher of the selector property;
    the test runner that interprets a run-selector is outside the
    repository.  A selector is cut at its slashes and each element is read
    as a regular expression [^literal$], where the literal is made of
    ordinary bytes and of backslash-escaped metacharacters; such an
    expression matches the literal text and nothing else.  [None]: the
    element is not of that form. *)
Fixpoint anchored_body (pat : string) : option string :=
  match pat with
  | EmptyString => None
  | String c rest =>
    if Ascii.eqb c "$" then
      match rest with EmptyString => Some EmptyString | _ => None end
    else if Ascii.eqb c "\" then
      match rest with
      | String d rest' =>
        if special d then String d <$> anchored_body rest' else None
      | EmptyString => None
      end
    else if special c then None
    else String c <$> anchored_body rest
  end.

Definition anchored_literal (pat : string) : option string :=
  match pat with
  | String c rest => if Ascii.eqb c "^" then anchored_body rest else None
  | EmptyString => None
  end.

(** The selector matches the name when both have the same number of
    elements and each element of the selector matches the element of the
    name at its level. *)
Definition selector_matches (selector name : string) : option bool :=
  lits ← mapM anchored_literal (Split selector "/"%char);
  Some (bool_decide (lits = Split name "/"%char)).

(** ** Notions used in the statements about the reconciler *)

(** The entry carries the marker: its ["env"] is an object that maps the
    marker key to the marker value as a string. *)
Definition carries_marker (cfg : Config) (t : task) : Prop :=
  ∃ env : gmap string any,
    t !! "env" = Some (AMap env)
    ∧ env !! GeneratedEnvKey cfg = Some (AString (GeneratedEnvValue cfg)).

(** The entries that survive the first loop of [mergeTasks]. *)
Definition retained (cfg : Config) (existing : list task) : list task :=
  filter (λ t, (PruneGenerated cfg && isGenerated t cfg) = false) existing.

(** No two entries of the document share a label. *)
Definition labels_unique (doc : list task) : Prop :=
  ∀ (i j : nat) (t1 t2 : task) (label : string),
    doc !! i = Some t1 → doc !! j = Some t2 →
    label_of t1 = Some label → label_of t2 = Some label → i = j.

(** The labels under which the third loop of [mergeTasks] files the
    generated entries. *)
Definition generated_labels (generated : list task) : list string :=
  label_or_zero <$> generated.

(** A user-authored entry whose label no generated entry uses. *)
Definition untouched (cfg : Config) (generated : list task) (t : task) : bool :=
  negb (isGenerated t cfg)
  && match label_of t with
     | Some label => bool_decide (label ∉ generated_labels generated)
     | None => true
     end.

(** The second of two merges of the same entries changes nothing and
    reports no addition and no removal. *)
Definition second_merge_is_noop (cfg : Config) (D G : list task) : Prop :=
  let first := mergeExisting D G cfg in
  let second := mergeExisting first.1 G cfg in
  second.1 = first.1 ∧ Added second.2 = 0 ∧ Removed second.2 = 0.

(** Every user-authored entry of [D] is in the merged document, in the
    order of [D]. *)
Definition user_entries_kept (cfg : Config) (D G : list task) : Prop :=
  filter (λ t, isGenerated t cfg = false) D
    `sublist_of` (mergeExisting D G cfg).1.

(** ** Sample documents *)

(** A hand-written entry: a label and a command, no ["env"]. *)
Definition userTask (label command : string) : task :=
  <["command" := AString command]> (<["label" := AString label]> ∅).

(** The entry generated for [TestAlpha] under the default configuration. *)
Definition sampleGenerated : list task :=
  makeGeneratedTasks ["TestAlpha"] "." "alpha_test.go" defaultConfig [].

(** An entry whose marker is the number 1 (the [float64] 1.0), not the
    string. *)
Definition numericMarkerTask : task :=
  <["env" := AMap (<["ZED_GO_TEST_TASK_GENERATED" := AFloat64 4607182418800017408]> ∅)]>
    (<["label" := AString "go:TestOld"]> ∅).

(** A document with a stale generated entry and a hand-written one. *)
Definition sampleDocument : list task :=
  makeGeneratedTasks ["TestOld"] "." "alpha_test.go" defaultConfig []
  ++ [userTask "my-build" "make"].

(** A document in which a hand-written entry has the label of the entry
    generated for [TestAlpha]. *)
Definition collidingDocument : list task :=
  [userTask "go:TestAlpha" "echo"; userTask "my-build" "make"].

(** A document in which two hand-written entries share a label. *)
Definition duplicateDocument : list task :=
  [userTask "my-build" "make"; userTask "my-build" "make all"].

(** The byte occurs in the string. *)
Fixpoint contains_byte (c : ascii) (s : string) : bool :=
  match s with
  | EmptyString => false
  | String b rest => Ascii.eqb b c || contains_byte c rest
  end.

(** What [runPatternForTestName] makes of one segment. *)
Definition anchored (segment : string) : string :=
  "^" +:+ QuoteMeta segment +:+ "$".

(** ** Notions used in the statements about the toolchain bridge *)

(** The line of the event stream reports that the test began to run: it is
    not blank and decodes to an event with action ["run"] and that test
    name, which is not empty. *)
Definition reports_run `{JSON} `{Unicode} (text name : string) : Prop :=
  strings_TrimSpace text ≠ EmptyString
  ∧ ∃ ev : goTestJSONEvent,
      json_Unmarshal_event (strings_TrimSpace text) = Some ev
      ∧ Action ev = "run" ∧ Test ev = name ∧ name ≠ EmptyString.

(** The selected names lie within the names of the file and the names the
    toolchain lists, and a name of the file that the toolchain does not
    list is not selected. *)
Definition selection_within_static_and_listed
    (selection : result (list string)) (testsInFile : list string)
    (testsListedByGo : gset string) : Prop :=
  ∀ selected : list string, selection = Ok selected →
    (∀ name : string, name ∈ selected →
       name ∈ testsInFile ∨ name ∈ testsListedByGo)
    ∧ (∀ name : string, name ∈ testsInFile → name ∉ testsListedByGo →
         name ∉ selected).

(** ** Stand-ins for the external collaborators, for the examples *)

Fixpoint strip_prefix (prefix s : string) : option string :=
  match prefix, s with
  | EmptyString, _ => Some s
  | String a prefix', String b s' =>
    if Ascii.eqb a b then strip_prefix prefix' s' else None
  | _, _ => None
  end.

(** The text before the first quote and the text after it. *)
Fixpoint until_quote (s : string) : option (string * string) :=
  match s with
  | EmptyString => None
  | String c rest =>
    if Ascii.eqb c QUOTE then Some (EmptyString, rest)
    else match until_quote rest with
         | Some (a, b) => Some (String c a, b)
         | None => None
         end
  end.

Definition quoted (s : string) : string :=
  String QUOTE s +:+ String QUOTE EmptyString.

(** An event line with the two fields the program reads, in the order
    and spacing of the examples of the specification. *)
Definition eventLine (action test : string) : string :=
  "{" +:+ quoted "Action" +:+ ":" +:+ quoted action +:+ ","
      +:+ quoted "Test" +:+ ":" +:+ quoted test +:+ "}".

(** A decoder for such lines; every other line is a decoding error. *)
Definition decodeEventLine (line : string) : option goTestJSONEvent :=
  s ← strip_prefix ("{" +:+ quoted "Action" +:+ ":" +:+ String QUOTE EmptyString) line;
  '(action, s) ← until_quote s;
  s ← strip_prefix ("," +:+ quoted "Test" +:+ ":" +:+ String QUOTE EmptyString) s;
  '(test, s) ← until_quote s;
  if String.eqb s "}" then Some {| Action := action; Test := test |} else None.

(** A decoder for the two documents of the examples: the empty array and
    anything else, which it rejects. *)
Definition decodeTasks (data : list ascii) : option (list task) :=
  if String.eqb (string_of_list_ascii data) "[]" then Some [] else None.

Definition sampleJSON : JSON :=
  {| json_Unmarshal_event := decodeEventLine;
     json_Unmarshal_tasks := decodeTasks |}.

(** The examples hold ASCII only, so the slow path is never taken. *)
Definition sampleUnicode : Unicode :=
  {| TrimFunc_IsSpace := fun s => s |}.

Definition sampleTime : Time :=
  {| time_ParseDuration :=
       fun s => if String.eqb s "30s" then Some 30000000000%Z else None;
     Duration_String := fun _ => "30s" |}.

(** A toolchain whose every run prints the given output and exits with
    the given error. *)
Definition scriptedExec (output : string) (err : option string) : Exec :=
  {| exec_CombinedOutput := fun _ _ _ => (list_ascii_of_string output, err) |}.

Definition newline : string := String LF EmptyString.

(** Scenario 5: two run events, a malformed line, a fail event. *)
Definition sampleEventStream : string :=
  eventLine "run" "TestAlpha" +:+ newline
  +:+ eventLine "run" "TestAlpha/case1" +:+ newline
  +:+ "not an event" +:+ newline
  +:+ eventLine "fail" "TestAlpha" +:+ newline.

(** A file system with one file. *)
Definition oneFile (name : string) (content : list ascii) : FileSystem :=
  {| os_ReadFile := fun path =>
       if String.eqb path name then ReadData content else ReadNotExist |}.

(** ** Sample relaxed documents *)

Definition lit (s : string) : chunk := StrLit (list_ascii_of_string s).

(** An array of the three string literals that look like comments and
    trailing commas, with real comments and a real trailing comma around
    them. *)
Definition sampleRelaxed : list chunk :=
  [Plain "["; lit "// not a comment"; Plain ","; Plain " ";
   lit "/* not a comment */"; Plain ","; BlockComment (list_ascii_of_string " c ");
   lit "a, }"; Plain ","; Plain " "; LineComment (list_ascii_of_string " tail");
   Plain "]"; TailComment (list_ascii_of_string " end")].

(** ** Invariants and auxiliary notions of the proofs *)

(** The index of the state is the index of its document. *)
Definition index_exact (st : upsertState) : Prop :=
  us_labelIndex st = indexLoop 0 (us_filtered st) ∅.

(** [filtered[idx] = task] stays within the slice. *)
Definition index_in_range (st : upsertState) : Prop :=
  ∀ (label : string) (p : nat),
    us_labelIndex st !! label = Some p → p < length (us_filtered st).

(** Every labelled entry sits where the index says its label is. *)
Definition index_locates (st : upsertState) : Prop :=
  ∀ (p : nat) (t : task) (label : string),
    us_filtered st !! p = Some t → label_of t = Some label →
    us_labelIndex st !! label = Some p.

(** While the generated entries are filed, the entries of [F] that
    [keep] selects stay where they are. *)
Record frame_inv (F : list task) (keep : task → bool) (st : upsertState) : Prop := {
  frame_length : (length F ≤ length (us_filtered st))%nat;
  frame_index : ∀ (label : string) (p : nat),
    us_labelIndex st !! label = Some p → p < length F →
    ∃ t : task, F !! p = Some t ∧ label_of t = Some label;
  frame_kept : ∀ (p : nat) (t : task),
    F !! p = Some t → keep t = true → us_filtered st !! p = Some t
}.

(** A pass in which every label is already indexed only overwrites. *)
Definition overwrite (idx : gmap string nat) (d : list task) (g : task) : list task :=
  match idx !! label_or_zero g with
  | Some p => <[p := g]> d
  | None => d
  end.

(** Each entry of [G] is either overwritten later in [G] or is where the
    index says its label is. *)
Definition settled (idx : gmap string nat) (T G : list task) : Prop :=
  ∀ (A : list task) (g : task) (B : list task),
    G = A ++ g :: B →
    (∃ g' : task, g' ∈ B ∧ label_or_zero g' = label_or_zero g)
    ∨ (∃ p : nat, idx !! label_or_zero g = Some p ∧ T !! p = Some g).

(** With pruning, when no generated label is the label of a user entry:
    the document is the user entries followed by entries of [G], one for
    each addition. *)
Record appended_inv (U G : list task) (st : upsertState) : Prop := {
  appended_doc : ∃ A : list task,
    us_filtered st = U ++ A ∧ Forall (λ a, a ∈ G) A ∧ length A = us_added st;
  appended_index : ∀ (label : string) (p : nat),
    us_labelIndex st !! label = Some p → p < length U →
    ∃ t : task, U !! p = Some t ∧ label_of t = Some label
}.

(** What the examples show of an entry: its label and whether it carries
    the marker. *)
Definition summary (t : task) : option string * bool :=
  (label_of t, isGenerated t defaultConfig).

(** The states of [stripJSONComments] inside a string, inside a comment to
    the end of the line and inside a block comment. *)
Definition scanString : commentScan :=
  {| inString := true; inLineComment := false;
     inBlockComment := false; escape := false |}.

Definition scanLine : commentScan :=
  {| inString := false; inLineComment := true;
     inBlockComment := false; escape := false |}.

Definition scanBlock : commentScan :=
  {| inString := false; inLineComment := false;
     inBlockComment := true; escape := false |}.

(** ** Further functions of the program *)

(** *** Static test extractor *)

(** A top-level declaration of the parsed file, as [findTestsInFile] looks
    at it: a function declaration with its name and whether it has a
    receiver, or a declaration of another kind. *)
Inductive decl : Type :=
| FuncDecl (name : string) (hasRecv : bool)
| OtherDecl.

(** [go/parser]: [parser.ParseFile], giving the declarations of the file;
    [None] is a syntax error. *)
Class GoParser : Type := {
  parser_ParseFile : string -> option (list decl)
}.

(** The loop of [findTestsInFile]; [matches] is [namePattern.MatchString]. *)
Fixpoint findTests_loop (matches : string -> bool) (decls : list decl)
    (seen : gset string) (names : list string) : list string :=
  match decls with
  | [] => names
  | d :: rest =>
    match d with
    | FuncDecl name hasRecv =>
      if hasRecv then findTests_loop matches rest seen names
      else if negb (matches name) then findTests_loop matches rest seen names
      else if bool_decide (name ∈ seen) then findTests_loop matches rest seen names
      else findTests_loop matches rest ({[name]} ∪ seen) (names ++ [name])
    | OtherDecl => findTests_loop matches rest seen names
    end
  end.

Definition findTestsInFile `{GoParser} (path : string)
    (matches : string -> bool) : option (list string) :=
  match parser_ParseFile path with
  | None => None
  | Some decls => Some (findTests_loop matches decls ∅ [])
  end.

(** *** Listing the runnable tests *)

(** [unicode]: [strings.FieldsFunc(s, unicode.IsSpace)], which
    [strings.Fields] calls when the string holds a byte outside ASCII. *)
Class UnicodeFields : Type := {
  FieldsFunc_IsSpace : string -> list string
}.

(** The ASCII path of [strings.Fields]: the maximal runs of bytes that are
    not ASCII space.  [cur] is the field being read, reversed. *)
Fixpoint asciiFields (s cur : list ascii) : list string :=
  match s with
  | [] =>
    match cur with
    | [] => []
    | _ => [string_of_list_ascii (rev cur)]
    end
  | c :: rest =>
    if asciiSpace c then
      match cur with
      | [] => asciiFields rest []
      | _ => string_of_list_ascii (rev cur) :: asciiFields rest []
      end
    else asciiFields rest (c :: cur)
  end.

Definition strings_Fields `{UnicodeFields} (s : string) : list string :=
  if forallb (fun c => (nat_of_ascii c <? RuneSelf)%nat) (list_ascii_of_string s)
  then asciiFields (list_ascii_of_string s) []
  else FieldsFunc_IsSpace s.

Definition isLetter (c : ascii) : bool :=
  let n := nat_of_ascii c in
  ((65 <=? n) && (n <=? 90) || (97 <=? n) && (n <=? 122) || (n =? 95))%nat.

Definition isDigit (c : ascii) : bool :=
  let n := nat_of_ascii c in ((48 <=? n) && (n <=? 57))%nat.

(** [identPattern.MatchString] for the pattern
    [^[A-Za-z_][A-Za-z0-9_]*$]. *)
Definition identPattern_MatchString (name : string) : bool :=
  match name with
  | EmptyString => false
  | String c rest =>
    isLetter c
    && forallb (fun d => isLetter d || isDigit d) (list_ascii_of_string rest)
  end.

Inductive listError : Type :=
| ErrListFailed (packageDir exit : string) (output : list ascii)
    (* "go test -list failed in %s: %w\n%s" *)
| ErrListScanner.
    (* scanner.Err() *)

(** The scanning loop of [listTestsWithGo]. *)
Fixpoint listTests_loop `{Unicode} `{UnicodeFields} (lines : list string)
    (names : gset string) : gset string :=
  match lines with
  | [] => names
  | text :: rest =>
    let line := strings_TrimSpace text in
    if String.eqb line EmptyString
       || HasPrefix line "ok "
       || HasPrefix line "? "
       || HasPrefix line "PASS"
       || HasPrefix line "FAIL"
    then listTests_loop rest names
    else
      match strings_Fields line with
      | [] => listTests_loop rest names
      | name :: _ =>
        if negb (identPattern_MatchString name) then listTests_loop rest names
        else listTests_loop rest ({[name]} ∪ names)
      end
  end.

Definition listTestsWithGo `{Unicode} `{UnicodeFields} `{Exec}
    (goBinary packageDir listRegex : string) : listError + gset string :=
  let '(out, err) :=
    exec_CombinedOutput goBinary ["test"; "-list"; listRegex; "."] packageDir in
  match err with
  | Some exit => inl (ErrListFailed packageDir exit (bytes_TrimSpace out))
  | None =>
    let '(lines, scanErr) := scanLines out in
    let names := listTests_loop lines ∅ in
    if scanErr then inl ErrListScanner else inr names
  end.

(** The stand-in for the slow path of [strings.Fields] in the examples,
    which hold ASCII only. *)
Definition sampleUnicodeFields : UnicodeFields :=
  {| FieldsFunc_IsSpace := fun s => [s] |}.

(** A file with a test, a method of the same kind of name, a helper and
    the test declared again. *)
Definition sampleDecls : list decl :=
  [FuncDecl "TestAlpha" false; FuncDecl "TestGamma" true; OtherDecl;
   FuncDecl "helper" false; FuncDecl "TestBeta" false;
   FuncDecl "TestAlpha" false].

Definition sampleParser : GoParser :=
  {| parser_ParseFile := fun _ => Some sampleDecls |}.

(** What [go test -list] prints for a package with one runnable test. *)
Definition sampleListing : string :=
  "TestAlpha" +:+ newline +:+ "ok  	example.com/pkg	0.003s" +:+ newline.

(** The one entry of [sampleGenerated]. *)
Definition sampleGeneratedTask : task := default ∅ (head sampleGenerated).

(** ** Notions used in the further statements *)

(** The argument is one of the flags by which [go test] is told what to
    run, how to report it, for how long and how often: the flags that
    [sanitizeDiscoveryGoTestArgs] takes out. *)
Definition controlsDiscovery (arg : string) : bool :=
  existsb (String.eqb arg) ["-json"; "-run"; "-list"; "-timeout"; "-count"]
  || existsb (HasPrefix arg) ["-run="; "-list="; "-timeout="; "-count="].

(** The argument is one that [normalizeGoTestArgsForDelve] rewrites or
    drops. *)
Definition rewrittenForDelve (arg : string) : bool :=
  String.eqb arg "-v" || String.eqb arg "-count" || HasPrefix arg "-count=".

(** The names of the receiver-free functions that match, in the order of
    their declarations, repetitions included. *)
Fixpoint matchingFunctions (matches : string -> bool) (decls : list decl)
  : list string :=
  match decls with
  | [] => []
  | FuncDecl name false :: rest =>
    if matches name then name :: matchingFunctions matches rest
    else matchingFunctions matches rest
  | _ :: rest => matchingFunctions matches rest
  end.

(** The line of the listing names a test: it is not blank, is not one of
    the status lines, and its first field is an identifier, the name. *)
Definition lists_test `{Unicode} `{UnicodeFields} (text name : string) : Prop :=
  let line := strings_TrimSpace text in
  (String.eqb line EmptyString
   || HasPrefix line "ok "
   || HasPrefix line "? "
   || HasPrefix line "PASS"
   || HasPrefix line "FAIL") = false
  ∧ head (strings_Fields line) = Some name
  ∧ identPattern_MatchString name = true.

(** The bytes after an opening quote that do not close the string: no
    quote outside an escape; a backslash may be the last byte. *)
Fixpoint str_open (body : list ascii) : bool :=
  match body with
  | [] => true
  | c :: rest =>
    if Ascii.eqb c "\" then
      match rest with
      | _ :: rest' => str_open rest'
      | [] => true
      end
    else if Ascii.eqb c QUOTE then false
    else str_open rest
  end.

(** ** The two targets of [runGenerate] *)

Inductive generateTarget : Type :=
| generateTargetTasks
| generateTargetDebug.

(** The entries [runGenerate] generates for its target. *)
Definition generatedFor (target : generateTarget) (selectedTests : list string)
    (pkgArg relFilePath : string) (cfg : Config)
    (allExtraGoTestArgs : list string) : list task :=
  match target with
  | generateTargetTasks =>
    makeGeneratedTasks selectedTests pkgArg relFilePath cfg allExtraGoTestArgs
  | generateTargetDebug =>
    makeGeneratedDebugConfigs selectedTests pkgArg relFilePath cfg
      allExtraGoTestArgs
  end.

(** [runGenerate] from the selected names to the document it serializes and
    the counts it prints; [absPath] is the resolved path of the target's
    file. *)
Definition runGenerate_merged `{FileSystem} `{JSON} `{Unicode}
    (target : generateTarget) (absPath : string) (selectedTests : list string)
    (pkgArg relFilePath : string) (cfg : Config)
    (allExtraGoTestArgs : list string) : result (list task * mergeStats) :=
  match mergeTasks absPath
          (generatedFor target selectedTests pkgArg relFilePath cfg
             allExtraGoTestArgs) cfg with
  | Err e =>
    Err (ErrWrap (match target with
                  | generateTargetTasks => "merge tasks"
                  | generateTargetDebug => "merge debug configs"
                  end) e)
  | Ok merged => Ok merged
  end.

(** The label prefix of the target. *)
Definition targetPrefix (target : generateTarget) (cfg : Config) : string :=
  match target with
  | generateTargetTasks => LabelPrefix cfg
  | generateTargetDebug => DebugLabelPrefix cfg
  end.

(** ** Invariants of the further proofs *)

(** The entries of [F] stay at their positions or are replaced there by an
    entry of [G] filed under their label. *)
Record inplace_inv (F G : list task) (st : upsertState) : Prop := {
  inplace_index : ∀ (label : string) (p : nat),
    us_labelIndex st !! label = Some p → p < length F →
    ∃ t : task, F !! p = Some t ∧ label_of t = Some label;
  inplace_kept : ∀ (p : nat) (t : task),
    F !! p = Some t →
    ∃ t' : task,
      us_filtered st !! p = Some t'
      ∧ (t' = t ∨ (t' ∈ G ∧ label_of t = Some (label_or_zero t')))
}.

(** ** Uniqueness label by label *)

(** At most one entry of the document has the label. *)
Definition label_unique (label : string) (doc : list task) : Prop :=
  ∀ (i j : nat) (t1 t2 : task),
    doc !! i = Some t1 → doc !! j = Some t2 →
    label_of t1 = Some label → label_of t2 = Some label → i = j.

(** Every entry with the label sits where the index says the label is. *)
Definition label_locates (label : string) (st : upsertState) : Prop :=
  ∀ (p : nat) (t : task),
    us_filtered st !! p = Some t → label_of t = Some label →
    us_labelIndex st !! label = Some p.

(** ** A stream with a long line *)

(** A run event, then a line of [MaxScanTokenSize] bytes, as a test that
    writes that much without a newline leaves in the output. *)
Definition longLineStream : string :=
  eventLine "run" "TestAlpha" +:+ newline
  +:+ string_of_list_ascii (replicate MaxScanTokenSize "x"%char).

(** ** The discovery run and the time it takes *)

(** What [exec.Command(...).CombinedOutput()] does with the child: it
    waits until the child exits, which the child does after [elapsed]
    nanoseconds with its combined output and its exit error, or never. *)
Inductive childRun : Type :=
| Exits (elapsed : Z) (out : list ascii) (err : option string)
| NeverExits.

(** [os/exec] with the running time of the child. *)
Class Process : Type := {
  exec_Run : string -> list string -> string -> childRun
}.

(** [discoverSubtestsWithGo] with the time the call waits for the child:
    [None] when the call does not return, otherwise the time waited and
    the result.  The function starts no timer and stops no process; the
    timeout goes into the argument list. *)
Definition discoverSubtestsWithGo_timed `{JSON} `{Unicode} `{Process} `{Time}
    (goBinary packageDir : string) (topLevelTests : list string)
    (timeout : Z) (extraGoTestArgs : list string)
  : option (Z * result (list string)) :=
  match topLevelTests with
  | [] => Some (0%Z, Ok [])
  | _ =>
    let args := discoverSubtestsArgs topLevelTests timeout extraGoTestArgs in
    match exec_Run goBinary args packageDir with
    | NeverExits => None
    | Exits elapsed out err =>
      Some (elapsed,
            match parseRunEventsFromGoTestJSON out with
            | Err parseErr => Err parseErr
            | Ok discovered =>
              match err, discovered with
              | Some exit, [] =>
                Err (ErrDiscoveryFailed packageDir exit (bytes_TrimSpace out))
              | _, _ => Ok discovered
              end
            end)
    end
  end.

(** The toolchain seen without the time: every run gives that output and
    that exit error. *)
Definition exited (out : list ascii) (err : option string) : Exec :=
  {| exec_CombinedOutput := fun _ _ _ => (out, err) |}.

(** The bound of the timeout: the call returns, and has waited no longer
    than the configured duration. *)
Definition returns_within (timeout : Z)
    (outcome : option (Z * result (list string))) : Prop :=
  ∃ (elapsed : Z) (r : result (list string)),
    outcome = Some (elapsed, r) ∧ (elapsed ≤ timeout)%Z.

(** A clock for a timeout of 200 ms. *)
Definition shortTime : Time :=
  {| time_ParseDuration :=
       fun s => if String.eqb s "200ms" then Some 200000000%Z else None;
     Duration_String := fun _ => "200ms" |}.

(** A child that takes two seconds, a child that never exits, and a child
    that the toolchain stops at its own timeout. *)
Definition slowChild : Process :=
  {| exec_Run := fun _ _ _ =>
       Exits 2000000000 (list_ascii_of_string sampleEventStream) None |}.

Definition hangingChild : Process :=
  {| exec_Run := fun _ _ _ => NeverExits |}.

Definition stoppedChild : Process :=
  {| exec_Run := fun _ _ _ =>
       Exits 200000000
         (list_ascii_of_string "panic: test timed out after 200ms")
         (Some "exit status 2") |}.
(** * Properties *)

(** ** The marker test and the removal loops *)

Lemma isGenerated_carries cfg (t : task) :
  isGenerated t cfg = true ↔ carries_marker cfg t.
Proof.
  unfold isGenerated, carries_marker. split.
  - destruct (t !! "env") as [[| | | | | |env]|] eqn:Henv; try discriminate.
    destruct (env !! GeneratedEnvKey cfg) as [[| | |val| | |]|] eqn:Hval;
      try discriminate.
    intros Heq%String.eqb_eq. subst val. by exists env.
  - intros (env & -> & ->). apply String.eqb_refl.
Qed.

Lemma pruneLoop_filter cfg (existing filtered : list task) removed :
  pruneLoop cfg existing filtered removed =
  (filtered ++ filter (λ t, (PruneGenerated cfg && isGenerated t cfg) = false) existing,
   removed + length (filter (λ t, (PruneGenerated cfg && isGenerated t cfg) = true) existing)).
Proof.
  revert filtered removed.
  induction existing as [|t rest IH]; intros filtered removed; simpl.
  - by rewrite app_nil_r, Nat.add_0_r.
  - rewrite !filter_cons.
    destruct (PruneGenerated cfg && isGenerated t cfg) eqn:Hgen; rewrite IH.
    + rewrite decide_False by done. rewrite decide_True by done.
      simpl. f_equal. lia.
    + rewrite decide_True by done. rewrite decide_False by done.
      by rewrite <- app_assoc.
Qed.

Lemma clearLoop_filter cfg (existing filtered : list task) removed :
  clearLoop cfg existing filtered removed =
  (filtered ++ filter (λ t, isGenerated t cfg = false) existing,
   removed + length (filter (λ t, isGenerated t cfg = true) existing)).
Proof.
  revert filtered removed.
  induction existing as [|t rest IH]; intros filtered removed; simpl.
  - by rewrite app_nil_r, Nat.add_0_r.
  - rewrite !filter_cons.
    destruct (isGenerated t cfg) eqn:Hgen; rewrite IH.
    + rewrite decide_False by done. rewrite decide_True by done.
      simpl. f_equal. lia.
    + rewrite decide_True by done. rewrite decide_False by done.
      by rewrite <- app_assoc.
Qed.

Lemma mergeExisting_unfold (existing generated : list task) cfg :
  mergeExisting existing generated cfg =
  let st := upsertLoop generated
              {| us_filtered := retained cfg existing;
                 us_labelIndex := indexLoop 0 (retained cfg existing) ∅;
                 us_added := 0; us_updated := 0 |} in
  (us_filtered st,
   {| Added := us_added st; Updated := us_updated st;
      Removed := length (filter (λ t, (PruneGenerated cfg && isGenerated t cfg) = true)
                           existing) |}).
Proof. unfold mergeExisting. by rewrite pruneLoop_filter. Qed.

(** C9.  An entry counts as generated exactly when it carries the marker as
    a string under an object-valued ["env"]; the removal loops of
    [mergeTasks] and of [runClear] drop the entries that do and no other,
    and count them. *)
Theorem isGenerated_string_marker_only (cfg : Config) :
  (∀ t : task, isGenerated t cfg = true ↔ carries_marker cfg t)
  ∧ (∀ (t : task) (v : any),
       (∃ env : gmap string any, t !! "env" = Some (AMap env)
          ∧ env !! GeneratedEnvKey cfg = Some v)
       → (∀ s : string, v ≠ AString s)
       → isGenerated t cfg = false)
  ∧ (∀ t : task,
       (t !! "env" = None ∨ ∀ env, t !! "env" ≠ Some (AMap env))
       → isGenerated t cfg = false)
  ∧ (∀ (t : task) (existing : list task),
       t ∈ existing → ¬ carries_marker cfg t →
       t ∈ (pruneLoop cfg existing [] 0).1 ∧ t ∈ (clearLoop cfg existing [] 0).1)
  ∧ (∀ existing : list task,
       clearLoop cfg existing [] 0 =
       (filter (λ t, isGenerated t cfg = false) existing,
        length (filter (λ t, isGenerated t cfg = true) existing)))
  ∧ (∀ existing generated : list task,
       pruneLoop cfg existing [] 0 =
       (filter (λ t, (PruneGenerated cfg && isGenerated t cfg) = false) existing,
        Removed (mergeExisting existing generated cfg).2)
       ∧ Removed (mergeExisting existing generated cfg).2 =
         if PruneGenerated cfg
         then length (filter (λ t, isGenerated t cfg = true) existing)
         else 0).
Proof.
  split; [apply isGenerated_carries|].
  split.
  { intros t v (env & Henv & Hval) Hv. unfold isGenerated.
    rewrite Henv, Hval. destruct v as [| | |s| | |]; try done.
    by destruct (Hv s). }
  split.
  { intros t [Hnone|Hnot]; unfold isGenerated.
    - by rewrite Hnone.
    - destruct (t !! "env") as [[| | | | | |env]|] eqn:Henv; try done.
      by destruct (Hnot env). }
  split.
  { intros t existing Hin Hno.
    assert (isGenerated t cfg = false) as Hgen.
    { destruct (isGenerated t cfg) eqn:Hgen; [|done].
      by apply isGenerated_carries in Hgen. }
    rewrite pruneLoop_filter, clearLoop_filter. simpl.
    split; apply list_elem_of_filter; (split; [|done]); [|done].
    by rewrite Hgen, andb_false_r. }
  split.
  { intros existing. by rewrite clearLoop_filter. }
  intros existing generated. rewrite mergeExisting_unfold, pruneLoop_filter.
  simpl. split; [done|].
  destruct (PruneGenerated cfg); simpl; [done|].
  induction existing as [|t rest IH]; [done|].
  rewrite filter_cons. by rewrite decide_False.
Qed.

(** ** The label index *)

Lemma indexLoop_snoc i (ts : list task) (t : task) (m : gmap string nat) :
  indexLoop i (ts ++ [t]) m =
  match label_of t with
  | Some label => <[label := i + length ts]> (indexLoop i ts m)
  | None => indexLoop i ts m
  end.
Proof.
  revert i m. induction ts as [|t' ts IH]; intros i m; simpl.
  - rewrite Nat.add_0_r. by destruct (label_of t).
  - rewrite IH. replace (S i + length ts) with (i + S (length ts)) by lia.
    done.
Qed.

Lemma indexLoop_ext i (ts ts' : list task) (m : gmap string nat) :
  label_of <$> ts = label_of <$> ts' → indexLoop i ts m = indexLoop i ts' m.
Proof.
  revert ts' i m. induction ts as [|t ts IH]; intros [|t' ts'] i m Heq;
    try discriminate; [done|].
  simpl in *. injection Heq as Ht Hts. rewrite Ht. by apply IH.
Qed.

(** An index entry points at an entry with that label. *)
Lemma indexLoop_lookup (F : list task) (label : string) (p : nat) :
  indexLoop 0 F ∅ !! label = Some p →
  ∃ t : task, F !! p = Some t ∧ label_of t = Some label.
Proof.
  induction F as [|t F IH] using rev_ind; simpl.
  - by rewrite lookup_empty.
  - rewrite indexLoop_snoc. simpl.
    destruct (label_of t) as [l|] eqn:Hl.
    + rewrite lookup_insert. case_decide as Heq.
      * intros [= <-]. subst l. exists t. split; [|done].
        by rewrite list_lookup_middle.
      * intros (t' & Hp & Hl')%IH. exists t'. split; [|done].
        by apply lookup_app_l_Some.
    + intros (t' & Hp & Hl')%IH. exists t'. split; [|done].
      by apply lookup_app_l_Some.
Qed.

(** Every string label of the document is in the index. *)
Lemma indexLoop_is_Some (F : list task) (p : nat) (t : task) (label : string) :
  F !! p = Some t → label_of t = Some label →
  is_Some (indexLoop 0 F ∅ !! label).
Proof.
  revert p. induction F as [|t' F IH] using rev_ind; intros p; [done|].
  rewrite indexLoop_snoc. simpl. intros Hp Hl.
  destruct (decide (p < length F)) as [Hlt|Hge].
  - rewrite lookup_app_l in Hp by done.
    destruct (label_of t') as [l|]; [|by eapply IH].
    rewrite lookup_insert. case_decide; [done|by eapply IH].
  - apply lookup_lt_Some in Hp as Hlen. rewrite length_app in Hlen.
    simpl in Hlen. assert (p = length F) as -> by lia.
    rewrite list_lookup_middle in Hp by done. injection Hp as ->.
    rewrite Hl. by rewrite lookup_insert_eq.
Qed.

(** ** Invariants of the third loop *)

Lemma upsertLoop_snoc (G : list task) (g : task) st :
  upsertLoop (G ++ [g]) st = upsertStep (upsertLoop G st) g.
Proof. unfold upsertLoop. by rewrite foldl_app. Qed.

Lemma upsertLoop_cons (G : list task) (g : task) st :
  upsertLoop (g :: G) st = upsertLoop G (upsertStep st g).
Proof. done. Qed.

Lemma upsertStep_index_exact st (g : task) :
  is_Some (label_of g) → index_exact st → index_exact (upsertStep st g).
Proof.
  intros [l Hl] Hst. unfold index_exact, upsertStep in *.
  unfold label_or_zero. rewrite Hl. simpl.
  destruct (us_labelIndex st !! l) as [p|] eqn:Hp; simpl.
  - rewrite Hst. apply indexLoop_ext.
    rewrite Hst in Hp. apply indexLoop_lookup in Hp as (t & Ht & Hlt).
    rewrite list_fmap_insert. symmetry. apply list_insert_id.
    by rewrite list_lookup_fmap, Ht, Hl, <- Hlt.
  - rewrite indexLoop_snoc, Hl. simpl. by rewrite Hst.
Qed.

Lemma upsertLoop_index_exact (G : list task) st :
  Forall (λ g, is_Some (label_of g)) G →
  index_exact st → index_exact (upsertLoop G st).
Proof.
  revert st. induction G as [|g G IH]; intros st HG Hst; [done|].
  apply Forall_cons in HG as [Hg HG]. rewrite upsertLoop_cons.
  apply IH; [done|]. by apply upsertStep_index_exact.
Qed.

Lemma upsertStep_index_in_range st (g : task) :
  index_in_range st → index_in_range (upsertStep st g).
Proof.
  intros Hst label p. unfold upsertStep.
  destruct (us_labelIndex st !! label_or_zero g) as [q|] eqn:Hq; simpl.
  - rewrite length_insert. apply Hst.
  - rewrite length_app. simpl. rewrite lookup_insert. case_decide.
    + intros [= <-]. lia.
    + intros Hp%Hst. lia.
Qed.

Lemma upsert_index_in_range (F G : list task) :
  index_in_range
    (upsertLoop G {| us_filtered := F; us_labelIndex := indexLoop 0 F ∅;
                     us_added := 0; us_updated := 0 |}).
Proof.
  induction G as [|g G IH] using rev_ind.
  - intros label p (t & Ht & _)%indexLoop_lookup. simpl.
    by eapply lookup_lt_Some.
  - rewrite upsertLoop_snoc. by apply upsertStep_index_in_range.
Qed.

(** ** Label uniqueness *)

Lemma index_locates_unique st : index_locates st → labels_unique (us_filtered st).
Proof.
  intros Hst i j t1 t2 label Hi Hj H1 H2.
  pose proof (Hst i t1 label Hi H1) as Hi'.
  pose proof (Hst j t2 label Hj H2) as Hj'. congruence.
Qed.

Lemma index_locates_init (F : list task) :
  labels_unique F →
  index_locates {| us_filtered := F; us_labelIndex := indexLoop 0 F ∅;
                   us_added := 0; us_updated := 0 |}.
Proof.
  intros HF p t label Hp Hl. simpl in *.
  destruct (indexLoop_is_Some F p t label Hp Hl) as [q Hq].
  destruct (indexLoop_lookup F label q Hq) as (t' & Hq' & Hl').
  by rewrite (HF p q t t' label).
Qed.

Lemma label_of_label_or_zero (t : task) (label : string) :
  label_of t = Some label → label_or_zero t = label.
Proof. unfold label_or_zero. by intros ->. Qed.

Lemma upsertStep_index_locates st (g : task) :
  index_locates st → index_locates (upsertStep st g).
Proof.
  intros Hst p t label. unfold upsertStep.
  destruct (us_labelIndex st !! label_or_zero g) as [q|] eqn:Hq; simpl.
  - destruct (decide (p = q)) as [->|Hne].
    + intros Hp Hl.
      destruct (decide (q < length (us_filtered st))) as [Hlt|Hge].
      * rewrite list_lookup_insert_eq in Hp by done. injection Hp as <-.
        by rewrite <- (label_of_label_or_zero _ _ Hl).
      * rewrite list_insert_ge in Hp by lia. by eapply Hst.
    + rewrite list_lookup_insert_ne by done. apply Hst.
  - intros Hp Hl.
    destruct (decide (p < length (us_filtered st))) as [Hlt|Hge].
    + rewrite lookup_app_l in Hp by done.
      pose proof (Hst p t label Hp Hl) as Hidx.
      rewrite lookup_insert_ne; [done|]. intros <-. congruence.
    + apply lookup_lt_Some in Hp as Hlen. rewrite length_app in Hlen.
      simpl in Hlen.
      assert (p = length (us_filtered st)) as -> by lia.
      rewrite list_lookup_middle in Hp by done. injection Hp as <-.
      rewrite (label_of_label_or_zero _ _ Hl). apply lookup_insert_eq.
Qed.

Lemma upsertLoop_index_locates (G : list task) st :
  index_locates st → index_locates (upsertLoop G st).
Proof.
  revert st. induction G as [|g G IH]; intros st Hst; [done|].
  rewrite upsertLoop_cons. by apply IH, upsertStep_index_locates.
Qed.

Lemma label_locates_init (label : string) (F : list task) :
  label_unique label F →
  label_locates label
    {| us_filtered := F; us_labelIndex := indexLoop 0 F ∅;
       us_added := 0; us_updated := 0 |}.
Proof.
  intros HF p t Hp Hl. simpl in *.
  destruct (indexLoop_is_Some F p t label Hp Hl) as [q Hq].
  destruct (indexLoop_lookup F label q Hq) as (t' & Hq' & Hl').
  by rewrite (HF p q t t').
Qed.

Lemma upsertStep_label_locates (label : string) st (g : task) :
  label_locates label st → label_locates label (upsertStep st g).
Proof.
  intros Hst p t. unfold upsertStep.
  destruct (us_labelIndex st !! label_or_zero g) as [q|] eqn:Hq; simpl.
  - destruct (decide (p = q)) as [->|Hne].
    + intros Hp Hl.
      destruct (decide (q < length (us_filtered st))) as [Hlt|Hge].
      * rewrite list_lookup_insert_eq in Hp by done. injection Hp as <-.
        by rewrite <- (label_of_label_or_zero _ _ Hl).
      * rewrite list_insert_ge in Hp by lia. by eapply Hst.
    + rewrite list_lookup_insert_ne by done. apply Hst.
  - intros Hp Hl.
    destruct (decide (p < length (us_filtered st))) as [Hlt|Hge].
    + rewrite lookup_app_l in Hp by done.
      pose proof (Hst p t Hp Hl) as Hidx.
      rewrite lookup_insert_ne; [done|]. intros <-. congruence.
    + apply lookup_lt_Some in Hp as Hlen. rewrite length_app in Hlen.
      simpl in Hlen.
      assert (p = length (us_filtered st)) as -> by lia.
      rewrite list_lookup_middle in Hp by done. injection Hp as <-.
      rewrite (label_of_label_or_zero _ _ Hl). apply lookup_insert_eq.
Qed.

Lemma upsertLoop_label_locates (label : string) (G : list task) st :
  label_locates label st → label_locates label (upsertLoop G st).
Proof.
  revert st. induction G as [|g G IH]; intros st Hst; [done|].
  rewrite upsertLoop_cons. by apply IH, upsertStep_label_locates.
Qed.

Lemma merge_keeps_label_unique (label : string) (cfg : Config)
    (D G : list task) :
  label_unique label (retained cfg D) →
  label_unique label (mergeExisting D G cfg).1.
Proof.
  intros HD. rewrite mergeExisting_unfold. simpl.
  pose proof (upsertLoop_label_locates label G _ (label_locates_init label _ HD))
    as Hst.
  intros i j t1 t2 Hi Hj H1 H2.
  pose proof (Hst i t1 Hi H1) as Hi'.
  pose proof (Hst j t2 Hj H2) as Hj'. congruence.
Qed.

(** C3, as amended.  The merge introduces no duplicate label: a label
    that at most one entry surviving the pruning bears is borne by at
    most one entry of the merged document, whatever the other entries
    and the generated entries are.  So merging keeps labels unique,
    provided no two entries that survive the pruning share a label. *)
Theorem merge_keeps_labels_unique (cfg : Config) (D G : list task) :
  (∀ label : string,
     label_unique label (retained cfg D) →
     label_unique label (mergeExisting D G cfg).1)
  ∧ (labels_unique (retained cfg D) →
     labels_unique (mergeExisting D G cfg).1).
Proof.
  split.
  - intros label. apply merge_keeps_label_unique.
  - intros HD i j t1 t2 label.
    apply (merge_keeps_label_unique label cfg D G).
    intros i' j' t1' t2'. apply HD.
Qed.

(** ** User-authored entries *)

Lemma frame_inv_init (F : list task) keep :
  frame_inv F keep {| us_filtered := F; us_labelIndex := indexLoop 0 F ∅;
                      us_added := 0; us_updated := 0 |}.
Proof.
  split; simpl; [done| |done].
  intros label p Hp _. by apply indexLoop_lookup.
Qed.

Lemma upsertStep_frame_inv (F : list task) keep st (g : task) :
  (∀ t : task, keep t = true → label_of t ≠ Some (label_or_zero g)) →
  frame_inv F keep st → frame_inv F keep (upsertStep st g).
Proof.
  intros Hg [Hlen Hidx Hkept]. unfold upsertStep.
  destruct (us_labelIndex st !! label_or_zero g) as [q|] eqn:Hq;
    split; simpl.
  - by rewrite length_insert.
  - done.
  - intros p t Hp Hk. destruct (decide (p = q)) as [->|Hne].
    + apply lookup_lt_Some in Hp as Hlt.
      destruct (Hidx _ _ Hq Hlt) as (t' & Hp' & Hl').
      assert (t' = t) as -> by congruence. by destruct (Hg t Hk).
    + rewrite list_lookup_insert_ne by done. by apply Hkept.
  - rewrite length_app. lia.
  - intros label p. rewrite lookup_insert. case_decide.
    + intros [= <-] Hlt. lia.
    + apply Hidx.
  - intros p t Hp Hk. apply lookup_app_l_Some. by apply Hkept.
Qed.

Lemma upsertLoop_frame_inv (F G : list task) keep st :
  Forall (λ g, ∀ t : task, keep t = true → label_of t ≠ Some (label_or_zero g)) G →
  frame_inv F keep st → frame_inv F keep (upsertLoop G st).
Proof.
  revert st. induction G as [|g G IH]; intros st HG Hst; [done|].
  apply Forall_cons in HG as [Hg HG]. rewrite upsertLoop_cons.
  apply IH; [done|]. by apply upsertStep_frame_inv.
Qed.

(** Entries that stay at their positions form a subsequence. *)
Lemma kept_positions_sublist (keep : task → bool) (F doc : list task) :
  (∀ (p : nat) (t : task), F !! p = Some t → keep t = true → doc !! p = Some t) →
  filter (λ t, keep t = true) F `sublist_of` doc.
Proof.
  revert doc. induction F as [|f F IH]; intros doc Hkept.
  - apply sublist_nil_l.
  - rewrite filter_cons. destruct (decide (keep f = true)) as [Hk|Hk].
    + pose proof (Hkept 0 f eq_refl Hk) as H0.
      destruct doc as [|d doc]; [done|]. injection H0 as ->.
      apply sublist_skip, IH. intros p t Hp Hkt.
      apply (Hkept (S p) t Hp Hkt).
    + destruct doc as [|d doc].
      * apply IH. intros p t Hp Hkt.
        by pose proof (Hkept (S p) t Hp Hkt).
      * apply sublist_cons, IH. intros p t Hp Hkt.
        apply (Hkept (S p) t Hp Hkt).
Qed.

Lemma untouched_retained cfg (G D : list task) :
  filter (λ t, untouched cfg G t = true) (retained cfg D) =
  filter (λ t, untouched cfg G t = true) D.
Proof.
  unfold retained. induction D as [|t D IH]; [done|].
  rewrite !filter_cons.
  destruct (decide ((PruneGenerated cfg && isGenerated t cfg) = false)) as [Hr|Hr].
  - rewrite filter_cons. by rewrite IH.
  - rewrite IH. rewrite decide_False; [done|].
    unfold untouched. destruct (isGenerated t cfg); [done|].
    by rewrite andb_false_r in Hr.
Qed.

(** C2, as amended.  Every entry of the document that does not carry the
    marker and whose label is not the label of a generated entry is in the
    merged document, unchanged and in the order of the document, under
    either pruning policy. *)
Theorem merge_keeps_untouched_entries (cfg : Config) (D G : list task) :
  filter (λ t, untouched cfg G t = true) D
    `sublist_of` (mergeExisting D G cfg).1.
Proof.
  rewrite <- untouched_retained, mergeExisting_unfold. simpl.
  apply kept_positions_sublist.
  apply (upsertLoop_frame_inv (retained cfg D) G (untouched cfg G));
    [|apply frame_inv_init].
  apply Forall_forall. intros g Hg t Ht Hl. unfold untouched in Ht.
  rewrite Hl in Ht. apply andb_true_iff in Ht as [_ Ht].
  apply bool_decide_eq_true in Ht. apply Ht.
  unfold generated_labels. by apply list_elem_of_fmap_2.
Qed.

(** ** Merging twice *)

Lemma upsertLoop_indexed (G : list task) (d : list task) idx a u :
  Forall (λ g, is_Some (idx !! label_or_zero g)) G →
  upsertLoop G {| us_filtered := d; us_labelIndex := idx;
                  us_added := a; us_updated := u |} =
  {| us_filtered := foldl (overwrite idx) d G; us_labelIndex := idx;
     us_added := a; us_updated := u + length G |}.
Proof.
  revert d u. induction G as [|g G IH]; intros d u HG.
  - simpl. by rewrite Nat.add_0_r.
  - apply Forall_cons in HG as [[p Hp] HG]. rewrite upsertLoop_cons.
    unfold upsertStep. simpl. rewrite Hp. rewrite IH by done.
    unfold overwrite at 3. rewrite Hp. f_equal. lia.
Qed.

Lemma overwrite_length idx (G d : list task) :
  length (foldl (overwrite idx) d G) = length d.
Proof.
  revert d. induction G as [|g G IH]; intros d; simpl; [done|].
  rewrite IH. unfold overwrite.
  destruct (idx !! label_or_zero g); [apply length_insert|done].
Qed.

(** Overwriting with [G] a document that differs from [T] only where [G]
    writes, when [G] is settled in [T], gives [T]. *)
Lemma overwrite_settled idx (G d T : list task) :
  length d = length T →
  (∀ p : nat, d !! p = T !! p
     ∨ ∃ g : task, g ∈ G ∧ idx !! label_or_zero g = Some p) →
  settled idx T G →
  foldl (overwrite idx) d G = T.
Proof.
  revert d. induction G as [|g G IH]; intros d Hlen Hdirty Hset; simpl.
  - apply list_eq. intros p.
    destruct (Hdirty p) as [|(g & Hg & _)]; [done|].
    by apply elem_of_nil in Hg.
  - apply IH.
    + unfold overwrite. destruct (idx !! label_or_zero g);
        [by rewrite length_insert|done].
    + intros p. unfold overwrite.
      destruct (idx !! label_or_zero g) as [q|] eqn:Hq.
      * destruct (decide (p = q)) as [->|Hpq].
        -- destruct (decide (q < length d)) as [Hlt|Hge].
           ++ rewrite list_lookup_insert_eq by done.
              destruct (Hset [] g G eq_refl) as [(g' & Hg' & Hl)|(p & Hp & HT)].
              ** right. exists g'. split; [done|]. by rewrite Hl.
              ** left. assert (p = q) as -> by congruence. done.
           ++ left. rewrite list_insert_ge by lia.
              rewrite !lookup_ge_None_2; [done|lia|lia].
        -- rewrite list_lookup_insert_ne by done.
           destruct (Hdirty p) as [|(g' & Hg' & Hp)]; [by left|].
           apply elem_of_cons in Hg' as [->|Hg']; [congruence|].
           right. by exists g'.
      * destruct (Hdirty p) as [|(g' & Hg' & Hp)]; [by left|].
        apply elem_of_cons in Hg' as [->|Hg']; [congruence|].
        right. by exists g'.
    + intros A g' B ->. apply (Hset (g :: A) g' B eq_refl).
Qed.

(** State of the loop after [G]: all labels of [G] are indexed and [G]
    is settled in the document. *)
Lemma upsertStep_lookup_mono st (g : task) (label : string) :
  is_Some (us_labelIndex st !! label) →
  is_Some (us_labelIndex (upsertStep st g) !! label).
Proof.
  intros Hl. unfold upsertStep.
  destruct (us_labelIndex st !! label_or_zero g) eqn:Hg; simpl; [done|].
  rewrite lookup_insert. by case_decide.
Qed.

Lemma upsertStep_indexed st (g : task) :
  is_Some (us_labelIndex (upsertStep st g) !! label_or_zero g).
Proof.
  unfold upsertStep.
  destruct (us_labelIndex st !! label_or_zero g) eqn:Hg; simpl.
  - by rewrite Hg.
  - by rewrite lookup_insert_eq.
Qed.

Lemma upsertLoop_all_indexed (G : list task) st :
  Forall (λ g, is_Some (us_labelIndex (upsertLoop G st) !! label_or_zero g)) G.
Proof.
  induction G as [|g G IH] using rev_ind; [done|].
  rewrite upsertLoop_snoc. apply Forall_app. split.
  - eapply Forall_impl; [exact IH|]. intros g'. apply upsertStep_lookup_mono.
  - apply Forall_singleton, upsertStep_indexed.
Qed.

Lemma upsertStep_settled (G : list task) st (g0 : task) :
  index_exact st →
  settled (us_labelIndex st) (us_filtered st) G →
  settled (us_labelIndex (upsertStep st g0)) (us_filtered (upsertStep st g0))
    (G ++ [g0]).
Proof.
  intros Hex Hset A g B Heq.
  assert (∀ (l : string) (p : nat), us_labelIndex st !! l = Some p →
            ∃ t : task, us_filtered st !! p = Some t ∧ label_of t = Some l)
    as Hpoint.
  { intros l p. rewrite Hex. apply indexLoop_lookup. }
  destruct B as [|b B _] using rev_ind.
  - apply app_inj_tail in Heq as [-> ->]. right. unfold upsertStep.
    destruct (us_labelIndex st !! label_or_zero g) as [q|] eqn:Hq; simpl.
    + exists q. split; [done|].
      destruct (Hpoint _ _ Hq) as (t & Ht & _).
      apply list_lookup_insert_eq. by eapply lookup_lt_Some.
    + exists (length (us_filtered st)). split; [apply lookup_insert_eq|].
      by apply list_lookup_middle.
  - change (A ++ g :: B ++ [b]) with (A ++ (g :: B) ++ [b]) in Heq.
    rewrite app_assoc in Heq. apply app_inj_tail in Heq as [-> ->].
    destruct (Hset A g B eq_refl) as [(g' & Hg' & Hl)|(p & Hp & HT)].
    { left. exists g'. split; [|done]. apply elem_of_app. by left. }
    destruct (decide (label_or_zero b = label_or_zero g)) as [Hsame|Hdiff].
    { left. exists b. split; [|done]. apply elem_of_app. right.
      by apply list_elem_of_singleton. }
    right. exists p. unfold upsertStep.
    destruct (us_labelIndex st !! label_or_zero b) as [q|] eqn:Hq; simpl.
    + split; [done|]. rewrite list_lookup_insert_ne; [done|].
      intros ->. destruct (Hpoint _ _ Hq) as (t & Ht & Hlt).
      destruct (Hpoint _ _ Hp) as (t' & Ht' & Hlt'). congruence.
    + split; [by rewrite lookup_insert_ne|]. by apply lookup_app_l_Some.
Qed.

Lemma upsertLoop_settled (G : list task) st :
  Forall (λ g, is_Some (label_of g)) G →
  index_exact st →
  settled (us_labelIndex (upsertLoop G st)) (us_filtered (upsertLoop G st)) G.
Proof.
  induction G as [|g G IH] using rev_ind; intros HG Hex.
  - intros A g B Heq. by destruct A.
  - apply Forall_app in HG as [HG Hg]. rewrite upsertLoop_snoc.
    apply upsertStep_settled; [|by apply IH].
    by apply upsertLoop_index_exact.
Qed.

(** Merging again into the document just produced, without pruning. *)
Lemma upsert_twice (F G : list task) :
  Forall (λ g, is_Some (label_of g)) G →
  let st1 := upsertLoop G {| us_filtered := F; us_labelIndex := indexLoop 0 F ∅;
                             us_added := 0; us_updated := 0 |} in
  upsertLoop G {| us_filtered := us_filtered st1;
                  us_labelIndex := indexLoop 0 (us_filtered st1) ∅;
                  us_added := 0; us_updated := 0 |} =
  {| us_filtered := us_filtered st1; us_labelIndex := us_labelIndex st1;
     us_added := 0; us_updated := length G |}.
Proof.
  intros HG st1.
  assert (index_exact st1) as Hex1 by (by apply upsertLoop_index_exact).
  rewrite <- Hex1. rewrite upsertLoop_indexed by apply upsertLoop_all_indexed.
  f_equal. apply overwrite_settled; [done|by left|].
  by apply upsertLoop_settled.
Qed.
Lemma upsertStep_appended_inv (U G : list task) st (g : task) :
  g ∈ G →
  (∀ (p : nat) (t : task), U !! p = Some t → label_of t ≠ Some (label_or_zero g)) →
  appended_inv U G st → appended_inv U G (upsertStep st g).
Proof.
  intros Hg Hfree [(A & Hdoc & HA & Hlen) Hidx]. unfold upsertStep.
  destruct (us_labelIndex st !! label_or_zero g) as [q|] eqn:Hq;
    split; simpl.
  - destruct (decide (q < length U)) as [Hlt|Hge].
    { destruct (Hidx _ _ Hq Hlt) as (t & Ht & Hl). by destruct (Hfree q t). }
    exists (<[q - length U := g]> A). rewrite Hdoc. split; [|split].
    + apply insert_app_r_alt. lia.
    + destruct (decide (q - length U < length A)) as [Hin|Hout].
      * by apply Forall_insert.
      * by rewrite list_insert_ge by lia.
    + by rewrite length_insert.
  - done.
  - exists (A ++ [g]). rewrite Hdoc. split; [by rewrite app_assoc|].
    split.
    + apply Forall_app. split; [done|]. by apply Forall_singleton.
    + rewrite length_app. simpl. lia.
  - intros label p. rewrite lookup_insert. case_decide.
    + intros [= <-]. rewrite Hdoc, length_app. lia.
    + apply Hidx.
Qed.

Lemma upsertLoop_appended_inv (U G G' : list task) st :
  Forall (λ g, g ∈ G
               ∧ ∀ (p : nat) (t : task), U !! p = Some t →
                   label_of t ≠ Some (label_or_zero g)) G' →
  appended_inv U G st → appended_inv U G (upsertLoop G' st).
Proof.
  revert st. induction G' as [|g G' IH]; intros st HG Hst; [done|].
  apply Forall_cons in HG as [[Hg Hfree] HG]. rewrite upsertLoop_cons.
  apply IH; [done|]. by apply upsertStep_appended_inv.
Qed.

Lemma filter_Forall_id {A} (P : A → Prop) `{!∀ x, Decision (P x)} (l : list A) :
  Forall P l → filter P l = l.
Proof.
  induction 1 as [|x l Hx Hl IH]; [done|].
  rewrite filter_cons, decide_True by done. by rewrite IH.
Qed.

Lemma filter_Forall_nil {A} (P : A → Prop) `{!∀ x, Decision (P x)} (l : list A) :
  Forall (λ x, ¬ P x) l → filter P l = [].
Proof.
  induction 1 as [|x l Hx Hl IH]; [done|].
  by rewrite filter_cons, decide_False.
Qed.

Lemma retained_no_pruning cfg (D : list task) :
  PruneGenerated cfg = false → retained cfg D = D.
Proof.
  intros Hp. unfold retained. apply filter_Forall_id, Forall_forall.
  intros t _. by rewrite Hp.
Qed.

Lemma removed_no_pruning cfg (D : list task) :
  PruneGenerated cfg = false →
  filter (λ t, (PruneGenerated cfg && isGenerated t cfg) = true) D = [].
Proof.
  intros Hp. apply filter_Forall_nil, Forall_forall.
  intros t _. by rewrite Hp.
Qed.

(** C1, as amended.  Let the entries of [G] be labelled.  Without
    pruning, merging [G] again into the document of a first merge gives
    the same document and reports no addition, no removal and one update
    for each entry of [G].  With pruning, when the entries of [G] carry
    the marker and none of their labels is the label of an entry of [D]
    without the marker, the second merge gives the same document too, and
    reports the additions of the first merge as removed and added again. *)
Theorem second_merge_same_document (cfg : Config) (D G : list task) :
  Forall (λ g, is_Some (label_of g)) G →
  (PruneGenerated cfg = true →
   Forall (λ g, isGenerated g cfg = true) G
   ∧ Forall (λ t, isGenerated t cfg = false → untouched cfg G t = true) D) →
  let first := mergeExisting D G cfg in
  let second := mergeExisting first.1 G cfg in
  second.1 = first.1
  ∧ if PruneGenerated cfg
    then Added second.2 = Added first.2
         ∧ Removed second.2 = Added first.2
         ∧ Updated second.2 = Updated first.2
    else Added second.2 = 0
         ∧ Removed second.2 = 0
         ∧ Updated second.2 = length G.
Proof.
  intros Hlab Hprune first second. subst first second.
  destruct (PruneGenerated cfg) eqn:Hp;
    rewrite (mergeExisting_unfold D); simpl;
    rewrite mergeExisting_unfold; simpl.
  - destruct (Hprune eq_refl) as [Hgen Huser]. clear Hprune.
    set (U := retained cfg D).
    set (st1 := upsertLoop G {| us_filtered := U;
                                us_labelIndex := indexLoop 0 U ∅;
                                us_added := 0; us_updated := 0 |}).
    assert (appended_inv U G st1) as [(A & Hdoc & HA & Hlen) _].
    { apply upsertLoop_appended_inv.
      - apply Forall_forall. intros g Hg. split; [done|].
        intros p t Ht Hl.
        apply list_elem_of_lookup_2, list_elem_of_filter in Ht as [Hret Ht].
        rewrite Hp in Hret. simpl in Hret.
        rewrite Forall_forall in Huser. specialize (Huser t Ht Hret).
        unfold untouched in Huser. rewrite Hl, Hret in Huser. simpl in Huser.
        apply bool_decide_eq_true in Huser. apply Huser.
        unfold generated_labels. by apply list_elem_of_fmap_2.
      - split; simpl.
        + exists []. split; [by rewrite app_nil_r|].
          split; [constructor|done].
        + intros label p Hl _. by apply indexLoop_lookup. }
    assert (Forall (λ a, isGenerated a cfg = true) A) as HgenA.
    { eapply Forall_impl; [exact HA|]. intros a Ha.
      rewrite Forall_forall in Hgen. by apply Hgen. }
    assert (retained cfg (us_filtered st1) = U) as Hret.
    { rewrite Hdoc. unfold retained. rewrite filter_app.
      rewrite (filter_Forall_nil _ A), app_nil_r.
      - apply filter_Forall_id, Forall_forall. intros t Ht.
        by apply list_elem_of_filter in Ht as [? _].
      - eapply Forall_impl; [exact HgenA|]. intros a Ha.
        rewrite Hp, Ha. by simpl. }
    rewrite Hret. fold st1. split; [done|]. split; [done|]. split; [|done].
    rewrite Hdoc, filter_app, length_app.
    rewrite (filter_Forall_nil _ U), (filter_Forall_id _ A).
    + simpl. done.
    + eapply Forall_impl; [exact HgenA|]. intros a Ha. by rewrite Hp, Ha.
    + apply Forall_forall. intros t Ht.
      apply list_elem_of_filter in Ht as [Hr _]. by rewrite Hr.
  - clear Hprune. rewrite !retained_no_pruning by done.
    rewrite !removed_no_pruning by done.
    rewrite upsert_twice by done. by simpl.
Qed.

(** ** The generator produces labelled, marked entries *)

Lemma makeGeneratedTasks_labelled names pkgArg relFilePath cfg extra :
  Forall (λ g, is_Some (label_of g))
    (makeGeneratedTasks names pkgArg relFilePath cfg extra).
Proof.
  unfold makeGeneratedTasks. apply Forall_fmap, Forall_forall.
  intros name _. by eexists.
Qed.

Lemma makeGeneratedDebugConfigs_labelled names pkgArg relFilePath cfg extra :
  Forall (λ g, is_Some (label_of g))
    (makeGeneratedDebugConfigs names pkgArg relFilePath cfg extra).
Proof.
  unfold makeGeneratedDebugConfigs. apply Forall_fmap, Forall_forall.
  intros name _. by eexists.
Qed.

Lemma generatedEnv_marker cfg testName relFilePath :
  GeneratedEnvKey cfg ≠ "ZED_GO_TEST_NAME" →
  GeneratedEnvKey cfg ≠ "ZED_GO_TEST_FILE" →
  generatedEnv cfg testName relFilePath !! GeneratedEnvKey cfg =
  Some (AString (GeneratedEnvValue cfg)).
Proof.
  intros Hname Hfile. unfold generatedEnv.
  rewrite !lookup_insert_ne by done. apply lookup_insert_eq.
Qed.

Lemma makeGeneratedTasks_generated names pkgArg relFilePath cfg extra :
  GeneratedEnvKey cfg ≠ "ZED_GO_TEST_NAME" →
  GeneratedEnvKey cfg ≠ "ZED_GO_TEST_FILE" →
  Forall (λ g, isGenerated g cfg = true)
    (makeGeneratedTasks names pkgArg relFilePath cfg extra).
Proof.
  intros Hname Hfile. unfold makeGeneratedTasks.
  apply Forall_fmap, Forall_forall. intros name _. simpl.
  apply isGenerated_carries. eexists. split; [apply lookup_insert_eq|].
  by apply generatedEnv_marker.
Qed.

Lemma makeGeneratedDebugConfigs_generated names pkgArg relFilePath cfg extra :
  GeneratedEnvKey cfg ≠ "ZED_GO_TEST_NAME" →
  GeneratedEnvKey cfg ≠ "ZED_GO_TEST_FILE" →
  Forall (λ g, isGenerated g cfg = true)
    (makeGeneratedDebugConfigs names pkgArg relFilePath cfg extra).
Proof.
  intros Hname Hfile. unfold makeGeneratedDebugConfigs.
  apply Forall_fmap, Forall_forall. intros name _. simpl.
  apply isGenerated_carries. eexists. split; [apply lookup_insert_eq|].
  by apply generatedEnv_marker.
Qed.

(** ** The reconciler on the sample documents *)

(** Scenario 2: one entry added to an empty document. *)
Example merge_into_empty :
  summary <$> (mergeExisting [] sampleGenerated defaultConfig).1
    = [(Some "go:TestAlpha", true)]
  ∧ (mergeExisting [] sampleGenerated defaultConfig).2
    = {| Added := 1; Updated := 0; Removed := 0 |}.
Proof. split; vm_compute; reflexivity. Qed.

(** Scenario 3 under the default configuration, which prunes: the entry
    is removed and added again. *)
Example merge_again_pruning :
  (mergeExisting (mergeExisting [] sampleGenerated defaultConfig).1
     sampleGenerated defaultConfig).2
  = {| Added := 1; Updated := 0; Removed := 1 |}.
Proof. vm_compute; reflexivity. Qed.

(** Scenario 4: the stale entry goes, the hand-written entry stays. *)
Example merge_prunes_stale :
  summary <$> (mergeExisting sampleDocument sampleGenerated defaultConfig).1
    = [(Some "my-build", false); (Some "go:TestAlpha", true)]
  ∧ (mergeExisting sampleDocument sampleGenerated defaultConfig).2
    = {| Added := 1; Updated := 0; Removed := 1 |}.
Proof. split; vm_compute; reflexivity. Qed.

(** A marker that is a number does not make the entry generated: pruning
    and clearing keep it. *)
Example numeric_marker_is_kept :
  isGenerated numericMarkerTask defaultConfig = false
  ∧ summary <$> (mergeExisting [numericMarkerTask] [] defaultConfig).1
    = [(Some "go:TestOld", false)]
  ∧ (mergeExisting [numericMarkerTask] [] defaultConfig).2
    = {| Added := 0; Updated := 0; Removed := 0 |}
  ∧ (clearLoop defaultConfig [numericMarkerTask] [] 0).2 = 0.
Proof. repeat split; vm_compute; reflexivity. Qed.

(** C1, counterexample.  Under the default configuration the second merge
    into [collidingDocument] moves the generated entry to the end and
    reports one removal and one addition. *)
Lemma second_merge_not_noop :
  ¬ second_merge_is_noop defaultConfig collidingDocument sampleGenerated.
Proof.
  unfold second_merge_is_noop. intros (_ & _ & Hremoved).
  vm_compute in Hremoved. discriminate.
Qed.

Example second_merge_reorders :
  summary <$> (mergeExisting collidingDocument sampleGenerated defaultConfig).1
    = [(Some "go:TestAlpha", true); (Some "my-build", false)]
  ∧ summary <$> (mergeExisting
                   (mergeExisting collidingDocument sampleGenerated defaultConfig).1
                   sampleGenerated defaultConfig).1
    = [(Some "my-build", false); (Some "go:TestAlpha", true)].
Proof. split; vm_compute; reflexivity. Qed.

Lemma second_merge_same_document_witness :
  let first := mergeExisting sampleDocument sampleGenerated defaultConfig in
  let second := mergeExisting first.1 sampleGenerated defaultConfig in
  second.1 = first.1
  ∧ Added second.2 = Added first.2
  ∧ Removed second.2 = Added first.2
  ∧ Updated second.2 = Updated first.2.
Proof.
  apply (second_merge_same_document defaultConfig sampleDocument sampleGenerated).
  - repeat constructor. vm_compute. eexists. reflexivity.
  - intros _. split; repeat constructor; vm_compute; try reflexivity.
    discriminate.
Defined.

(** C2, counterexample.  The hand-written entry labelled [go:TestAlpha] is
    not in the merged document: the generated entry took its place. *)
Lemma user_entry_replaced :
  ¬ user_entries_kept defaultConfig collidingDocument sampleGenerated.
Proof.
  unfold user_entries_kept. intros Hsub.
  assert (userTask "go:TestAlpha" "echo"
            ∈ (mergeExisting collidingDocument sampleGenerated defaultConfig).1)
    as Hin.
  { eapply sublist_submseteq, elem_of_submseteq in Hsub; [exact Hsub|].
    vm_compute. left. }
  apply (list_elem_of_fmap_2 summary) in Hin. vm_compute in Hin.
  repeat (apply elem_of_cons in Hin as [Hin|Hin]; [discriminate|]).
  by apply elem_of_nil in Hin.
Qed.

(** C3, counterexample.  Two hand-written entries that share a label
    share it after the merge. *)
Lemma merge_keeps_duplicate_labels :
  ¬ labels_unique (mergeExisting duplicateDocument sampleGenerated defaultConfig).1.
Proof.
  intros Huniq.
  assert (0 = 1) as Heq; [|discriminate].
  apply (Huniq 0 1 (userTask "my-build" "make") (userTask "my-build" "make all")
           "my-build"); vm_compute; reflexivity.
Qed.

Lemma merge_keeps_labels_unique_witness :
  labels_unique (mergeExisting sampleDocument sampleGenerated defaultConfig).1
  ∧ label_unique "go:TestAlpha"
      (mergeExisting duplicateDocument sampleGenerated defaultConfig).1.
Proof.
  split.
  - apply (proj2 (merge_keeps_labels_unique defaultConfig sampleDocument
                    sampleGenerated)).
    intros i j t1 t2 label Hi Hj _ _.
    change (retained defaultConfig sampleDocument)
      with (filter (λ t : task, (PruneGenerated defaultConfig
                                 && isGenerated t defaultConfig) = false)
              sampleDocument) in Hi, Hj.
    apply lookup_lt_Some in Hi, Hj. vm_compute in Hi, Hj. lia.
  - apply (proj1 (merge_keeps_labels_unique defaultConfig duplicateDocument
                    sampleGenerated)).
    intros i j t1 t2 Hi Hj H1 _.
    change (retained defaultConfig duplicateDocument)
      with (filter (λ t : task, (PruneGenerated defaultConfig
                                 && isGenerated t defaultConfig) = false)
              duplicateDocument) in Hi.
    destruct i as [|[|i]]; vm_compute in Hi; try discriminate Hi;
      injection Hi as <-; vm_compute in H1; discriminate H1.
Defined.

(** ** Selector construction *)

Lemma string_app_cons (c : ascii) (a b : string) :
  String c a +:+ b = String c (a +:+ b).
Proof. done. Qed.

Lemma string_app_nil (b : string) : EmptyString +:+ b = b.
Proof. done. Qed.

Lemma Split_nonempty (s : string) (sep : ascii) : Split s sep ≠ [].
Proof.
  destruct s as [|c rest]; simpl; [done|].
  destruct (Ascii.eqb c sep); [done|]. by destruct (Split rest sep).
Qed.

Lemma Join_cons2 (x y : string) (l : list string) (sep : string) :
  Join (x :: y :: l) sep = x +:+ sep +:+ Join (y :: l) sep.
Proof. done. Qed.

(** Joining what was split gives the string back. *)
Lemma Join_singleton (x sep : string) : Join [x] sep = x.
Proof. done. Qed.

#[local] Arguments Join : simpl never.

Lemma Join_Split (s : string) (sep : ascii) :
  Join (Split s sep) (String sep EmptyString) = s.
Proof.
  induction s as [|c rest IH]; simpl; [done|].
  pose proof (Split_nonempty rest sep) as Hrest.
  destruct (Split rest sep) as [|y ys]; [done|].
  destruct (Ascii.eqb_spec c sep) as [->|Hne].
  - rewrite Join_cons2, ?string_app_nil, ?string_app_cons, ?string_app_nil.
    by rewrite IH.
  - destruct ys as [|z zs].
    + rewrite Join_singleton in *. by rewrite IH.
    + rewrite Join_cons2. rewrite Join_cons2 in IH.
      rewrite !string_app_cons, ?string_app_nil.
      rewrite !string_app_cons, ?string_app_nil in IH. by rewrite IH.
Qed.

Lemma Split_inj (s t : string) (sep : ascii) :
  Split s sep = Split t sep → s = t.
Proof.
  intros Heq. rewrite <- (Join_Split s sep), <- (Join_Split t sep).
  by rewrite Heq.
Qed.

Lemma Split_flat (s : string) (sep : ascii) :
  contains_byte sep s = false → Split s sep = [s].
Proof.
  induction s as [|c rest IH]; simpl; [done|].
  intros [Hc Hrest]%orb_false_iff. rewrite Hc. by rewrite IH.
Qed.

Lemma Split_app_sep (a b : string) (sep : ascii) :
  contains_byte sep a = false →
  Split (a +:+ String sep b) sep = a :: Split b sep.
Proof.
  induction a as [|c rest IH]; simpl.
  - intros _. rewrite ?string_app_nil. simpl. by rewrite Ascii.eqb_refl.
  - intros [Hc Hrest]%orb_false_iff. rewrite ?string_app_cons. simpl.
    rewrite Hc. by rewrite IH.
Qed.

(** Splitting what was joined gives the elements back, when none holds
    the separator. *)
Lemma Split_Join (segs : list string) (sep : ascii) :
  segs ≠ [] →
  Forall (λ seg, contains_byte sep seg = false) segs →
  Split (Join segs (String sep EmptyString)) sep = segs.
Proof.
  induction segs as [|x [|y ys] IH]; intros Hne Hall; [done| |].
  - apply Forall_cons in Hall as [Hx _]. by apply Split_flat.
  - apply Forall_cons in Hall as [Hx Hall]. rewrite Join_cons2.
    rewrite ?string_app_cons, ?string_app_nil.
    rewrite Split_app_sep by done. by rewrite IH.
Qed.

Lemma special_not_slash : special "/" = false.
Proof. reflexivity. Qed.

Lemma contains_byte_app (c : ascii) (a b : string) :
  contains_byte c (a +:+ b) = contains_byte c a || contains_byte c b.
Proof.
  induction a as [|x a IH]; [done|].
  rewrite ?string_app_cons. simpl. by rewrite IH, orb_assoc.
Qed.

Lemma QuoteMeta_no_slash (s : string) :
  contains_byte "/" s = false → contains_byte "/" (QuoteMeta s) = false.
Proof.
  induction s as [|b rest IH]; simpl; [done|].
  intros [Hb Hrest]%orb_false_iff.
  destruct (special b); simpl; rewrite Hb, IH; done.
Qed.

Lemma anchored_no_slash (seg : string) :
  contains_byte "/" seg = false → contains_byte "/" (anchored seg) = false.
Proof.
  intros Hseg. unfold anchored. rewrite !contains_byte_app.
  by rewrite QuoteMeta_no_slash.
Qed.

Lemma Split_no_sep (s : string) (sep : ascii) :
  Forall (λ seg, contains_byte sep seg = false) (Split s sep).
Proof.
  induction s as [|c rest IH]; simpl; [by repeat constructor|].
  destruct (Ascii.eqb c sep) eqn:Hc; [by constructor|].
  destruct (Split rest sep) as [|seg segs].
  - constructor; [|constructor]. simpl. by rewrite Hc.
  - apply Forall_cons in IH as [Hseg Hsegs]. constructor; [|done].
    simpl. by rewrite Hc.
Qed.

Lemma not_special_ordinary (b : ascii) :
  special b = false → Ascii.eqb b "$" = false ∧ Ascii.eqb b "\" = false.
Proof.
  intros Hb. split.
  - destruct (Ascii.eqb_spec b "$") as [->|]; [discriminate|done].
  - destruct (Ascii.eqb_spec b "\") as [->|]; [discriminate|done].
Qed.

(** The quoted segment between the anchors reads back as the segment. *)
Lemma anchored_body_QuoteMeta (seg : string) :
  anchored_body (QuoteMeta seg +:+ "$") = Some seg.
Proof.
  induction seg as [|b rest IH]; [done|].
  simpl. destruct (special b) eqn:Hb.
  - rewrite ?string_app_cons. simpl. rewrite Hb. by rewrite IH.
  - rewrite ?string_app_cons. simpl.
    destruct (not_special_ordinary b Hb) as [-> ->].
    rewrite Hb. by rewrite IH.
Qed.

Lemma anchored_literal_anchored (seg : string) :
  anchored_literal (anchored seg) = Some seg.
Proof.
  unfold anchored. rewrite ?string_app_cons, ?string_app_nil. simpl.
  apply anchored_body_QuoteMeta.
Qed.

Lemma mapM_anchored_literal (segs : list string) :
  mapM anchored_literal (anchored <$> segs) = Some segs.
Proof.
  apply mapM_Some_2. induction segs as [|seg segs IH]; constructor; [|done].
  apply anchored_literal_anchored.
Qed.

Lemma runPatternForTestName_segments (testName : string) :
  runPatternForTestName testName =
  Join (anchored <$> Split testName "/"%char) "/".
Proof.
  unfold runPatternForTestName.
  destruct (String.eqb_spec testName EmptyString) as [->|Hne]; done.
Qed.

(** The segments of a name are the substrings between its slashes:
    cutting at the slashes is the inverse of joining with slashes. *)
Lemma Split_segments (testName : string) (segments : list string) :
  Split testName "/"%char = segments ↔
  segments ≠ []
  ∧ Forall (λ segment, contains_byte "/" segment = false) segments
  ∧ testName = Join segments "/".
Proof.
  split.
  - intros <-. split; [apply Split_nonempty|]. split; [apply Split_no_sep|].
    symmetry. apply (Join_Split testName "/").
  - intros (Hne & Hflat & ->). by apply (Split_Join segments "/").
Qed.

(** C6.  The run-selector of a test name is its slash-separated segments,
    each quoted and anchored on its own, joined by slashes, where the
    segments of [s1/.../sn] are [s1], ..., [sn]; for a name without a
    slash it is the one quoted, anchored name.  Read by the synthetic
    matcher, the selector matches the name itself and no other name. *)
Theorem run_selector_is_exact (testName : string) (segments : list string) :
  runPatternForTestName testName =
    Join ((λ segment, "^" +:+ QuoteMeta segment +:+ "$")
            <$> Split testName "/"%char) "/"
  ∧ (Split testName "/"%char = segments ↔
     segments ≠ []
     ∧ Forall (λ segment, contains_byte "/" segment = false) segments
     ∧ testName = Join segments "/")
  ∧ (segments ≠ [] →
     Forall (λ segment, contains_byte "/" segment = false) segments →
     runPatternForTestName (Join segments "/") =
       Join ((λ segment, "^" +:+ QuoteMeta segment +:+ "$") <$> segments) "/")
  ∧ (contains_byte "/" testName = false →
     runPatternForTestName testName = "^" +:+ QuoteMeta testName +:+ "$")
  ∧ (∀ candidate : string,
       selector_matches (runPatternForTestName testName) candidate
       = Some (bool_decide (candidate = testName)))
  ∧ (segments ≠ [] →
     Forall (λ segment, contains_byte "/" segment = false) segments →
     ∀ candidates : list string,
       candidates ≠ [] →
       Forall (λ segment, contains_byte "/" segment = false) candidates →
       selector_matches (runPatternForTestName (Join segments "/"))
         (Join candidates "/")
       = Some (bool_decide (candidates = segments))).
Proof.
  assert (∀ name candidate : string,
            selector_matches (runPatternForTestName name) candidate
            = Some (bool_decide (candidate = name))) as Hmatch;
    [|split; [apply runPatternForTestName_segments|];
      split; [apply Split_segments|]; split; [|split; [|split; [done|]]]].
  4:{ intros Hne Hflat candidates Hne' Hflat'. rewrite Hmatch. f_equal.
      apply bool_decide_ext. split; [|by intros ->].
      intros Heq. apply (f_equal (λ s, Split s "/"%char)) in Heq.
      by rewrite !(Split_Join _ "/") in Heq. }
  - intros name candidate. unfold selector_matches.
    rewrite runPatternForTestName_segments.
    rewrite Split_Join.
    + rewrite mapM_anchored_literal. simpl. f_equal.
      apply bool_decide_ext. split; [|by intros ->].
      intros Heq. symmetry. by eapply Split_inj.
    + pose proof (Split_nonempty name "/"). by destruct (Split name "/").
    + apply Forall_fmap. eapply Forall_impl; [apply Split_no_sep|].
      intros seg. apply anchored_no_slash.
  - intros Hne Hflat. rewrite runPatternForTestName_segments.
    by rewrite (Split_Join segments "/").
  - intros Hflat. rewrite runPatternForTestName_segments.
    by rewrite Split_flat.
Qed.

(** The selector example of the specification, from the theorem: the
    segments of [Outer/Inner with space] are [Outer] and
    [Inner with space]. *)
Lemma run_selector_is_exact_witness :
  Split "Outer/Inner with space" "/"%char = ["Outer"; "Inner with space"]
  ∧ runPatternForTestName "Outer/Inner with space"
    = "^Outer$/^Inner with space$"
  ∧ selector_matches (runPatternForTestName "Outer/Inner with space")
      "Outer/Inner with space" = Some true
  ∧ selector_matches (runPatternForTestName "Outer/Inner with space")
      "Outer/Inner with spacemore" = Some false
  ∧ selector_matches (runPatternForTestName "Outer/Inner with space")
      "XOuter/Inner with space" = Some false.
Proof.
  destruct (run_selector_is_exact "Outer/Inner with space"
              ["Outer"; "Inner with space"])
    as (_ & Hsplit & Hjoin & _ & Hmatch & _).
  split; [apply Hsplit; repeat split; [discriminate|by repeat constructor]|].
  split; [apply Hjoin; [discriminate|by repeat constructor]|].
  rewrite !Hmatch. repeat split.
Defined.

(** The selector example of the specification. *)
Example run_selector_example :
  runPatternForTestName "Outer/Inner with space" = "^Outer$/^Inner with space$"
  ∧ selector_matches (runPatternForTestName "Outer/Inner with space")
      "Outer/Inner with space" = Some true
  ∧ selector_matches (runPatternForTestName "Outer/Inner with space")
      "Outer/Inner with spacemore" = Some false
  ∧ selector_matches (runPatternForTestName "Outer/Inner with space")
      "XOuter/Inner with space" = Some false
  ∧ selector_matches (runPatternForTestName "Outer/Inner with space")
      "Outer" = Some false.
Proof. repeat split; vm_compute; reflexivity. Qed.

Example run_selector_quotes_metacharacters :
  runPatternForTestName "TestA/a.b (c)" = "^TestA$/^a\.b \(c\)$"
  ∧ runPatternForTestName EmptyString = "^$".
Proof. split; reflexivity. Qed.

(** ** Sorting and sets of names *)

Lemma sort_Strings_Permutation (l : list string) : sort_Strings l ≡ₚ l.
Proof. apply merge_sort_Permutation. Qed.

Lemma sort_Strings_Sorted (l : list string) : Sorted String.le (sort_Strings l).
Proof. apply Sorted_merge_sort, _. Qed.

Lemma elem_of_sort_Strings (x : string) (l : list string) :
  x ∈ sort_Strings l ↔ x ∈ l.
Proof. by rewrite sort_Strings_Permutation. Qed.

(** The sorted list does not depend on the order of the input, nor on
    the algorithm that sorts. *)
Lemma sort_Strings_unique (l sorted : list string) :
  Sorted String.le sorted → sorted ≡ₚ l → sort_Strings l = sorted.
Proof.
  intros Hsorted Hperm. apply (Sorted_unique String.le).
  - apply sort_Strings_Sorted.
  - done.
  - by rewrite sort_Strings_Permutation.
Qed.

Lemma elem_of_intersectTests (name : string) fileTests (listed : gset string) :
  name ∈ intersectTests fileTests listed ↔ name ∈ fileTests ∧ name ∈ listed.
Proof.
  induction fileTests as [|t rest IH]; simpl.
  - split; [by intros ?%elem_of_nil|by intros [?%elem_of_nil _]].
  - case_bool_decide as Ht; rewrite ?elem_of_cons, IH; naive_solver.
Qed.

Lemma mergeUnique_loop_spec (names : list string) (seen : gset string)
    (merged : list string) :
  (∀ n : string, n ∈ seen ↔ n ∈ merged) →
  let '(seen', merged') := mergeUnique_loop names seen merged in
  (∀ n : string, n ∈ seen' ↔ n ∈ merged')
  ∧ (∀ n : string, n ∈ merged' ↔ n ∈ merged ∨ n ∈ names).
Proof.
  revert seen merged. induction names as [|t rest IH]; intros seen merged Hseen.
  - simpl. split; [done|]. intros n. rewrite elem_of_nil. naive_solver.
  - simpl. case_bool_decide as Ht.
    + specialize (IH seen merged Hseen).
      destruct (mergeUnique_loop rest seen merged) as [seen' merged'].
      destruct IH as [IH1 IH2]. split; [done|]. intros n.
      rewrite IH2, elem_of_cons. split; [naive_solver|].
      intros [?|[->|?]]; [by left|left; by apply Hseen|by right].
    + assert (∀ n : string, n ∈ {[t]} ∪ seen ↔ n ∈ merged ++ [t]) as Hseen'.
      { intros n. rewrite elem_of_union, elem_of_singleton, elem_of_app.
        rewrite list_elem_of_singleton, Hseen. naive_solver. }
      specialize (IH _ _ Hseen').
      destruct (mergeUnique_loop rest ({[t]} ∪ seen) (merged ++ [t]))
        as [seen' merged'].
      destruct IH as [IH1 IH2]. split; [done|]. intros n.
      rewrite IH2, elem_of_app, list_elem_of_singleton, elem_of_cons.
      naive_solver.
Qed.

Lemma elem_of_mergeUniqueTests (name : string) (base extra : list string) :
  name ∈ mergeUniqueTests base extra ↔ name ∈ base ∨ name ∈ extra.
Proof.
  unfold mergeUniqueTests.
  pose proof (mergeUnique_loop_spec base ∅ []) as Hbase.
  destruct (mergeUnique_loop base ∅ []) as [seen merged].
  destruct Hbase as [Hseen Hmerged].
  { intros n. rewrite elem_of_nil. set_solver. }
  pose proof (mergeUnique_loop_spec extra seen merged Hseen) as Hextra.
  destruct (mergeUnique_loop extra seen merged) as [seen' merged'].
  destruct Hextra as [_ Hmerged']. rewrite Hmerged', Hmerged, elem_of_nil.
  naive_solver.
Qed.

(** ** Subtest discovery *)

Section Bridge.
Context {json : JSON} {unicode : Unicode} {exec : Exec} {time : Time}.

Lemma parseRunEvents_loop_spec (lines : list string) (seen : gset string)
    (name : string) :
  name ∈ parseRunEvents_loop lines seen ↔
  name ∈ seen ∨ ∃ text : string, text ∈ lines ∧ reports_run text name.
Proof.
  revert seen. induction lines as [|text rest IH]; intros seen; simpl.
  - split; [by left|]. intros [?|(text & []%elem_of_nil & _)]. done.
  - assert (∀ P : Prop,
             ¬ reports_run text name →
             (P ∨ (∃ t : string, t ∈ rest ∧ reports_run t name)) ↔
             (P ∨ ∃ t : string, t ∈ text :: rest ∧ reports_run t name))
      as Hskip.
    { intros P Hno. split.
      - intros [?|(t & Ht & Hr)]; [by left|right]. exists t.
        split; [by right|done].
      - intros [?|(t & Ht & Hr)]; [by left|].
        apply elem_of_cons in Ht as [->|Ht]; [done|]. right. by exists t. }
    destruct (String.eqb_spec (strings_TrimSpace text) EmptyString) as [Hblank|Hline].
    { rewrite IH. apply Hskip. by intros [? _]. }
    destruct (json_Unmarshal_event (strings_TrimSpace text)) as [ev|] eqn:Hev.
    2:{ rewrite IH. apply Hskip. intros (_ & ev & Hev' & _). congruence. }
    destruct (String.eqb_spec (Action ev) "run") as [Hrun|Hother]; simpl.
    2:{ rewrite IH. apply Hskip. intros (_ & ev' & Hev' & Hact & _). congruence. }
    destruct (String.eqb_spec (Test ev) EmptyString) as [Hempty|Hnamed]; simpl.
    { rewrite IH. apply Hskip. intros (_ & ev' & Hev' & _ & Htest & Hne).
      congruence. }
    rewrite IH, elem_of_union, elem_of_singleton. split.
    + intros [[->|?]|(t & Ht & Hr)].
      * right. exists text. split; [by left|]. split; [done|]. by exists ev.
      * by left.
      * right. exists t. split; [by right|done].
    + intros [?|(t & Ht & Hr)]; [by left; right|].
      apply elem_of_cons in Ht as [->|Ht].
      * left. left. destruct Hr as (_ & ev' & Hev' & _ & Htest & _). congruence.
      * right. by exists t.
Qed.

(** When the scan succeeds, the parsed set is the sorted, duplicate-free
    list of the names that a line reports as run. *)
Lemma parseRunEvents_Ok (output : list ascii) (discovered : list string) :
  parseRunEventsFromGoTestJSON output = Ok discovered →
  (scanLines output).2 = false
  ∧ Sorted String.le discovered
  ∧ NoDup discovered
  ∧ ∀ name : string,
      name ∈ discovered ↔
      ∃ text : string, text ∈ (scanLines output).1 ∧ reports_run text name.
Proof.
  unfold parseRunEventsFromGoTestJSON.
  destruct (scanLines output) as [lines scanErr]. simpl.
  destruct scanErr; [discriminate|]. intros [= <-]. split; [done|].
  split; [apply sort_Strings_Sorted|]. split.
  - rewrite sort_Strings_Permutation. apply NoDup_elements.
  - intros name. rewrite elem_of_sort_Strings, elem_of_elements.
    rewrite parseRunEvents_loop_spec. split; [|by right].
    by intros [?%elem_of_empty|?].
Qed.

Lemma parseRunEvents_Err (output : list ascii) (e : error) :
  parseRunEventsFromGoTestJSON output = Err e →
  (scanLines output).2 = true ∧ e = ErrScanner.
Proof.
  unfold parseRunEventsFromGoTestJSON.
  destruct (scanLines output) as [lines scanErr]. simpl.
  destruct scanErr; [|discriminate]. by intros [= <-].
Qed.

(** The outcome of a discovery run, read off the lines of the event
    stream.  When a line does not fit the scanner's buffer, discovery
    fails with the scanner's error, whatever the stream reports and
    whatever the exit status.  Otherwise, when some line reports a test
    as run, discovery returns the reported names, sorted and free of
    duplicates, whatever the exit status; and when no line does, it fails
    with the discovery error if the run exited with an error and returns
    the empty list if not. *)
Lemma discovery_outcome
    (goBinary packageDir : string) (topLevelTests : list string)
    (timeout : Z) (extraGoTestArgs : list string) :
  topLevelTests ≠ [] →
  let run := exec_CombinedOutput goBinary
               (discoverSubtestsArgs topLevelTests timeout extraGoTestArgs)
               packageDir in
  let outcome := discoverSubtestsWithGo goBinary packageDir topLevelTests
                   timeout extraGoTestArgs in
  ((scanLines run.1).2 = true → outcome = Err ErrScanner)
  ∧ ((scanLines run.1).2 = false →
     (∀ text name : string,
        text ∈ (scanLines run.1).1 → reports_run text name →
        ∃ discovered : list string,
          outcome = Ok discovered
          ∧ name ∈ discovered
          ∧ Sorted String.le discovered
          ∧ NoDup discovered
          ∧ ∀ other : string,
              other ∈ discovered ↔
              ∃ line : string,
                line ∈ (scanLines run.1).1 ∧ reports_run line other)
     ∧ ((∀ text name : string,
           text ∈ (scanLines run.1).1 → ¬ reports_run text name) →
        outcome = match run.2 with
                  | Some exit =>
                    Err (ErrDiscoveryFailed packageDir exit
                           (bytes_TrimSpace run.1))
                  | None => Ok []
                  end)).
Proof.
  intros Hne run outcome. subst outcome.
  unfold discoverSubtestsWithGo. fold run.
  destruct topLevelTests as [|t ts]; [done|].
  destruct run as [out err]. simpl.
  destruct (parseRunEventsFromGoTestJSON out) as [discovered|e] eqn:Hparse.
  - apply parseRunEvents_Ok in Hparse as (Hscan & Hsorted & Hnodup & Hnames).
    split; [by rewrite Hscan|]. intros _. split.
    + intros text name Htext Hrun.
      assert (name ∈ discovered) as Hin by (apply Hnames; by exists text).
      exists discovered. split; [|done].
      destruct discovered as [|d ds]; [by apply elem_of_nil in Hin|].
      by destruct err.
    + intros Hnone.
      destruct discovered as [|d ds]; [by destruct err|].
      destruct (proj1 (Hnames d)) as (text & Htext & Hrun); [by left|].
      by destruct (Hnone text d).
  - apply parseRunEvents_Err in Hparse as [Hscan ->].
    split; [done|]. by rewrite Hscan.
Qed.

(** C5, as amended.  Without dynamic discovery the selected names are
    exactly the names of the file that the toolchain lists.  With dynamic
    discovery they are those names together with the names that the
    discovery run returns, whether or not these are in the file or in the
    toolchain's list.  Either way the selection is sorted. *)
Theorem selected_names_characterized (cfg : Config) (discoverSubtests : bool)
    (subtestTimeout packageDir : string) (allExtraGoTestArgs : list string)
    (testsInFile : list string) (testsListedByGo : gset string)
    (selected : list string) :
  selectedTests cfg discoverSubtests subtestTimeout packageDir
    allExtraGoTestArgs testsInFile testsListedByGo = Ok selected →
  Sorted String.le selected
  ∧ ∀ name : string,
      name ∈ selected ↔
      (name ∈ testsInFile ∧ name ∈ testsListedByGo)
      ∨ (discoverSubtests = true
         ∧ ∃ (timeout : Z) (discovered : list string),
             resolveSubtestTimeout (SubtestTimeout cfg) subtestTimeout = Ok timeout
             ∧ discoverSubtestsWithGo (GoBinary cfg) packageDir
                 (runnableTests testsInFile testsListedByGo) timeout
                 allExtraGoTestArgs = Ok discovered
             ∧ name ∈ discovered).
Proof.
  unfold selectedTests. destruct discoverSubtests.
  - destruct (resolveSubtestTimeout _ _) as [timeout|e]; [|discriminate].
    destruct (discoverSubtestsWithGo _ _ _ _ _) as [discovered|e] eqn:Hdisc;
      [|discriminate].
    intros [= <-]. split; [apply sort_Strings_Sorted|]. intros name.
    rewrite elem_of_sort_Strings, elem_of_mergeUniqueTests.
    unfold runnableTests at 1.
    rewrite elem_of_sort_Strings, elem_of_intersectTests. split.
    + intros [?|?]; [by left|right]. split; [done|]. by exists timeout, discovered.
    + intros [?|(_ & timeout' & discovered' & Ht & Hd & ?)]; [by left|].
      injection Ht as <-. rewrite Hdisc in Hd. injection Hd as <-. by right.
  - intros [= <-]. split; [apply sort_Strings_Sorted|]. intros name.
    unfold runnableTests.
    rewrite elem_of_sort_Strings, elem_of_intersectTests. split; [by left|].
    by intros [?|[[=] _]].
Qed.

End Bridge.

(** Scenario 5: the fail event and the malformed line are ignored. *)
Example parse_sample_event_stream :
  @parseRunEventsFromGoTestJSON sampleJSON sampleUnicode
    (list_ascii_of_string sampleEventStream)
  = Ok ["TestAlpha"; "TestAlpha/case1"].
Proof. vm_compute. reflexivity. Qed.

(** A line that does not fit the scanner's buffer stops the scan; the
    events before it are lost with it. *)
Example parse_line_too_long :
  @parseRunEventsFromGoTestJSON sampleJSON sampleUnicode
    (list_ascii_of_string (eventLine "run" "TestAlpha" +:+ newline)
     ++ replicate MaxScanTokenSize "x"%char)
  = Err ErrScanner.
Proof. vm_compute. reflexivity. Qed.

(** C8.  A stream that reports [TestAlpha] as run and then holds a line
    that does not fit the scanner's buffer: discovery fails with the
    scanner's error, with a clean exit as with a failing one, although a
    test name was discovered from the stream. *)
Theorem discovery_fails_on_long_line :
  (∃ text : string,
     text ∈ (scanLines (list_ascii_of_string longLineStream)).1
     ∧ @reports_run sampleJSON sampleUnicode text "TestAlpha")
  ∧ @discoverSubtestsWithGo sampleJSON sampleUnicode
      (scriptedExec longLineStream None) sampleTime
      "go" "." ["TestAlpha"] 30000000000 []
    = Err ErrScanner
  ∧ @discoverSubtestsWithGo sampleJSON sampleUnicode
      (scriptedExec longLineStream (Some "exit status 1")) sampleTime
      "go" "." ["TestAlpha"] 30000000000 []
    = Err ErrScanner.
Proof.
  split; [|split; vm_compute; reflexivity].
  exists (eventLine "run" "TestAlpha"). split.
  - match goal with
    | |- context [scanLines ?out] =>
      let lines := eval vm_compute in (scanLines out) in
      change (scanLines out) with lines
    end.
    simpl. apply elem_of_cons. left. vm_compute. reflexivity.
  - split; [vm_compute; discriminate|].
    exists {| Action := "run"; Test := "TestAlpha" |}.
    repeat split; try (vm_compute; reflexivity); discriminate.
Qed.

(** The same stream without the long line: the name is returned, with a
    failing exit too. *)
Example discovery_tolerates_failing_exit :
  @discoverSubtestsWithGo sampleJSON sampleUnicode
    (scriptedExec sampleEventStream (Some "exit status 1")) sampleTime
    "go" "." ["TestAlpha"] 30000000000 []
  = Ok ["TestAlpha"; "TestAlpha/case1"].
Proof. vm_compute. reflexivity. Qed.

(** A failing run that reports no test is the discovery error. *)
Example discovery_error_on_empty :
  @discoverSubtestsWithGo sampleJSON sampleUnicode
    (scriptedExec "build failed" (Some "exit status 2")) sampleTime
    "go" "." ["TestAlpha"] 30000000000 []
  = Err (ErrDiscoveryFailed "." "exit status 2" (list_ascii_of_string "build failed")).
Proof. vm_compute. reflexivity. Qed.

(** Scenario 1: a test of the file that the toolchain does not list is not
    selected. *)
Example select_listed_only :
  @selectedTests sampleJSON sampleUnicode (scriptedExec EmptyString None) sampleTime
    defaultConfig false EmptyString "." [] ["TestAlpha"; "TestBeta"] {["TestAlpha"]}
  = Ok ["TestAlpha"].
Proof. vm_compute. reflexivity. Qed.

(** C5, counterexample.  With dynamic discovery the subtest
    [TestAlpha/case1] is selected; it is neither a name of the file nor a
    name the toolchain lists. *)
Lemma selection_includes_discovered_subtest :
  ¬ selection_within_static_and_listed
      (@selectedTests sampleJSON sampleUnicode
         (scriptedExec sampleEventStream None) sampleTime
         defaultConfig true EmptyString "." [] ["TestAlpha"; "TestBeta"] {["TestAlpha"]})
      ["TestAlpha"; "TestBeta"] {["TestAlpha"]}.
Proof.
  intros Hwithin.
  destruct (Hwithin ["TestAlpha"; "TestAlpha/case1"]) as [Hin _];
    [vm_compute; reflexivity|].
  destruct (Hin "TestAlpha/case1") as [Hfile|Hlisted].
  - right. left.
  - repeat (apply elem_of_cons in Hfile as [Hfile|Hfile]; [discriminate|]).
    by apply elem_of_nil in Hfile.
  - apply elem_of_singleton in Hlisted. discriminate.
Qed.

Lemma selected_names_characterized_witness :
  @selectedTests sampleJSON sampleUnicode
    (scriptedExec sampleEventStream None) sampleTime
    defaultConfig true EmptyString "." [] ["TestAlpha"; "TestBeta"] {["TestAlpha"]}
  = Ok ["TestAlpha"; "TestAlpha/case1"]
  ∧ Sorted String.le ["TestAlpha"; "TestAlpha/case1"]
  ∧ "TestAlpha/case1" ∈ ["TestAlpha"; "TestAlpha/case1"].
Proof.
  assert (@selectedTests sampleJSON sampleUnicode
            (scriptedExec sampleEventStream None) sampleTime
            defaultConfig true EmptyString "." [] ["TestAlpha"; "TestBeta"]
            {["TestAlpha"]}
          = Ok ["TestAlpha"; "TestAlpha/case1"]) as Hselected.
  { vm_compute. reflexivity. }
  split; [exact Hselected|].
  destruct (@selected_names_characterized sampleJSON sampleUnicode
              (scriptedExec sampleEventStream None) sampleTime
              defaultConfig true EmptyString "." [] ["TestAlpha"; "TestBeta"]
              {["TestAlpha"]} ["TestAlpha"; "TestAlpha/case1"] Hselected)
    as [Hsorted Hnames].
  split; [exact Hsorted|]. apply Hnames. right. split; [reflexivity|].
  exists 30000000000%Z, ["TestAlpha"; "TestAlpha/case1"].
  split; [vm_compute; reflexivity|]. split; [vm_compute; reflexivity|].
  right. left.
Defined.

(** ** The relaxed-document parser *)

(** *** String bodies *)

(** Induction along the bytes and escapes of a string body. *)
Lemma str_body_ind (P : list ascii → Prop) :
  P [] →
  (∀ (c : ascii) (body : list ascii),
     Ascii.eqb c "\" = false → Ascii.eqb c QUOTE = false →
     P body → P (c :: body)) →
  (∀ (c : ascii) (body : list ascii), P body → P ("\"%char :: c :: body)) →
  ∀ body : list ascii, str_body body = true → P body.
Proof.
  intros Hnil Hplain Hesc.
  assert (∀ (n : nat) (body : list ascii),
            (length body ≤ n)%nat → str_body body = true → P body) as Hall.
  { induction n as [|n IH]; intros [|c body] Hlen Hbody; simpl in *;
      try done; try lia.
    destruct (Ascii.eqb_spec c "\") as [->|Hc].
    - destruct body as [|d body]; [done|]. apply Hesc, IH; [simpl in *; lia|done].
    - destruct (Ascii.eqb c QUOTE) eqn:Hq; [done|].
      apply Hplain; [by apply Ascii.eqb_neq|done|]. apply IH; [lia|done]. }
  intros body. by apply (Hall (length body)).
Qed.

(** *** Comments *)

Lemma scan_string_body (body rest out : list ascii) :
  str_body body = true →
  stripJSONComments_loop (body ++ QUOTE :: rest) scanString out =
  stripJSONComments_loop rest scanCode (out ++ body ++ [QUOTE]).
Proof.
  intros Hbody. revert out. revert body Hbody.
  apply (str_body_ind (λ body, ∀ out,
    stripJSONComments_loop (body ++ QUOTE :: rest) scanString out =
    stripJSONComments_loop rest scanCode (out ++ body ++ [QUOTE]))).
  - done.
  - intros c body Hc Hq IH out. simpl. rewrite Hc, Hq. simpl in IH.
    rewrite IH. by rewrite <- app_assoc.
  - intros c body IH out. simpl. simpl in IH. rewrite IH.
    by rewrite <- !app_assoc.
Qed.

Lemma scan_string (body rest out : list ascii) :
  str_body body = true →
  stripJSONComments_loop (render_chunk (StrLit body) ++ rest) scanCode out =
  stripJSONComments_loop rest scanCode (out ++ render_chunk (StrLit body)).
Proof.
  intros Hbody. simpl. rewrite <- app_assoc. simpl.
  change {| inString := true; inLineComment := false;
            inBlockComment := false; escape := false |} with scanString.
  rewrite scan_string_body by done. by rewrite <- app_assoc.
Qed.

Lemma scan_plain (c : ascii) (rest out : list ascii) :
  Ascii.eqb c QUOTE = false → opens_no_comment c rest = true →
  stripJSONComments_loop (render_chunk (Plain c) ++ rest) scanCode out =
  stripJSONComments_loop rest scanCode (out ++ [c]).
Proof.
  intros Hq Hopen. simpl. rewrite Hq. unfold opens_no_comment in Hopen.
  destruct rest as [|next rest]; [done|].
  destruct (Ascii.eqb c "/"); [|done]. simpl.
  apply negb_true_iff, orb_false_iff in Hopen as [-> ->]. done.
Qed.

Lemma scan_line_text (text rest out : list ascii) :
  no_newline text = true →
  stripJSONComments_loop (text ++ rest) scanLine out =
  stripJSONComments_loop rest scanLine out.
Proof.
  induction text as [|c text IH]; [done|]. simpl.
  intros [Hc Htext]%andb_true_iff. apply negb_true_iff in Hc.
  rewrite Hc. by apply IH.
Qed.

Lemma scan_line_comment (text rest out : list ascii) :
  no_newline text = true →
  stripJSONComments_loop (render_chunk (LineComment text) ++ rest) scanCode out =
  stripJSONComments_loop rest scanCode (out ++ [LF]).
Proof.
  intros Htext. simpl. rewrite <- app_assoc.
  change {| inString := false; inLineComment := true;
            inBlockComment := false; escape := false |} with scanLine.
  by rewrite scan_line_text.
Qed.

Lemma scan_tail_comment (text out : list ascii) :
  no_newline text = true →
  stripJSONComments_loop (render_chunk (TailComment text)) scanCode out =
  (scanLine, out).
Proof.
  intros Htext. simpl.
  change {| inString := false; inLineComment := true;
            inBlockComment := false; escape := false |} with scanLine.
  rewrite <- (app_nil_r text). by rewrite scan_line_text.
Qed.

Lemma scan_block_text (text rest out : list ascii) :
  no_block_end text = true →
  stripJSONComments_loop (text ++ "*"%char :: "/"%char :: rest) scanBlock out =
  stripJSONComments_loop rest scanCode out.
Proof.
  induction text as [|c text IH]; [done|].
  intros Htext. destruct text as [|next text].
  - simpl. rewrite andb_false_r. by simpl.
  - simpl in Htext.
    change ((c :: next :: text) ++ "*"%char :: "/"%char :: rest)
      with (c :: next :: (text ++ "*"%char :: "/"%char :: rest)).
    unfold stripJSONComments_loop at 1; fold stripJSONComments_loop.
    simpl inLineComment. simpl inBlockComment. cbv iota.
    destruct (Ascii.eqb c "*" && Ascii.eqb next "/"); [done|].
    by apply IH.
Qed.

Lemma scan_block_comment (text rest out : list ascii) :
  no_block_end text = true →
  stripJSONComments_loop (render_chunk (BlockComment text) ++ rest) scanCode out =
  stripJSONComments_loop rest scanCode out.
Proof.
  intros Htext. simpl. rewrite <- app_assoc. simpl app.
  change {| inString := false; inLineComment := false;
            inBlockComment := true; escape := false |} with scanBlock.
  by rewrite scan_block_text.
Qed.

(** The first pass on a well-formed document: the comments go, a line
    comment leaves its newline, and the scan ends outside a string and
    outside a block comment. *)
Lemma stripJSONComments_loop_chunks (ks : list chunk) (out : list ascii) :
  wf_chunks ks = true →
  ∃ st : commentScan,
    stripJSONComments_loop (render ks) scanCode out =
    (st, out ++ render (concat (map uncomment ks)))
    ∧ inBlockComment st = false ∧ inString st = false.
Proof.
  revert out. induction ks as [|k ks IH]; intros out Hwf.
  - exists scanCode. simpl. by rewrite app_nil_r.
  - unfold render in *. simpl map. simpl concat.
    destruct k as [c|body|text|text|text]; simpl in Hwf.
    + apply andb_true_iff in Hwf as [[Hq%negb_true_iff Hopen]%andb_true_iff Hwf].
      rewrite scan_plain by done.
      destruct (IH (out ++ [c]) Hwf) as (st & -> & Hst). exists st.
      split; [|done]. simpl. by rewrite <- app_assoc.
    + apply andb_true_iff in Hwf as [Hbody Hwf]. rewrite scan_string by done.
      destruct (IH (out ++ render_chunk (StrLit body)) Hwf) as (st & -> & Hst).
      exists st. split; [|done]. simpl. rewrite <- !app_assoc.
      do 2 f_equal. simpl. by rewrite <- app_assoc.
    + apply andb_true_iff in Hwf as [Htext Hwf].
      rewrite scan_line_comment by done.
      destruct (IH (out ++ [LF]) Hwf) as (st & -> & Hst). exists st.
      split; [|done]. simpl. by rewrite <- app_assoc.
    + apply andb_true_iff in Hwf as [Htext Hwf].
      rewrite scan_block_comment by done.
      destruct (IH out Hwf) as (st & -> & Hst). by exists st.
    + apply andb_true_iff in Hwf as [Htext Hwf].
      destruct ks as [|k' ks]; [|done]. simpl. rewrite app_nil_r.
      exists scanLine. split; [|done].
      pose proof (scan_tail_comment text out Htext) as Htail. simpl in Htail.
      rewrite Htail. by rewrite app_nil_r.
Qed.

Lemma stripJSONComments_chunks (ks : list chunk) :
  wf_chunks ks = true →
  stripJSONComments (render ks) = Ok (render (concat (map uncomment ks))).
Proof.
  intros Hwf. unfold stripJSONComments.
  destruct (stripJSONComments_loop_chunks ks [] Hwf) as (st & -> & -> & ->).
  done.
Qed.

(** *** Trailing commas *)

Lemma commas_string_body (body rest out : list ascii) :
  str_body body = true →
  stripTrailingCommas_loop (body ++ QUOTE :: rest) true false out =
  stripTrailingCommas_loop rest false false (out ++ body ++ [QUOTE]).
Proof.
  intros Hbody. revert out. revert body Hbody.
  apply (str_body_ind (λ body, ∀ out,
    stripTrailingCommas_loop (body ++ QUOTE :: rest) true false out =
    stripTrailingCommas_loop rest false false (out ++ body ++ [QUOTE]))).
  - done.
  - intros c body Hc Hq IH out. simpl. rewrite Hc, Hq. simpl in IH.
    rewrite IH. by rewrite <- app_assoc.
  - intros c body IH out. simpl. simpl in IH. rewrite IH.
    by rewrite <- !app_assoc.
Qed.

Lemma comment_free_cons (k : chunk) (ks : list chunk) :
  forallb comment_free (k :: ks) = true →
  comment_free k = true ∧ forallb comment_free ks = true.
Proof. simpl. by intros ?%andb_true_iff. Qed.

(** The look-ahead of the loop, read on the chunks. *)
Lemma closesAfterWhitespace_render (ks : list chunk) :
  forallb comment_free ks = true →
  closesAfterWhitespace (render ks) = closes ks.
Proof.
  induction ks as [|k ks IH]; [done|].
  intros [Hk Hks]%comment_free_cons.
  destruct k as [c|body| | |]; try done.
  unfold closesAfterWhitespace in *. unfold render in *. simpl.
  destruct (isJSONWhitespace c); [by apply IH|done].
Qed.

Lemma stripTrailingCommas_loop_chunks (ks : list chunk) (out : list ascii) :
  forallb comment_free ks = true →
  stripTrailingCommas_loop (render ks) false false out =
  out ++ render (drop_trailing_commas ks).
Proof.
  revert out. induction ks as [|k ks IH]; intros out Hfree.
  - simpl. by rewrite app_nil_r.
  - apply comment_free_cons in Hfree as [Hk Hks].
    destruct k as [c|body| | |]; try done.
    + simpl in Hk. apply negb_true_iff in Hk.
      change (render (Plain c :: ks)) with (c :: render ks). simpl.
      rewrite Hk, closesAfterWhitespace_render by done.
      destruct (Ascii.eqb c "," && closes ks); [by apply IH|].
      rewrite IH by done. change (render (Plain c :: drop_trailing_commas ks))
        with (c :: render (drop_trailing_commas ks)).
      by rewrite <- app_assoc.
    + simpl in Hk.
      change (render (StrLit body :: ks))
        with (QUOTE :: (body ++ [QUOTE]) ++ render ks).
      rewrite <- app_assoc. simpl. rewrite commas_string_body by done.
      rewrite IH by done.
      change (render (StrLit body :: drop_trailing_commas ks))
        with (QUOTE :: (body ++ [QUOTE]) ++ render (drop_trailing_commas ks)).
      by rewrite <- !app_assoc.
Qed.

(** *** What the normalization keeps *)

Lemma uncomment_comment_free (ks : list chunk) :
  wf_chunks ks = true → forallb comment_free (concat (map uncomment ks)) = true.
Proof.
  induction ks as [|k ks IH]; [done|].
  destruct k as [c|body|text|text|text]; simpl;
    intros [Hk Hks]%andb_true_iff.
  - apply andb_true_iff in Hk as [-> _]. by apply IH.
  - rewrite Hk. by apply IH.
  - by apply IH.
  - by apply IH.
  - by destruct ks.
Qed.

Lemma drop_trailing_commas_comment_free (ks : list chunk) :
  forallb comment_free ks = true →
  forallb comment_free (drop_trailing_commas ks) = true.
Proof.
  induction ks as [|k ks IH]; [done|].
  intros [Hk Hks]%comment_free_cons.
  destruct k as [c|body| | |]; simpl; try done.
  - destruct (Ascii.eqb c "," && closes ks); [by apply IH|].
    simpl. simpl in Hk. rewrite Hk. by apply IH.
  - simpl in Hk. rewrite Hk. by apply IH.
Qed.

Lemma literals_uncomment (ks : list chunk) :
  literals (concat (map uncomment ks)) = literals ks.
Proof.
  induction ks as [|k ks IH]; [done|].
  destruct k; simpl; by rewrite ?IH.
Qed.

Lemma literals_drop_trailing_commas (ks : list chunk) :
  literals (drop_trailing_commas ks) = literals ks.
Proof.
  induction ks as [|k ks IH]; [done|].
  destruct k as [c| | | |]; simpl; rewrite ?IH; try done.
  destruct (Ascii.eqb c "," && closes ks); simpl; by rewrite ?IH.
Qed.

(** C7.  On a well-formed relaxed document the normalization succeeds and
    gives the document without its comments and its trailing commas; the
    string literals of the result are those of the document, in the same
    order and with the same bytes, whatever bytes they hold. *)
Theorem normalize_keeps_string_literals (ks : list chunk) :
  wf_chunks ks = true →
  normalizeRelaxedJSON (render ks) = Ok (render (normalize_chunks ks))
  ∧ forallb comment_free (normalize_chunks ks) = true
  ∧ literals (normalize_chunks ks) = literals ks.
Proof.
  intros Hwf. unfold normalizeRelaxedJSON, normalize_chunks.
  rewrite stripJSONComments_chunks by done. split; [|split].
  - unfold stripTrailingCommas.
    by rewrite stripTrailingCommas_loop_chunks by by apply uncomment_comment_free.
  - by apply drop_trailing_commas_comment_free, uncomment_comment_free.
  - by rewrite literals_drop_trailing_commas, literals_uncomment.
Qed.

(** *** Every accepted document is well formed *)

(** A scan that starts inside a string and ends outside has met the
    closing quote. *)
Lemma scan_string_closes (data out out' : list ascii) (st' : commentScan) :
  stripJSONComments_loop data scanString out = (st', out') →
  inString st' = false →
  ∃ body rest : list ascii,
    data = body ++ QUOTE :: rest ∧ str_body body = true.
Proof.
  assert (∀ (n : nat) (data out : list ascii),
            (length data ≤ n)%nat →
            stripJSONComments_loop data scanString out = (st', out') →
            inString st' = false →
            ∃ body rest : list ascii,
              data = body ++ QUOTE :: rest ∧ str_body body = true) as Hall.
  { clear data out. induction n as [|n IH]; intros [|c data] out Hlen Hscan Hend;
      simpl in Hlen; try lia.
    - injection Hscan as <- _. done.
    - injection Hscan as <- _. done.
    - simpl in Hscan. destruct (Ascii.eqb_spec c "\") as [->|Hc].
      + destruct data as [|d data].
        * injection Hscan as <- _. done.
        * simpl in Hscan.
          change {| inString := true; inLineComment := false;
                    inBlockComment := false; escape := false |}
            with scanString in Hscan.
          destruct (IH data _ ltac:(simpl in Hlen; lia) Hscan Hend)
            as (body & rest & -> & Hbody).
          by exists ("\"%char :: d :: body), rest.
      + destruct (Ascii.eqb_spec c QUOTE) as [->|Hq].
        * by exists [], data.
        * destruct (IH data _ ltac:(lia) Hscan Hend)
            as (body & rest & -> & Hbody).
          exists (c :: body), rest. split; [done|]. simpl.
          apply Ascii.eqb_neq in Hc, Hq. by rewrite Hc, Hq. }
  intros Hscan Hend. by apply (Hall (length data) data out).
Qed.

(** A scan that starts inside a block comment and ends outside has met
    the end of the comment. *)
Lemma scan_block_closes (data out out' : list ascii) (st' : commentScan) :
  stripJSONComments_loop data scanBlock out = (st', out') →
  inBlockComment st' = false →
  ∃ text rest : list ascii,
    data = text ++ "*"%char :: "/"%char :: rest ∧ no_block_end text = true.
Proof.
  revert out. induction data as [|c data IH]; intros out Hscan Hend.
  - injection Hscan as <- _. done.
  - destruct data as [|next data].
    { simpl in Hscan. injection Hscan as <- _. done. }
    unfold stripJSONComments_loop in Hscan; fold stripJSONComments_loop in Hscan.
    simpl inLineComment in Hscan. simpl inBlockComment in Hscan.
    cbv iota in Hscan.
    destruct (Ascii.eqb c "*" && Ascii.eqb next "/") eqn:Hclose.
    + apply andb_true_iff in Hclose as [->%Ascii.eqb_eq ->%Ascii.eqb_eq].
      by exists [], data.
    + destruct (IH out Hscan Hend) as (text & rest & Heq & Htext).
      exists (c :: text), rest. split; [by rewrite Heq|].
      destruct text as [|t text]; [done|].
      injection Heq as -> _. simpl. by rewrite Hclose.
Qed.

(** A line comment runs to the first newline or to the end. *)
Lemma split_at_newline (data : list ascii) :
  ∃ text : list ascii,
    no_newline text = true
    ∧ (data = text ∨ ∃ rest : list ascii, data = text ++ LF :: rest).
Proof.
  induction data as [|c data (text & Htext & Hdata)].
  - exists []. split; [done|by left].
  - destruct (Ascii.eqb_spec c LF) as [->|Hc].
    + exists []. split; [done|]. right. by exists data.
    + exists (c :: text). split.
      * simpl. apply Ascii.eqb_neq in Hc. by rewrite Hc.
      * destruct Hdata as [->|(rest & ->)]; [by left|right]. by exists rest.
Qed.

Lemma stripJSONComments_loop_accepts (data out out' : list ascii)
    (st' : commentScan) :
  stripJSONComments_loop data scanCode out = (st', out') →
  inBlockComment st' = false → inString st' = false →
  ∃ ks : list chunk, wf_chunks ks = true ∧ render ks = data.
Proof.
  assert (∀ (n : nat) (data out : list ascii),
            (length data ≤ n)%nat →
            stripJSONComments_loop data scanCode out = (st', out') →
            inBlockComment st' = false → inString st' = false →
            ∃ ks : list chunk, wf_chunks ks = true ∧ render ks = data) as Hall.
  { clear data out. induction n as [|n IH]; intros [|c data] out Hlen Hscan Hb Hs;
      simpl in Hlen; try lia; try (by exists []).
    destruct (Ascii.eqb c QUOTE) eqn:Hq.
    { apply Ascii.eqb_eq in Hq as ->. simpl in Hscan.
      change {| inString := true; inLineComment := false;
                inBlockComment := false; escape := false |}
        with scanString in Hscan.
      destruct (scan_string_closes _ _ _ _ Hscan Hs) as (body & rest & -> & Hbody).
      rewrite scan_string_body in Hscan by done.
      destruct (IH rest _ ltac:(rewrite length_app in Hlen; simpl in Hlen; lia)
                  Hscan Hb Hs) as (ks & Hwf & <-).
      exists (StrLit body :: ks). split; [simpl; by rewrite Hbody, Hwf|].
      unfold render. simpl. by rewrite <- app_assoc. }
    destruct data as [|next data].
    { exists [Plain c]. split; [|done]. simpl. rewrite Hq. simpl.
      unfold opens_no_comment. by destruct (Ascii.eqb c "/"). }
    unfold stripJSONComments_loop in Hscan; fold stripJSONComments_loop in Hscan.
    simpl inLineComment in Hscan. simpl inBlockComment in Hscan.
    simpl inString in Hscan. cbv iota in Hscan. rewrite Hq in Hscan.
    destruct (Ascii.eqb c "/" && Ascii.eqb next "/") eqn:Hline.
    { apply andb_true_iff in Hline as [->%Ascii.eqb_eq ->%Ascii.eqb_eq].
      change {| inString := inString scanCode; inLineComment := true;
                inBlockComment := inBlockComment scanCode;
                escape := escape scanCode |} with scanLine in Hscan.
      destruct (split_at_newline data) as (text & Htext & [->|(rest & ->)]).
      - exists [TailComment text]. split; [simpl; by rewrite Htext|].
        unfold render. simpl. by rewrite app_nil_r.
      - rewrite scan_line_text in Hscan by done. simpl in Hscan.
        destruct (IH rest _ ltac:(simpl in Hlen; rewrite length_app in Hlen;
                                  simpl in Hlen; lia) Hscan Hb Hs)
          as (ks & Hwf & <-).
        exists (LineComment text :: ks). split; [simpl; by rewrite Htext, Hwf|].
        unfold render. simpl. by rewrite <- app_assoc. }
    destruct (Ascii.eqb c "/" && Ascii.eqb next "*") eqn:Hblock.
    { apply andb_true_iff in Hblock as [->%Ascii.eqb_eq ->%Ascii.eqb_eq].
      change {| inString := inString scanCode;
                inLineComment := inLineComment scanCode;
                inBlockComment := true;
                escape := escape scanCode |} with scanBlock in Hscan.
      destruct (scan_block_closes _ _ _ _ Hscan Hb) as (text & rest & -> & Htext).
      rewrite scan_block_text in Hscan by done.
      assert (length rest ≤ n)%nat as Hrest.
      { simpl in Hlen. rewrite length_app in Hlen. simpl in Hlen. lia. }
      destruct (IH rest _ Hrest Hscan Hb Hs) as (ks & Hwf & <-).
      exists (BlockComment text :: ks). split; [simpl; by rewrite Htext, Hwf|].
      unfold render. simpl. rewrite <- app_assoc. done. }
    destruct (IH (next :: data) _ ltac:(simpl in Hlen |- *; lia) Hscan Hb Hs)
      as (ks & Hwf & Hks).
    exists (Plain c :: ks). split; [|unfold render in *; simpl; by rewrite Hks].
    simpl. rewrite Hq, Hwf, Hks. simpl. unfold opens_no_comment.
    destruct (Ascii.eqb c "/"); [|done]. simpl in Hline, Hblock.
    by rewrite Hline, Hblock. }
  intros Hscan Hb Hs. by apply (Hall (length data) data out).
Qed.

(** Every document that the normalization accepts is the rendering of a
    well-formed sequence of chunks: the reference covers all of them. *)
Lemma accepted_documents_are_well_formed (data out : list ascii) :
  normalizeRelaxedJSON data = Ok out →
  ∃ ks : list chunk, wf_chunks ks = true ∧ render ks = data.
Proof.
  unfold normalizeRelaxedJSON, stripJSONComments.
  destruct (stripJSONComments_loop data scanCode []) as [st' out'] eqn:Hscan.
  destruct (inBlockComment st') eqn:Hb; [discriminate|].
  destruct (inString st') eqn:Hs; [discriminate|]. intros _.
  by eapply stripJSONComments_loop_accepts.
Qed.

(** *** The normalization on the sample document *)

Lemma normalize_keeps_string_literals_witness :
  normalizeRelaxedJSON (render sampleRelaxed)
  = Ok (render [Plain "["; lit "// not a comment"; Plain ","; Plain " ";
                lit "/* not a comment */"; Plain ","; lit "a, }"; Plain " ";
                Plain LF; Plain "]"])
  ∧ literals (normalize_chunks sampleRelaxed)
    = [list_ascii_of_string "// not a comment";
       list_ascii_of_string "/* not a comment */";
       list_ascii_of_string "a, }"].
Proof.
  destruct (normalize_keeps_string_literals sampleRelaxed)
    as (Hnorm & _ & Hlits); [vm_compute; reflexivity|].
  split; [exact Hnorm|exact Hlits].
Defined.

(** The same, run on the bytes. *)
Example normalize_sample_bytes :
  normalizeRelaxedJSON
    (list_ascii_of_string
       ("[" +:+ quoted "// not a comment" +:+ ", "
            +:+ quoted "/* not a comment */" +:+ ",/* c */"
            +:+ quoted "a, }" +:+ ", // tail" +:+ newline +:+ "]// end"))
  = Ok (list_ascii_of_string
          ("[" +:+ quoted "// not a comment" +:+ ", "
               +:+ quoted "/* not a comment */" +:+ ","
               +:+ quoted "a, }" +:+ " " +:+ newline +:+ "]")).
Proof. vm_compute. reflexivity. Qed.

(** An escaped quote does not end the string. *)
Example normalize_escaped_quote :
  normalizeRelaxedJSON
    (list_ascii_of_string
       ("[" +:+ String QUOTE ("a\" +:+ String QUOTE (", ] // b" +:+ String QUOTE ",]"))))
  = Ok (list_ascii_of_string
          ("[" +:+ String QUOTE ("a\" +:+ String QUOTE (", ] // b" +:+ String QUOTE "]")))).
Proof. vm_compute. reflexivity. Qed.

Example normalize_unterminated :
  normalizeRelaxedJSON (list_ascii_of_string "[1, /* open") = Err ErrUnterminatedBlockComment
  ∧ normalizeRelaxedJSON (list_ascii_of_string ("[" +:+ String QUOTE "open"))
    = Err ErrUnterminatedString.
Proof. split; vm_compute; reflexivity. Qed.

(** ** Reading the persisted document *)

Lemma trimStart_cons (c : ascii) (rest : list ascii) :
  trimStart (c :: rest) =
  if (RuneSelf <=? nat_of_ascii c)%nat then (c :: rest, true)
  else if asciiSpace c then trimStart rest
  else (c :: rest, false).
Proof. done. Qed.

Lemma asciiSpace_is_ascii (c : ascii) :
  asciiSpace c = true → (RuneSelf <=? nat_of_ascii c)%nat = false.
Proof.
  unfold asciiSpace. simpl. intros Hc.
  repeat (apply orb_true_iff in Hc as [Hc|Hc];
          [apply Ascii.eqb_eq in Hc; by subst c|]).
  discriminate.
Qed.

Lemma trimStart_asciiSpace (data : list ascii) :
  forallb asciiSpace data = true → trimStart data = ([], false).
Proof.
  induction data as [|c data IH]; [done|].
  intros [Hc Hdata]%andb_true_iff.
  rewrite trimStart_cons, asciiSpace_is_ascii, Hc by done. by apply IH.
Qed.

Section ReadTasks.
Context {fs : FileSystem} {json : JSON} {unicode : Unicode}.

Lemma bytes_TrimSpace_asciiSpace (data : list ascii) :
  forallb asciiSpace data = true → bytes_TrimSpace data = [].
Proof.
  intros Hdata. unfold bytes_TrimSpace. by rewrite trimStart_asciiSpace.
Qed.

(** C10.  A file that does not exist, a file that is empty and a file
    that holds only whitespace all read as the empty sequence of entries,
    without error; a file with other content is trimmed, normalized and
    decoded. *)
Theorem readTasks_blank_is_empty (path : string) :
  (os_ReadFile path = ReadNotExist → readTasks path = Ok [])
  ∧ (os_ReadFile path = ReadData [] → readTasks path = Ok [])
  ∧ (∀ data : list ascii,
       os_ReadFile path = ReadData data →
       forallb asciiSpace data = true ∨ bytes_TrimSpace data = [] →
       readTasks path = Ok [])
  ∧ (∀ data : list ascii,
       os_ReadFile path = ReadData data →
       bytes_TrimSpace data ≠ [] →
       readTasks path =
       match normalizeRelaxedJSON (bytes_TrimSpace data) with
       | Err e => Err e
       | Ok normalized =>
         match json_Unmarshal_tasks normalized with
         | None => Err ErrJSONUnmarshal
         | Some tasks => Ok tasks
         end
       end).
Proof.
  unfold readTasks. split; [by intros ->|]. split; [by intros ->|]. split.
  - intros data -> [Hspace|Htrim].
    + by rewrite bytes_TrimSpace_asciiSpace.
    + by rewrite Htrim.
  - intros data -> Htrim. by destruct (bytes_TrimSpace data).
Qed.

(** [mergeTasks] is [mergeExisting] on the document read. *)
Lemma mergeTasks_reads (tasksPath : string) (existing generated : list task)
    (cfg : Config) :
  readTasks tasksPath = Ok existing →
  mergeTasks tasksPath generated cfg = Ok (mergeExisting existing generated cfg).
Proof. unfold mergeTasks. by intros ->. Qed.

End ReadTasks.

Lemma readTasks_blank_is_empty_witness :
  @readTasks (oneFile "tasks.json" [" "%char; LF; TAB; CR; " "%char])
    sampleJSON sampleUnicode "tasks.json" = Ok []
  ∧ @readTasks (oneFile "tasks.json" []) sampleJSON sampleUnicode "other.json"
    = Ok [].
Proof.
  split.
  - destruct (@readTasks_blank_is_empty
                (oneFile "tasks.json" [" "%char; LF; TAB; CR; " "%char])
                sampleJSON sampleUnicode "tasks.json") as (_ & _ & Hblank & _).
    apply (Hblank [" "%char; LF; TAB; CR; " "%char]); [reflexivity|].
    left. reflexivity.
  - destruct (@readTasks_blank_is_empty (oneFile "tasks.json" [])
                sampleJSON sampleUnicode "other.json") as (Habsent & _).
    apply Habsent. reflexivity.
Defined.

(** Content that is not blank goes through the normalization and the
    decoder. *)
Example readTasks_decodes :
  @readTasks (oneFile "tasks.json" (list_ascii_of_string " [/* none */] "))
    sampleJSON sampleUnicode "tasks.json" = Ok []
  ∧ @readTasks (oneFile "tasks.json" (list_ascii_of_string "[ /* open "))
      sampleJSON sampleUnicode "tasks.json" = Err ErrUnterminatedBlockComment
  ∧ @readTasks (oneFile "tasks.json" (list_ascii_of_string "{}"))
      sampleJSON sampleUnicode "tasks.json" = Err ErrJSONUnmarshal.
Proof. repeat split; vm_compute; reflexivity. Qed.

(** * Further properties *)

(** ** The reconciler: counts, pruning, presence, positions *)

Lemma upsertStep_counts st (g : task) :
  us_added (upsertStep st g) + us_updated (upsertStep st g)
    = S (us_added st + us_updated st)
  ∧ length (us_filtered (upsertStep st g)) + us_added st
    = length (us_filtered st) + us_added (upsertStep st g).
Proof.
  unfold upsertStep.
  destruct (us_labelIndex st !! label_or_zero g); simpl.
  - rewrite length_insert. lia.
  - rewrite length_app. simpl. lia.
Qed.

Lemma upsertLoop_counts (G : list task) st :
  us_added (upsertLoop G st) + us_updated (upsertLoop G st)
    = us_added st + us_updated st + length G
  ∧ length (us_filtered (upsertLoop G st)) + us_added st
    = length (us_filtered st) + us_added (upsertLoop G st).
Proof.
  revert st. induction G as [|g G IH]; intros st; [simpl; lia|].
  rewrite upsertLoop_cons. destruct (IH (upsertStep st g)) as [IH1 IH2].
  destruct (upsertStep_counts st g) as [H1 H2]. simpl. lia.
Qed.

Lemma filter_bool_length {A} (f : A → bool) (l : list A) :
  length (filter (λ x, f x = false) l) + length (filter (λ x, f x = true) l)
  = length l.
Proof.
  induction l as [|x l IH]; [done|]. rewrite !filter_cons.
  destruct (f x) eqn:Hx.
  - rewrite decide_False, decide_True by done. simpl. lia.
  - rewrite decide_True, decide_False by done. simpl. lia.
Qed.

(** X1.  The counts that [mergeTasks] reports account for every entry:
    each generated entry is counted once, as added or as updated, and the
    merged document has the entries of the document, less the removed
    ones, plus the added ones. *)
Theorem merge_counts_account (cfg : Config) (D G : list task) :
  let merged := (mergeExisting D G cfg).1 in
  let stats := (mergeExisting D G cfg).2 in
  Added stats + Updated stats = length G
  ∧ length merged + Removed stats = length D + Added stats
  ∧ (PruneGenerated cfg = false → Removed stats = 0).
Proof.
  rewrite mergeExisting_unfold. simpl.
  set (st0 := {| us_filtered := retained cfg D;
                 us_labelIndex := indexLoop 0 (retained cfg D) ∅;
                 us_added := 0; us_updated := 0 |}).
  destruct (upsertLoop_counts G st0) as [Hsum Hlen]. simpl in Hsum, Hlen.
  pose proof (filter_bool_length
                (λ t, PruneGenerated cfg && isGenerated t cfg) D) as Hpart.
  cbv beta in Hpart. unfold retained in Hlen. split; [lia|]. split; [lia|].
  intros Hp. by rewrite removed_no_pruning.
Qed.

Lemma upsertStep_elements (F G : list task) st (g : task) :
  g ∈ G →
  Forall (λ t, t ∈ F ∨ t ∈ G) (us_filtered st) →
  Forall (λ t, t ∈ F ∨ t ∈ G) (us_filtered (upsertStep st g)).
Proof.
  intros Hg Hst. unfold upsertStep.
  destruct (us_labelIndex st !! label_or_zero g) as [p|]; simpl.
  - destruct (decide (p < length (us_filtered st))) as [Hlt|Hge].
    + apply Forall_insert; [done|by right].
    + by rewrite list_insert_ge by lia.
  - apply Forall_app. split; [done|]. apply Forall_singleton. by right.
Qed.

Lemma upsertLoop_elements (F G G' : list task) st :
  Forall (λ g, g ∈ G) G' →
  Forall (λ t, t ∈ F ∨ t ∈ G) (us_filtered st) →
  Forall (λ t, t ∈ F ∨ t ∈ G) (us_filtered (upsertLoop G' st)).
Proof.
  revert st. induction G' as [|g G' IH]; intros st HG Hst; [done|].
  apply Forall_cons in HG as [Hg HG]. rewrite upsertLoop_cons.
  apply IH; [done|]. by apply upsertStep_elements.
Qed.

(** Every entry of the merged document is a retained entry of the
    document or one of the generated entries. *)
Lemma merged_elements (cfg : Config) (D G : list task) (t : task) :
  t ∈ (mergeExisting D G cfg).1 → t ∈ retained cfg D ∨ t ∈ G.
Proof.
  rewrite mergeExisting_unfold. simpl. revert t. apply Forall_forall.
  apply upsertLoop_elements.
  - apply Forall_forall. by intros g Hg.
  - apply Forall_forall. intros t' Ht'. by left.
Qed.

(** X2.  With pruning, the marker-carrying entries of the merged document
    are all among the entries just generated: no stale generated entry is
    left.  With nothing generated, no marker-carrying entry is left. *)
Theorem pruning_leaves_no_stale_entry (cfg : Config) (D G : list task) (t : task) :
  PruneGenerated cfg = true →
  t ∈ (mergeExisting D G cfg).1 →
  isGenerated t cfg = true →
  t ∈ G.
Proof.
  intros Hp Ht Hgen. apply merged_elements in Ht as [Hret|Hin]; [|done].
  apply list_elem_of_filter in Hret as [Hret _].
  by rewrite Hp, Hgen in Hret.
Qed.

Lemma pruning_leaves_no_stale_entry_witness :
  sampleGeneratedTask ∈ sampleGenerated.
Proof.
  apply (pruning_leaves_no_stale_entry defaultConfig sampleDocument
           sampleGenerated sampleGeneratedTask).
  - reflexivity.
  - apply (list_elem_of_lookup_2 _ 1). vm_compute. reflexivity.
  - vm_compute. reflexivity.
Defined.

(** An entry that no later generated entry overwrites is in the merged
    document. *)
Lemma merged_holds_last (cfg : Config) (D A B : list task) (g : task) :
  Forall (λ g, is_Some (label_of g)) (A ++ g :: B) →
  (∀ g' : task, g' ∈ B → label_or_zero g' ≠ label_or_zero g) →
  g ∈ (mergeExisting D (A ++ g :: B) cfg).1.
Proof.
  intros Hlab Hlast. rewrite mergeExisting_unfold. simpl.
  set (st0 := {| us_filtered := retained cfg D;
                 us_labelIndex := indexLoop 0 (retained cfg D) ∅;
                 us_added := 0; us_updated := 0 |}).
  assert (index_exact st0) as Hex by done.
  destruct (upsertLoop_settled (A ++ g :: B) st0 Hlab Hex A g B eq_refl)
    as [(g' & Hg' & Hsame)|(p & _ & Hp)].
  - by destruct (Hlast g' Hg').
  - by eapply list_elem_of_lookup_2.
Qed.

Lemma distinct_labels_last (A B : list task) (g : task) :
  NoDup (generated_labels (A ++ g :: B)) →
  ∀ g' : task, g' ∈ B → label_or_zero g' ≠ label_or_zero g.
Proof.
  intros Hnodup g' Hg' Hsame.
  unfold generated_labels in Hnodup. rewrite fmap_app, fmap_cons in Hnodup.
  apply NoDup_app in Hnodup as (_ & _ & Hnodup).
  apply NoDup_cons in Hnodup as [Hnotin _]. apply Hnotin.
  rewrite <- Hsame. by apply list_elem_of_fmap_2.
Qed.

(** X3.  When the generated entries have string labels that differ from
    one another, each of them is in the merged document, under either
    pruning policy. *)
Theorem merged_holds_every_generated_entry (cfg : Config) (D G : list task)
    (g : task) :
  Forall (λ g, is_Some (label_of g)) G →
  NoDup (generated_labels G) →
  g ∈ G →
  g ∈ (mergeExisting D G cfg).1.
Proof.
  intros Hlab Hnodup Hg.
  apply list_elem_of_split in Hg as (A & B & ->).
  apply merged_holds_last; [done|]. by apply (distinct_labels_last A).
Qed.

Lemma merged_holds_every_generated_entry_witness :
  sampleGeneratedTask
    ∈ (mergeExisting collidingDocument sampleGenerated defaultConfig).1.
Proof.
  apply (merged_holds_every_generated_entry defaultConfig collidingDocument
           sampleGenerated sampleGeneratedTask).
  - repeat constructor. vm_compute. eexists. reflexivity.
  - vm_compute. repeat constructor. intros Hin. by apply elem_of_nil in Hin.
  - apply (list_elem_of_lookup_2 _ 0). vm_compute. reflexivity.
Defined.

Lemma inplace_inv_init (F G : list task) :
  inplace_inv F G {| us_filtered := F; us_labelIndex := indexLoop 0 F ∅;
                     us_added := 0; us_updated := 0 |}.
Proof.
  split; simpl.
  - intros label p Hp _. by apply indexLoop_lookup.
  - intros p t Hp. exists t. split; [done|by left].
Qed.

Lemma upsertStep_inplace_inv (F G : list task) st (g : task) :
  g ∈ G → inplace_inv F G st → inplace_inv F G (upsertStep st g).
Proof.
  intros Hg [Hidx Hkept]. unfold upsertStep.
  destruct (us_labelIndex st !! label_or_zero g) as [q|] eqn:Hq;
    split; simpl.
  - done.
  - intros p t Hp. destruct (Hkept p t Hp) as (t' & Hp' & Ht').
    destruct (decide (p = q)) as [->|Hne].
    + exists g. split.
      * apply list_lookup_insert_eq. by eapply lookup_lt_Some.
      * right. split; [done|].
        apply lookup_lt_Some in Hp as Hlt.
        destruct (Hidx _ _ Hq Hlt) as (t0 & Hp0 & Hl0). congruence.
    + exists t'. by rewrite list_lookup_insert_ne.
  - intros label p. rewrite lookup_insert. case_decide.
    + intros [= <-] Hlt.
      destruct (lookup_lt_is_Some_2 F (length (us_filtered st)) Hlt) as [t Ht].
      destruct (Hkept _ t Ht) as (t' & Hp' & _).
      apply lookup_lt_Some in Hp'. lia.
    + apply Hidx.
  - intros p t Hp. destruct (Hkept p t Hp) as (t' & Hp' & Ht').
    exists t'. split; [by apply lookup_app_l_Some|done].
Qed.

Lemma upsertLoop_inplace_inv (F G G' : list task) st :
  Forall (λ g, g ∈ G) G' →
  inplace_inv F G st → inplace_inv F G (upsertLoop G' st).
Proof.
  revert st. induction G' as [|g G' IH]; intros st HG Hst; [done|].
  apply Forall_cons in HG as [Hg HG]. rewrite upsertLoop_cons.
  apply IH; [done|]. by apply upsertStep_inplace_inv.
Qed.

(** X4.  The merge updates in place: every entry that survives the pruning
    keeps its position in the merged document, where it stands unchanged
    or is replaced by a generated entry that has its label. *)
Theorem merge_updates_in_place (cfg : Config) (D G : list task)
    (p : nat) (t : task) :
  retained cfg D !! p = Some t →
  ∃ t' : task,
    (mergeExisting D G cfg).1 !! p = Some t'
    ∧ (t' = t ∨ (t' ∈ G ∧ label_of t = Some (label_or_zero t'))).
Proof.
  intros Hp. rewrite mergeExisting_unfold. simpl.
  eapply (inplace_kept (retained cfg D) G); [|exact Hp].
  apply upsertLoop_inplace_inv; [|apply inplace_inv_init].
  apply Forall_forall. by intros g Hg.
Qed.

Lemma merge_updates_in_place_witness :
  ∃ t' : task,
    (mergeExisting collidingDocument sampleGenerated defaultConfig).1 !! 1
      = Some t'
    ∧ (t' = userTask "my-build" "make"
       ∨ (t' ∈ sampleGenerated
          ∧ label_of (userTask "my-build" "make") = Some (label_or_zero t'))).
Proof.
  apply (merge_updates_in_place defaultConfig collidingDocument sampleGenerated
           1 (userTask "my-build" "make")).
  vm_compute. reflexivity.
Defined.

(** X5.  Generating and then clearing gives back a hand-written document:
    when no entry of the document carries the marker or has the label of a
    generated entry, and the generated entries carry the marker, the
    clearing loop of [runClear] on the merged document returns the
    document, and counts as removed what the merge had added. *)
Theorem clear_undoes_merge (cfg : Config) (D G : list task) :
  Forall (λ g, isGenerated g cfg = true) G →
  Forall (λ t, untouched cfg G t = true) D →
  clearLoop cfg (mergeExisting D G cfg).1 [] 0
  = (D, Added (mergeExisting D G cfg).2).
Proof.
  intros Hgen Huser.
  assert (Forall (λ t, isGenerated t cfg = false) D) as Hplain.
  { eapply Forall_impl; [exact Huser|]. intros t Ht. unfold untouched in Ht.
    apply andb_true_iff in Ht as [Ht _]. by apply negb_true_iff. }
  assert (retained cfg D = D) as Hret.
  { apply filter_Forall_id. eapply Forall_impl; [exact Hplain|].
    intros t Ht. by rewrite Ht, andb_false_r. }
  rewrite mergeExisting_unfold. simpl. rewrite Hret.
  set (st1 := upsertLoop G _).
  assert (appended_inv D G st1) as [(A & Hdoc & HA & Hlen) _].
  { apply upsertLoop_appended_inv.
    - apply Forall_forall. intros g Hg. split; [done|].
      intros p t Ht Hl. apply list_elem_of_lookup_2 in Ht.
      rewrite Forall_forall in Huser. specialize (Huser t Ht).
      unfold untouched in Huser. rewrite Hl in Huser.
      apply andb_true_iff in Huser as [_ Huser].
      apply bool_decide_eq_true in Huser. apply Huser.
      unfold generated_labels. by apply list_elem_of_fmap_2.
    - split; simpl.
      + exists []. split; [by rewrite app_nil_r|]. split; [constructor|done].
      + intros label p Hl _. by apply indexLoop_lookup. }
  rewrite clearLoop_filter, Hdoc, !filter_app. simpl.
  rewrite (filter_Forall_id _ D) by done.
  rewrite (filter_Forall_nil _ A), app_nil_r.
  2:{ eapply Forall_impl; [exact HA|]. intros a Ha.
      rewrite Forall_forall in Hgen. by rewrite (Hgen a Ha). }
  rewrite (filter_Forall_nil _ D).
  2:{ eapply Forall_impl; [exact Hplain|]. intros t Ht. by rewrite Ht. }
  rewrite (filter_Forall_id _ A).
  2:{ eapply Forall_impl; [exact HA|]. intros a Ha.
      rewrite Forall_forall in Hgen. by apply Hgen. }
  simpl. by rewrite <- Hlen.
Qed.

Lemma clear_undoes_merge_witness :
  clearLoop defaultConfig
    (mergeExisting [userTask "my-build" "make"] sampleGenerated defaultConfig).1
    [] 0
  = ([userTask "my-build" "make"], 1).
Proof.
  apply (clear_undoes_merge defaultConfig [userTask "my-build" "make"]
           sampleGenerated); repeat constructor.
Defined.

(** ** The generator *)

Lemma makeGeneratedTasks_label_of names pkgArg relFilePath cfg extra :
  label_of <$> makeGeneratedTasks names pkgArg relFilePath cfg extra
  = (λ name, Some (LabelPrefix cfg +:+ name)) <$> names.
Proof.
  unfold makeGeneratedTasks. rewrite <- list_fmap_compose.
  by apply list_fmap_ext.
Qed.

Lemma makeGeneratedDebugConfigs_label_of names pkgArg relFilePath cfg extra :
  label_of <$> makeGeneratedDebugConfigs names pkgArg relFilePath cfg extra
  = (λ name, Some (DebugLabelPrefix cfg +:+ name)) <$> names.
Proof.
  unfold makeGeneratedDebugConfigs. rewrite <- list_fmap_compose.
  by apply list_fmap_ext.
Qed.

(** Entries labelled by prefixing distinct names have distinct labels. *)
Lemma prefixed_labels_distinct (prefix : string) (names : list string)
    (G : list task) :
  label_of <$> G = (λ name, Some (prefix +:+ name)) <$> names →
  NoDup names →
  labels_unique G ∧ NoDup (generated_labels G).
Proof.
  intros Hlabels Hnodup.
  assert (∀ (i : nat) (t : task) (label : string),
            G !! i = Some t → label_of t = Some label →
            ∃ name : string, names !! i = Some name ∧ label = prefix +:+ name)
    as Hname.
  { intros i t label Hi Hl.
    assert ((label_of <$> G) !! i = Some (Some label)) as Hi'.
    { by rewrite list_lookup_fmap, Hi, <- Hl. }
    rewrite Hlabels, list_lookup_fmap in Hi'.
    destruct (names !! i) as [name|]; [|done]. injection Hi' as <-.
    by exists name. }
  split.
  - intros i j t1 t2 label Hi Hj H1 H2.
    destruct (Hname i t1 label Hi H1) as (n1 & Hn1 & ->).
    destruct (Hname j t2 _ Hj H2) as (n2 & Hn2 & Heq).
    apply (inj (String.app prefix)) in Heq as ->.
    by eapply NoDup_lookup.
  - assert (generated_labels G = (λ name, prefix +:+ name) <$> names) as ->.
    { unfold generated_labels, label_or_zero. apply list_eq. intros i.
      rewrite !list_lookup_fmap.
      assert ((label_of <$> G) !! i
              = ((λ name, Some (prefix +:+ name)) <$> names) !! i) as Hi
        by by rewrite Hlabels.
      rewrite !list_lookup_fmap in Hi.
      destruct (G !! i) as [t|], (names !! i) as [name|]; simpl in *;
        try done. by injection Hi as ->. }
    apply NoDup_fmap_2; [|done]. apply _.
Qed.

(** X6.  The generator makes one entry for each name, in the order of the
    names, labelled with the prefix followed by the name; for names that
    differ from one another no two entries of one run share a label. *)
Theorem generated_labels_are_prefixed_names
    (names : list string) (pkgArg relFilePath : string) (cfg : Config)
    (extra : list string) :
  label_of <$> makeGeneratedTasks names pkgArg relFilePath cfg extra
    = (λ name, Some (LabelPrefix cfg +:+ name)) <$> names
  ∧ label_of <$> makeGeneratedDebugConfigs names pkgArg relFilePath cfg extra
    = (λ name, Some (DebugLabelPrefix cfg +:+ name)) <$> names
  ∧ (NoDup names →
     labels_unique (makeGeneratedTasks names pkgArg relFilePath cfg extra)
     ∧ NoDup (generated_labels
                (makeGeneratedTasks names pkgArg relFilePath cfg extra))
     ∧ labels_unique (makeGeneratedDebugConfigs names pkgArg relFilePath cfg extra)
     ∧ NoDup (generated_labels
                (makeGeneratedDebugConfigs names pkgArg relFilePath cfg extra))).
Proof.
  split; [apply makeGeneratedTasks_label_of|].
  split; [apply makeGeneratedDebugConfigs_label_of|].
  intros Hnodup.
  destruct (prefixed_labels_distinct (LabelPrefix cfg) names
              (makeGeneratedTasks names pkgArg relFilePath cfg extra)
              (makeGeneratedTasks_label_of _ _ _ _ _) Hnodup) as [? ?].
  destruct (prefixed_labels_distinct (DebugLabelPrefix cfg) names
              (makeGeneratedDebugConfigs names pkgArg relFilePath cfg extra)
              (makeGeneratedDebugConfigs_label_of _ _ _ _ _) Hnodup) as [? ?].
  done.
Qed.

(** X7.  Unless the marker key is one of the two metadata keys, every
    entry the generator makes, task or debug configuration, passes the
    marker test of the program itself; the clearing loop of [runClear],
    run on the generated tasks, keeps none of them. *)
Theorem generated_entries_pass_marker_test
    (names : list string) (pkgArg relFilePath : string) (cfg : Config)
    (extra : list string) :
  GeneratedEnvKey cfg ≠ "ZED_GO_TEST_NAME" →
  GeneratedEnvKey cfg ≠ "ZED_GO_TEST_FILE" →
  Forall (λ g, isGenerated g cfg = true)
    (makeGeneratedTasks names pkgArg relFilePath cfg extra)
  ∧ Forall (λ g, isGenerated g cfg = true)
      (makeGeneratedDebugConfigs names pkgArg relFilePath cfg extra)
  ∧ (clearLoop cfg (makeGeneratedTasks names pkgArg relFilePath cfg extra) [] 0).1
    = [].
Proof.
  intros Hname Hfile.
  pose proof (makeGeneratedTasks_generated names pkgArg relFilePath cfg extra
                Hname Hfile) as Htasks.
  split; [done|]. split; [by apply makeGeneratedDebugConfigs_generated|].
  rewrite clearLoop_filter. simpl. apply filter_Forall_nil.
  eapply Forall_impl; [exact Htasks|]. intros g Hg. by rewrite Hg.
Qed.

Lemma generated_entries_pass_marker_test_witness :
  Forall (λ g, isGenerated g defaultConfig = true)
    (makeGeneratedTasks ["TestAlpha"; "TestBeta"] "." "a_test.go" defaultConfig ["-v"])
  ∧ Forall (λ g, isGenerated g defaultConfig = true)
      (makeGeneratedDebugConfigs ["TestAlpha"; "TestBeta"] "." "a_test.go"
         defaultConfig ["-v"])
  ∧ (clearLoop defaultConfig
       (makeGeneratedTasks ["TestAlpha"; "TestBeta"] "." "a_test.go"
          defaultConfig ["-v"]) [] 0).1 = [].
Proof.
  apply (generated_entries_pass_marker_test ["TestAlpha"; "TestBeta"] "."
           "a_test.go" defaultConfig ["-v"]); discriminate.
Defined.

(** X8.  Regenerating with pruning leaves, as marker-carrying entries of
    the document, exactly the entries just generated, when these carry
    the marker and have string labels that differ from one another. *)
Theorem regenerate_replaces_generated_entries (cfg : Config) (D G : list task)
    (t : task) :
  PruneGenerated cfg = true →
  Forall (λ g, is_Some (label_of g)) G →
  NoDup (generated_labels G) →
  Forall (λ g, isGenerated g cfg = true) G →
  (t ∈ (mergeExisting D G cfg).1 ∧ isGenerated t cfg = true) ↔ t ∈ G.
Proof.
  intros Hp Hlab Hnodup Hgen. split.
  - intros [Ht Htgen]. apply merged_elements in Ht as [Hret|Hin]; [|done].
    apply list_elem_of_filter in Hret as [Hret _].
    by rewrite Hp, Htgen in Hret.
  - intros Ht. split.
    + apply list_elem_of_split in Ht as (A & B & ->).
      apply merged_holds_last; [done|]. by apply (distinct_labels_last A).
    + rewrite Forall_forall in Hgen. by apply Hgen.
Qed.

Lemma regenerate_replaces_generated_entries_witness :
  sampleGeneratedTask
    ∈ (mergeExisting sampleDocument sampleGenerated defaultConfig).1
  ∧ isGenerated sampleGeneratedTask defaultConfig = true.
Proof.
  apply (regenerate_replaces_generated_entries defaultConfig sampleDocument
           sampleGenerated sampleGeneratedTask).
  - reflexivity.
  - repeat constructor. vm_compute. eexists. reflexivity.
  - vm_compute. repeat constructor. intros Hin. by apply elem_of_nil in Hin.
  - repeat constructor.
  - apply (list_elem_of_lookup_2 _ 0). vm_compute. reflexivity.
Defined.

(** ** Argument lists *)

Lemma substring_all (s : string) : String.substring 0 (String.length s) s = s.
Proof. induction s as [|c s IH]; [done|]. simpl. by rewrite IH. Qed.

Lemma TrimPrefix_dash (rest : string) :
  TrimPrefix (String "-" rest) "-" = rest.
Proof.
  unfold TrimPrefix, HasPrefix. simpl. rewrite Nat.sub_0_r.
  destruct rest as [|c rest]; [done|].
  change (String.prefix EmptyString (String c rest)) with true. cbv iota.
  apply substring_all.
Qed.

Lemma normalizeGoTestArgsForDelve_keep (arg : string) (rest : list string) :
  rewrittenForDelve arg = false →
  normalizeGoTestArgsForDelve (arg :: rest)
  = arg :: normalizeGoTestArgsForDelve rest.
Proof.
  unfold rewrittenForDelve. intros H.
  apply orb_false_iff in H as [[Hv Hc]%orb_false_iff Hp].
  simpl. by rewrite Hv, Hc, Hp.
Qed.

Lemma normalizeGoTestArgsForDelve_fixed (args : list string) :
  Forall (λ a, rewrittenForDelve a = false) args →
  normalizeGoTestArgsForDelve args = args.
Proof.
  induction 1 as [|a args Ha Hargs IH]; [done|].
  by rewrite normalizeGoTestArgsForDelve_keep, IH.
Qed.

Lemma normalizeGoTestArgsForDelve_clean (args : list string) :
  Forall (λ a, rewrittenForDelve a = false) (normalizeGoTestArgsForDelve args).
Proof.
  induction args as [|arg rest IH]; simpl; [constructor|].
  destruct (String.eqb arg "-v") eqn:Hv; [by constructor|].
  destruct (String.eqb arg "-count") eqn:Hc; [done|].
  destruct (HasPrefix arg "-count=") eqn:Hp; constructor; try done.
  unfold rewrittenForDelve. by rewrite Hv, Hc, Hp.
Qed.

Lemma normalizeGoTestArgsForDelve_length (args : list string) :
  (length (normalizeGoTestArgsForDelve args) ≤ length args)%nat.
Proof.
  induction args as [|arg rest IH]; simpl; [done|].
  destruct (String.eqb arg "-v"); [simpl; lia|].
  destruct (String.eqb arg "-count"); [lia|].
  destruct (HasPrefix arg "-count="); simpl; lia.
Qed.

(** X9.  The arguments handed to the debugger hold no [-v], no bare
    [-count] and no [-count=]: [-v] has become [-test.v], [-count=N] has
    become [-test.count=N], a bare [-count] is gone, and every other
    argument is kept as it is and in place.  Normalizing again changes
    nothing. *)
Theorem delve_arguments_are_normalized (args : list string) :
  Forall (λ a, a ≠ "-v" ∧ a ≠ "-count" ∧ HasPrefix a "-count=" = false)
    (normalizeGoTestArgsForDelve args)
  ∧ normalizeGoTestArgsForDelve (normalizeGoTestArgsForDelve args)
    = normalizeGoTestArgsForDelve args
  ∧ (length (normalizeGoTestArgsForDelve args) ≤ length args)%nat
  ∧ (∀ (n : string) (rest : list string),
       normalizeGoTestArgsForDelve (("-count=" +:+ n) :: rest)
       = ("-test.count=" +:+ n) :: normalizeGoTestArgsForDelve rest)
  ∧ (∀ rest : list string,
       normalizeGoTestArgsForDelve ("-v" :: rest)
       = "-test.v" :: normalizeGoTestArgsForDelve rest
       ∧ normalizeGoTestArgsForDelve ("-count" :: rest)
         = normalizeGoTestArgsForDelve rest)
  ∧ (∀ (arg : string) (rest : list string),
       arg ≠ "-v" → arg ≠ "-count" → HasPrefix arg "-count=" = false →
       normalizeGoTestArgsForDelve (arg :: rest)
       = arg :: normalizeGoTestArgsForDelve rest).
Proof.
  split.
  { eapply Forall_impl; [apply normalizeGoTestArgsForDelve_clean|].
    intros a Ha. unfold rewrittenForDelve in Ha.
    apply orb_false_iff in Ha as [[Hv Hc]%orb_false_iff Hp].
    by apply String.eqb_neq in Hv, Hc. }
  split.
  { apply normalizeGoTestArgsForDelve_fixed, normalizeGoTestArgsForDelve_clean. }
  split; [apply normalizeGoTestArgsForDelve_length|].
  split.
  { intros n rest.
    change ("-count=" +:+ n)
      with (String "-" (String "c" (String "o" (String "u" (String "n"
              (String "t" (String "=" n))))))).
    unfold normalizeGoTestArgsForDelve at 1; fold normalizeGoTestArgsForDelve.
    rewrite TrimPrefix_dash. by destruct n. }
  split; [done|].
  intros arg rest Hv%String.eqb_neq Hc%String.eqb_neq Hp.
  apply normalizeGoTestArgsForDelve_keep. unfold rewrittenForDelve.
  by rewrite Hv, Hc, Hp.
Qed.

Example delve_arguments_example :
  normalizeGoTestArgsForDelve ["-v"; "-count=3"; "-count"; "-race"; "-count"; "2"]
  = ["-test.v"; "-test.count=3"; "-race"; "2"].
Proof. reflexivity. Qed.

Lemma sanitizeDiscoveryGoTestArgs_cons (arg : string) (rest : list string) :
  sanitizeDiscoveryGoTestArgs (arg :: rest)
  = if controlsDiscovery arg then sanitizeDiscoveryGoTestArgs rest
    else arg :: sanitizeDiscoveryGoTestArgs rest.
Proof.
  unfold controlsDiscovery. simpl.
  destruct (String.eqb arg "-json"), (String.eqb arg "-run"),
    (HasPrefix arg "-run="), (String.eqb arg "-list"),
    (HasPrefix arg "-list="), (String.eqb arg "-timeout"),
    (HasPrefix arg "-timeout="), (String.eqb arg "-count"),
    (HasPrefix arg "-count="); reflexivity.
Qed.

Lemma sanitizeDiscoveryGoTestArgs_filter (args : list string) :
  sanitizeDiscoveryGoTestArgs args
  = filter (λ a, controlsDiscovery a = false) args.
Proof.
  induction args as [|arg rest IH]; [done|].
  rewrite sanitizeDiscoveryGoTestArgs_cons, filter_cons, IH.
  by destruct (controlsDiscovery arg).
Qed.

(** X10.  The sanitizing takes out the arguments [-json], [-run],
    [-list], [-timeout] and [-count] and the arguments that begin with
    [-run=], [-list=], [-timeout=] or [-count=], and nothing else: none
    of them survives, every other argument does, in the order given, and
    sanitizing again changes nothing.  (An argument such as [-json=true],
    and the value that followed a removed flag as a separate argument,
    are arguments like any other and are kept.) *)
Theorem discovery_arguments_are_sanitized (args : list string) :
  Forall (λ a, controlsDiscovery a = false) (sanitizeDiscoveryGoTestArgs args)
  ∧ sanitizeDiscoveryGoTestArgs args `sublist_of` args
  ∧ (∀ a : string,
       a ∈ args → controlsDiscovery a = false →
       a ∈ sanitizeDiscoveryGoTestArgs args)
  ∧ sanitizeDiscoveryGoTestArgs (sanitizeDiscoveryGoTestArgs args)
    = sanitizeDiscoveryGoTestArgs args.
Proof.
  rewrite !sanitizeDiscoveryGoTestArgs_filter. split.
  { apply Forall_forall. intros a Ha. by apply list_elem_of_filter in Ha as [? _]. }
  split; [apply sublist_filter|]. split.
  { intros a Ha Hok. by apply list_elem_of_filter. }
  apply filter_Forall_id, Forall_forall.
  intros a Ha. by apply list_elem_of_filter in Ha as [? _].
Qed.

Example discovery_arguments_example :
  sanitizeDiscoveryGoTestArgs
    ["-v"; "-run"; "TestX"; "-count=5"; "-race"; "-json"; "-timeout=1s"; "--run=Y"]
  = ["-v"; "TestX"; "-race"; "--run=Y"]
  ∧ sanitizeDiscoveryGoTestArgs ["-count"; "2"; "-json=true"; "-list=.*"]
    = ["2"; "-json=true"].
Proof. split; reflexivity. Qed.

Section Timeout.
Context {unicode : Unicode} {time : Time}.

Lemma strings_TrimSpace_empty : strings_TrimSpace EmptyString = EmptyString.
Proof. reflexivity. Qed.

Lemma strings_TrimSpace_30s : strings_TrimSpace "30s" = "30s".
Proof. reflexivity. Qed.

(** X11.  A resolved discovery timeout is positive; a flag that is not
    blank decides it whatever the configuration says; and when the flag
    and the configuration are both blank the timeout is resolved as for
    the configured value [30s]. *)
Theorem resolved_timeout_is_positive (fromEnv fromFlag : string) :
  (∀ timeout : Z,
     resolveSubtestTimeout fromEnv fromFlag = Ok timeout → (0 < timeout)%Z)
  ∧ (strings_TrimSpace fromFlag ≠ EmptyString →
     ∀ otherEnv : string,
       resolveSubtestTimeout fromEnv fromFlag
       = resolveSubtestTimeout otherEnv fromFlag)
  ∧ (strings_TrimSpace fromFlag = EmptyString →
     strings_TrimSpace fromEnv = EmptyString →
     resolveSubtestTimeout fromEnv fromFlag
     = resolveSubtestTimeout "30s" EmptyString).
Proof.
  unfold resolveSubtestTimeout. split; [|split].
  - intros timeout.
    destruct (time_ParseDuration _) as [t|]; [|discriminate].
    destruct (t <=? 0)%Z eqn:Ht; [discriminate|]. intros [= <-].
    by apply Z.leb_gt.
  - intros Hflag otherEnv.
    destruct (String.eqb_spec (strings_TrimSpace fromFlag) EmptyString); done.
  - intros -> ->. by rewrite strings_TrimSpace_empty, strings_TrimSpace_30s.
Qed.

End Timeout.

(** ** Names: merging, counting, intersecting, extracting *)

Lemma mergeUnique_loop_NoDup (names : list string) (seen : gset string)
    (merged : list string) :
  (∀ n : string, n ∈ seen ↔ n ∈ merged) → NoDup merged →
  NoDup (mergeUnique_loop names seen merged).2
  ∧ merged `prefix_of` (mergeUnique_loop names seen merged).2.
Proof.
  revert seen merged. induction names as [|t rest IH];
    intros seen merged Hseen Hnodup; simpl; [done|].
  case_bool_decide as Ht; [by apply IH|].
  destruct (IH ({[t]} ∪ seen) (merged ++ [t])) as [IH1 IH2].
  - intros n. rewrite elem_of_union, elem_of_singleton, elem_of_app.
    rewrite list_elem_of_singleton, Hseen. naive_solver.
  - apply NoDup_app. split; [done|]. split; [|apply NoDup_singleton].
    intros x Hx ->%list_elem_of_singleton. apply Ht. by apply Hseen.
  - split; [done|]. etrans; [|exact IH2]. by apply prefix_app_r.
Qed.

(** Distinct names that are all new are appended as they are. *)
Lemma mergeUnique_loop_fresh (names : list string) (seen : gset string)
    (merged : list string) :
  NoDup names → (∀ n : string, n ∈ names → n ∉ seen) →
  (mergeUnique_loop names seen merged).2 = merged ++ names.
Proof.
  revert seen merged. induction names as [|t rest IH];
    intros seen merged Hnodup Hfresh; simpl; [by rewrite app_nil_r|].
  apply NoDup_cons in Hnodup as [Ht Hnodup].
  rewrite bool_decide_eq_false_2 by (apply Hfresh; left).
  rewrite IH, <- app_assoc; [done|done|].
  intros n Hn. rewrite elem_of_union, elem_of_singleton.
  intros [->|Hin]; [done|]. apply (Hfresh n); [by right|done].
Qed.

(** X12.  The merged names hold no name twice and hold exactly the names
    of the two lists; the names of the base come first, and when the base
    holds no name twice it is the beginning of the result as it is. *)
Theorem merged_names_are_unique (base extra : list string) :
  NoDup (mergeUniqueTests base extra)
  ∧ (∀ name : string,
       name ∈ mergeUniqueTests base extra ↔ name ∈ base ∨ name ∈ extra)
  ∧ mergeUniqueTests base [] `prefix_of` mergeUniqueTests base extra
  ∧ (NoDup base → mergeUniqueTests base [] = base).
Proof.
  unfold mergeUniqueTests.
  pose proof (mergeUnique_loop_spec base ∅ []) as Hspec.
  pose proof (mergeUnique_loop_NoDup base ∅ []) as Hnd.
  pose proof (mergeUnique_loop_fresh base ∅ []) as Hfresh.
  destruct (mergeUnique_loop base ∅ []) as [seen merged]. simpl in *.
  destruct Hspec as [Hseen Hmerged].
  { intros n. rewrite elem_of_nil. set_solver. }
  destruct Hnd as [Hnd1 _]; [intros n; rewrite elem_of_nil; set_solver
                            |constructor|].
  pose proof (mergeUnique_loop_spec extra seen merged Hseen) as Hspec'.
  pose proof (mergeUnique_loop_NoDup extra seen merged Hseen Hnd1) as Hnd'.
  destruct (mergeUnique_loop extra seen merged) as [seen' merged'].
  simpl in *. destruct Hspec' as [_ Hmerged']. destruct Hnd' as [Hnd2 Hpre].
  split; [done|]. split.
  { intros name. rewrite Hmerged', Hmerged, elem_of_nil. naive_solver. }
  split; [done|]. intros Hbase. apply Hfresh; [done|]. set_solver.
Qed.

Lemma count_and_merge_agree (baseSet : gset string) (candidates : list string)
    (seenMerged seenCount : gset string) (merged : list string) (count : nat) :
  seenMerged = baseSet ∪ seenCount →
  length (mergeUnique_loop candidates seenMerged merged).2 + count
  = length merged
    + countUniqueNotInBase_loop baseSet candidates seenCount count.
Proof.
  revert seenMerged seenCount merged count.
  induction candidates as [|name rest IH];
    intros seenMerged seenCount merged count Hseen; simpl; [lia|].
  destruct (decide (name ∈ seenCount)) as [Hc|Hc].
  - rewrite (bool_decide_eq_true_2 (name ∈ seenCount)) by done.
    rewrite bool_decide_eq_true_2 by set_solver. by apply IH.
  - rewrite (bool_decide_eq_false_2 (name ∈ seenCount)) by done.
    destruct (decide (name ∈ baseSet)) as [Hb|Hb].
    + rewrite bool_decide_eq_true_2 by set_solver.
      rewrite (bool_decide_eq_true_2 (name ∈ baseSet)) by done.
      apply IH. set_solver.
    + rewrite bool_decide_eq_false_2 by set_solver.
      rewrite (bool_decide_eq_false_2 (name ∈ baseSet)) by done.
      rewrite (IH ({[name]} ∪ seenMerged) ({[name]} ∪ seenCount)
                 (merged ++ [name]) count) by set_solver.
      rewrite length_app. simpl.
      assert (∀ (cs : list string) (s : gset string) (c : nat),
                countUniqueNotInBase_loop baseSet cs s (S c)
                = S (countUniqueNotInBase_loop baseSet cs s c)) as Hshift.
      { clear. induction cs as [|x cs IHcs]; intros s c; simpl; [done|].
        case_bool_decide; [done|]. by case_bool_decide. }
      rewrite Hshift. lia.
Qed.

(** X13.  The count of new names that the summary prints is the number of
    names by which merging the discovered names lengthens the list of the
    base names. *)
Theorem new_names_count_is_growth (base candidates : list string) :
  length (mergeUniqueTests base candidates)
  = length (mergeUniqueTests base []) + countUniqueNotInBase base candidates.
Proof.
  unfold mergeUniqueTests, countUniqueNotInBase.
  pose proof (mergeUnique_loop_spec base ∅ []) as Hspec.
  destruct (mergeUnique_loop base ∅ []) as [seen merged]. simpl.
  destruct Hspec as [Hseen Hmerged].
  { intros n. rewrite elem_of_nil. set_solver. }
  pose proof (count_and_merge_agree (list_to_set base) candidates seen ∅
                merged 0) as Hagree.
  destruct (mergeUnique_loop candidates seen merged) as [seen' merged'].
  simpl in *. rewrite <- Hagree; [lia|].
  apply set_eq. intros n. rewrite Hseen, Hmerged, elem_of_nil.
  rewrite elem_of_union, elem_of_list_to_set. set_solver.
Qed.

Lemma intersectTests_filter (fileTests : list string) (listed : gset string) :
  intersectTests fileTests listed = filter (λ name, name ∈ listed) fileTests.
Proof.
  induction fileTests as [|name rest IH]; [done|]. simpl.
  rewrite filter_cons, IH. by case_bool_decide; case_decide.
Qed.

(** X14.  The intersection keeps the names of the file in their order and
    adds no repetition; it holds exactly the names of the file that are
    listed, and intersecting again with the same list changes nothing. *)
Theorem intersection_keeps_file_order (fileTests : list string)
    (listed : gset string) :
  intersectTests fileTests listed `sublist_of` fileTests
  ∧ (NoDup fileTests → NoDup (intersectTests fileTests listed))
  ∧ (∀ name : string,
       name ∈ intersectTests fileTests listed
       ↔ name ∈ fileTests ∧ name ∈ listed)
  ∧ intersectTests (intersectTests fileTests listed) listed
    = intersectTests fileTests listed.
Proof.
  rewrite !intersectTests_filter. split; [apply sublist_filter|].
  split; [apply NoDup_filter|]. split.
  { intros name. rewrite list_elem_of_filter. naive_solver. }
  apply filter_Forall_id, Forall_forall.
  intros name Hname. by apply list_elem_of_filter in Hname as [? _].
Qed.

Lemma findTests_loop_spec (matches : string → bool) (decls : list decl)
    (seen : gset string) (names : list string) :
  (∀ n : string, n ∈ seen ↔ n ∈ names) → NoDup names →
  NoDup (findTests_loop matches decls seen names)
  ∧ names `prefix_of` findTests_loop matches decls seen names
  ∧ (∀ n : string,
       n ∈ findTests_loop matches decls seen names
       ↔ n ∈ names ∨ n ∈ matchingFunctions matches decls).
Proof.
  revert seen names. induction decls as [|d rest IH];
    intros seen names Hseen Hnodup; simpl.
  { split; [done|]. split; [done|]. intros n. rewrite elem_of_nil. naive_solver. }
  destruct d as [name [|]|]; [by apply IH| |by apply IH].
  destruct (matches name) eqn:Hm; simpl; [|by apply IH].
  case_bool_decide as Hin.
  - destruct (IH seen names Hseen Hnodup) as (IH1 & IH2 & IH3).
    split; [done|]. split; [done|]. intros n. rewrite IH3, elem_of_cons.
    split; [naive_solver|]. intros [?|[->|?]]; [by left| |by right].
    left. by apply Hseen.
  - destruct (IH ({[name]} ∪ seen) (names ++ [name])) as (IH1 & IH2 & IH3).
    + intros n. rewrite elem_of_union, elem_of_singleton, elem_of_app.
      rewrite list_elem_of_singleton, Hseen. naive_solver.
    + apply NoDup_app. split; [done|]. split; [|apply NoDup_singleton].
      intros x Hx ->%list_elem_of_singleton. apply Hin. by apply Hseen.
    + split; [done|]. split; [etrans; [|exact IH2]; by apply prefix_app_r|].
      intros n. rewrite IH3, elem_of_app, list_elem_of_singleton, elem_of_cons.
      naive_solver.
Qed.

(** The first occurrences, in order, form a subsequence. *)
Lemma findTests_loop_sublist (matches : string → bool) (decls : list decl)
    (seen : gset string) (names : list string) :
  ∃ found : list string,
    findTests_loop matches decls seen names = names ++ found
    ∧ found `sublist_of` matchingFunctions matches decls.
Proof.
  revert seen names. induction decls as [|d rest IH]; intros seen names; simpl.
  { exists []. by rewrite app_nil_r. }
  destruct d as [name [|]|]; [by apply IH| |by apply IH].
  destruct (matches name) eqn:Hm; simpl; [|by apply IH].
  case_bool_decide as Hin.
  - destruct (IH seen names) as (found & -> & Hsub). exists found.
    split; [done|]. by apply sublist_cons.
  - destruct (IH ({[name]} ∪ seen) (names ++ [name])) as (found & -> & Hsub).
    exists (name :: found). split; [by rewrite <- app_assoc|].
    by apply sublist_skip.
Qed.

Section Extractor.
Context {goparser : GoParser}.

(** X15.  The names extracted from a file that parses hold no name twice,
    stand in the order of their declarations, and are exactly the names
    of the functions without a receiver that match the pattern; a file
    that does not parse gives no names but the error. *)
Theorem extracted_names_are_distinct_functions (path : string)
    (matches : string → bool) :
  match parser_ParseFile path with
  | None => findTestsInFile path matches = None
  | Some decls =>
    ∃ names : list string,
      findTestsInFile path matches = Some names
      ∧ NoDup names
      ∧ names `sublist_of` matchingFunctions matches decls
      ∧ ∀ n : string, n ∈ names ↔ n ∈ matchingFunctions matches decls
  end.
Proof.
  unfold findTestsInFile. destruct (parser_ParseFile path) as [decls|]; [|done].
  eexists. split; [done|].
  destruct (findTests_loop_spec matches decls ∅ []) as (Hnd & _ & Hin).
  { intros n. rewrite elem_of_nil. set_solver. }
  { constructor. }
  split; [done|]. split.
  - destruct (findTests_loop_sublist matches decls ∅ []) as (found & -> & Hsub).
    done.
  - intros n. rewrite Hin, elem_of_nil. naive_solver.
Qed.

End Extractor.

(** Scenario 1, the extraction: the method and the helper are left out and
    the repeated declaration counts once. *)
Example extract_sample_file :
  @findTestsInFile sampleParser "a_test.go" (λ name, HasPrefix name "Test")
  = Some ["TestAlpha"; "TestBeta"].
Proof. vm_compute. reflexivity. Qed.

(** ** Listing, selectors and the selection *)

Lemma identifier_byte_is_ordinary (c : ascii) :
  isLetter c || isDigit c = true →
  special c = false ∧ Ascii.eqb c "/" = false.
Proof.
  destruct c as [[] [] [] [] [] [] [] []]; vm_compute; intros H;
    (split; [done|done]) || discriminate H.
Qed.

Lemma ordinary_bytes_unquoted (s : string) :
  forallb (λ d, isLetter d || isDigit d) (list_ascii_of_string s) = true →
  QuoteMeta s = s ∧ contains_byte "/" s = false.
Proof.
  induction s as [|c s IH]; [done|]. simpl.
  intros [Hc Hs]%andb_true_iff.
  destruct (identifier_byte_is_ordinary c Hc) as [-> ->].
  destruct (IH Hs) as [-> ->]. done.
Qed.

Lemma identifier_unquoted (name : string) :
  identPattern_MatchString name = true →
  QuoteMeta name = name ∧ contains_byte "/" name = false.
Proof.
  destruct name as [|c rest]; [done|]. unfold identPattern_MatchString.
  intros [Hc Hrest]%andb_true_iff. apply (ordinary_bytes_unquoted (String c rest)).
  simpl. rewrite Hrest, andb_true_r. by rewrite Hc.
Qed.

Section Listing.
Context {unicode : Unicode} {fields : UnicodeFields} {exec : Exec}.

Lemma listTests_loop_spec (lines : list string) (names : gset string)
    (name : string) :
  name ∈ listTests_loop lines names ↔
  name ∈ names ∨ ∃ text : string, text ∈ lines ∧ lists_test text name.
Proof.
  revert names. induction lines as [|text rest IH]; intros names; simpl.
  - split; [by left|]. intros [?|(text & []%elem_of_nil & _)]. done.
  - assert (∀ P : Prop,
             ¬ lists_test text name →
             (P ∨ (∃ t : string, t ∈ rest ∧ lists_test t name)) ↔
             (P ∨ ∃ t : string, t ∈ text :: rest ∧ lists_test t name))
      as Hskip.
    { intros P Hno. split.
      - intros [?|(t & Ht & Hr)]; [by left|right]. exists t.
        split; [by right|done].
      - intros [?|(t & Ht & Hr)]; [by left|].
        apply elem_of_cons in Ht as [->|Ht]; [done|]. right. by exists t. }
    destruct (_ || _ || _ || _ || _) eqn:Hbanner.
    { rewrite IH. apply Hskip. unfold lists_test. intros [Hb _]. congruence. }
    destruct (strings_Fields (strings_TrimSpace text)) as [|first others]
      eqn:Hfields.
    { rewrite IH. apply Hskip. unfold lists_test. rewrite Hfields.
      by intros (_ & [=] & _). }
    destruct (identPattern_MatchString first) eqn:Hident; simpl.
    2:{ rewrite IH. apply Hskip. unfold lists_test. rewrite Hfields. simpl.
        intros (_ & [= ->] & Hid). congruence. }
    rewrite IH, elem_of_union, elem_of_singleton. split.
    + intros [[->|?]|(t & Ht & Hr)].
      * right. exists text. split; [by left|]. unfold lists_test.
        by rewrite Hfields.
      * by left.
      * right. exists t. split; [by right|done].
    + intros [?|(t & Ht & Hr)]; [by left; right|].
      apply elem_of_cons in Ht as [->|Ht].
      * left. left. unfold lists_test in Hr. rewrite Hfields in Hr.
        simpl in Hr. by destruct Hr as (_ & [= ->] & _).
      * right. by exists t.
Qed.

(** X16.  The listing gives names only when the toolchain exits without
    error and the output scans; the names are then the identifiers that
    stand first on a line that is neither blank nor a status line.  Such
    a name needs no quoting, so its run-selector is the name between the
    anchors. *)
Theorem listed_names_are_identifiers (goBinary packageDir listRegex : string)
    (names : gset string) :
  listTestsWithGo goBinary packageDir listRegex = inr names →
  let run := exec_CombinedOutput goBinary ["test"; "-list"; listRegex; "."]
               packageDir in
  run.2 = None
  ∧ (scanLines run.1).2 = false
  ∧ (∀ name : string,
       name ∈ names ↔
       ∃ text : string, text ∈ (scanLines run.1).1 ∧ lists_test text name)
  ∧ (∀ name : string,
       name ∈ names →
       identPattern_MatchString name = true
       ∧ runPatternForTestName name = "^" +:+ name +:+ "$").
Proof.
  intros Hlist run. unfold listTestsWithGo in Hlist. fold run in Hlist.
  destruct run as [out [exit|]]; [discriminate|]. simpl.
  destruct (scanLines out) as [lines scanErr]. simpl.
  destruct scanErr; [discriminate|]. injection Hlist as <-.
  split; [done|]. split; [done|].
  assert (∀ name : string,
            name ∈ listTests_loop lines ∅ ↔
            ∃ text : string, text ∈ lines ∧ lists_test text name) as Hnames.
  { intros name. rewrite listTests_loop_spec. split; [|by right].
    by intros [?%elem_of_empty|?]. }
  split; [done|]. intros name (text & _ & _ & _ & Hident)%Hnames.
  split; [done|]. destruct (identifier_unquoted name Hident) as [Hq Hflat].
  rewrite runPatternForTestName_segments, Split_flat by done.
  simpl. unfold anchored. by rewrite Hq.
Qed.

End Listing.

Lemma listed_names_are_identifiers_witness :
  @listTestsWithGo sampleUnicode sampleUnicodeFields
    (scriptedExec sampleListing None) "go" "." "^Test" = inr {["TestAlpha"]}
  ∧ runPatternForTestName "TestAlpha" = "^TestAlpha$".
Proof.
  assert (@listTestsWithGo sampleUnicode sampleUnicodeFields
            (scriptedExec sampleListing None) "go" "." "^Test"
          = inr {["TestAlpha"]}) as Hlist.
  { vm_compute. reflexivity. }
  split; [exact Hlist|].
  destruct (@listed_names_are_identifiers sampleUnicode sampleUnicodeFields
              (scriptedExec sampleListing None) "go" "." "^Test"
              {["TestAlpha"]} Hlist) as (_ & _ & _ & Hsel).
  apply (Hsel "TestAlpha"). by apply elem_of_singleton.
Defined.

(** A failing listing gives the error, whatever it printed. *)
Example listing_fails :
  @listTestsWithGo sampleUnicode sampleUnicodeFields
    (scriptedExec sampleListing (Some "exit status 1")) "go" "." "^Test"
  = inl (ErrListFailed "." "exit status 1"
           (list_ascii_of_string
              ("TestAlpha" +:+ newline +:+ "ok  	example.com/pkg	0.003s"))).
Proof. vm_compute. reflexivity. Qed.

Lemma anchored_inj (a b : string) : anchored a = anchored b → a = b.
Proof.
  intros Heq. apply (f_equal anchored_literal) in Heq.
  rewrite !anchored_literal_anchored in Heq. by injection Heq.
Qed.

(** X17.  Different test names have different run-selectors. *)
Theorem run_selector_is_injective (name1 name2 : string) :
  runPatternForTestName name1 = runPatternForTestName name2 → name1 = name2.
Proof.
  rewrite !runPatternForTestName_segments. intros Heq.
  apply (f_equal (λ s, Split s "/"%char)) in Heq.
  assert (∀ name : string,
            Split (Join (anchored <$> Split name "/"%char) "/") "/"%char
            = anchored <$> Split name "/"%char) as Hsplit.
  { intros name. apply Split_Join.
    - pose proof (Split_nonempty name "/"). by destruct (Split name "/").
    - apply Forall_fmap. eapply Forall_impl; [apply Split_no_sep|].
      intros seg. apply anchored_no_slash. }
  rewrite !Hsplit in Heq.
  apply (f_equal (mapM anchored_literal)) in Heq.
  rewrite !mapM_anchored_literal in Heq. injection Heq as Heq.
  by eapply Split_inj.
Qed.

Lemma run_selector_is_injective_witness : "Outer/Inner" = "Outer/Inner".
Proof.
  apply (run_selector_is_injective "Outer/Inner" "Outer/Inner"). reflexivity.
Defined.

(** X18.  The selector of the discovery run does not depend on the order
    in which the top-level names are given; for one name without a slash
    it is the run-selector of that name. *)
Theorem discovery_selector_ignores_order (names names' : list string) :
  (names ≡ₚ names' →
   buildTopLevelRunPattern names = buildTopLevelRunPattern names')
  ∧ (∀ name : string,
       contains_byte "/" name = false →
       buildTopLevelRunPattern [name] = runPatternForTestName name).
Proof.
  split.
  - intros Hperm. pose proof (Permutation_length Hperm) as Hlen.
    assert (sort_Strings (map QuoteMeta names)
            = sort_Strings (map QuoteMeta names')) as Hsorted.
    { apply sort_Strings_unique; [apply sort_Strings_Sorted|].
      rewrite sort_Strings_Permutation. by apply Permutation_map. }
    destruct names as [|a [|b names]], names' as [|a' [|b' names']];
      try discriminate Hlen.
    + done.
    + by apply Permutation_singleton_l in Hperm as [= ->].
    + unfold buildTopLevelRunPattern. by rewrite Hsorted.
  - intros name Hflat.
    by rewrite runPatternForTestName_segments, Split_flat by done.
Qed.

Lemma NoDup_mergeUniqueTests (base extra : list string) :
  NoDup (mergeUniqueTests base extra).
Proof.
  unfold mergeUniqueTests.
  pose proof (mergeUnique_loop_spec base ∅ []) as Hspec.
  pose proof (mergeUnique_loop_NoDup base ∅ []) as Hnd.
  destruct (mergeUnique_loop base ∅ []) as [seen merged]. simpl in *.
  destruct Hspec as [Hseen _].
  { intros n. rewrite elem_of_nil. set_solver. }
  destruct Hnd as [Hnd _]; [intros n; rewrite elem_of_nil; set_solver
                           |constructor|].
  pose proof (mergeUnique_loop_NoDup extra seen merged Hseen Hnd) as Hnd'.
  destruct (mergeUnique_loop extra seen merged) as [seen' merged'].
  by destruct Hnd' as [? _].
Qed.

Section Selection.
Context {json : JSON} {unicode : Unicode} {exec : Exec} {time : Time}.

(** X19.  When the names extracted from the file hold no name twice, or
    when subtests are discovered, the selected names hold no name twice,
    and so no two entries generated for them, tasks or debug
    configurations, share a label. *)
Theorem selection_gives_distinct_labels (cfg : Config) (discoverSubtests : bool)
    (subtestTimeout packageDir : string) (allExtraGoTestArgs : list string)
    (testsInFile : list string) (testsListedByGo : gset string)
    (selected : list string) (pkgArg relFilePath : string) :
  selectedTests cfg discoverSubtests subtestTimeout packageDir
    allExtraGoTestArgs testsInFile testsListedByGo = Ok selected →
  discoverSubtests = true ∨ NoDup testsInFile →
  NoDup selected
  ∧ labels_unique
      (makeGeneratedTasks selected pkgArg relFilePath cfg allExtraGoTestArgs)
  ∧ labels_unique
      (makeGeneratedDebugConfigs selected pkgArg relFilePath cfg
         allExtraGoTestArgs).
Proof.
  intros Hsel Hcase.
  assert (NoDup selected) as Hnodup.
  { unfold selectedTests in Hsel. destruct discoverSubtests.
    - destruct (resolveSubtestTimeout _ _) as [timeout|e]; [|discriminate].
      destruct (discoverSubtestsWithGo _ _ _ _ _) as [discovered|e];
        [|discriminate].
      injection Hsel as <-. rewrite sort_Strings_Permutation.
      apply NoDup_mergeUniqueTests.
    - destruct Hcase as [|Hfile]; [discriminate|]. injection Hsel as <-.
      unfold runnableTests. rewrite sort_Strings_Permutation.
      rewrite intersectTests_filter. by apply NoDup_filter. }
  split; [done|]. split.
  - by eapply prefixed_labels_distinct; [apply makeGeneratedTasks_label_of|].
  - by eapply prefixed_labels_distinct;
      [apply makeGeneratedDebugConfigs_label_of|].
Qed.

(** X20.  The discovered names depend on which lines the event stream
    holds, not on their order or on how often a line occurs. *)
Theorem discovery_ignores_event_order (output1 output2 : list ascii) :
  (scanLines output1).2 = false → (scanLines output2).2 = false →
  (∀ text : string,
     text ∈ (scanLines output1).1 ↔ text ∈ (scanLines output2).1) →
  parseRunEventsFromGoTestJSON output1 = parseRunEventsFromGoTestJSON output2.
Proof.
  unfold parseRunEventsFromGoTestJSON.
  destruct (scanLines output1) as [lines1 err1].
  destruct (scanLines output2) as [lines2 err2]. simpl.
  intros -> -> Hlines. do 3 f_equal. apply set_eq. intros name.
  rewrite !parseRunEvents_loop_spec. split.
  - intros [?|(text & Ht & Hr)]; [by left|]. right. exists text.
    split; [by apply Hlines|done].
  - intros [?|(text & Ht & Hr)]; [by left|]. right. exists text.
    split; [by apply Hlines|done].
Qed.

End Selection.

Lemma selection_gives_distinct_labels_witness :
  NoDup ["TestAlpha"; "TestAlpha/case1"]
  ∧ labels_unique
      (makeGeneratedTasks ["TestAlpha"; "TestAlpha/case1"] "." "a_test.go"
         defaultConfig [])
  ∧ labels_unique
      (makeGeneratedDebugConfigs ["TestAlpha"; "TestAlpha/case1"] "."
         "a_test.go" defaultConfig []).
Proof.
  apply (@selection_gives_distinct_labels sampleJSON sampleUnicode
           (scriptedExec sampleEventStream None) sampleTime
           defaultConfig true EmptyString "." [] ["TestAlpha"; "TestBeta"]
           {["TestAlpha"]} ["TestAlpha"; "TestAlpha/case1"] "." "a_test.go").
  - vm_compute. reflexivity.
  - left. reflexivity.
Defined.

Lemma discovery_ignores_event_order_witness :
  @parseRunEventsFromGoTestJSON sampleJSON sampleUnicode
    (list_ascii_of_string
       (eventLine "run" "TestB" +:+ newline +:+ eventLine "run" "TestA"
        +:+ newline))
  = @parseRunEventsFromGoTestJSON sampleJSON sampleUnicode
      (list_ascii_of_string
         (eventLine "run" "TestA" +:+ newline +:+ eventLine "run" "TestB"
          +:+ newline +:+ eventLine "run" "TestA")).
Proof.
  apply (@discovery_ignores_event_order sampleJSON sampleUnicode).
  - vm_compute. reflexivity.
  - vm_compute. reflexivity.
  - intros text.
    repeat match goal with
           | |- context [scanLines ?out] =>
             let lines := eval vm_compute in (scanLines out) in
             change (scanLines out) with lines
           end.
    simpl. rewrite !elem_of_cons, !elem_of_nil. tauto.
Defined.

(** ** Further properties of the relaxed-document parser *)

Lemma render_app (ks ks' : list chunk) :
  render (ks ++ ks') = render ks ++ render ks'.
Proof. unfold render. by rewrite map_app, concat_app. Qed.

Lemma wf_chunks_app_r (ks ks' : list chunk) :
  wf_chunks (ks ++ ks') = true → wf_chunks ks' = true.
Proof.
  induction ks as [|k ks IH]; [done|].
  destruct k as [c|body|text|text|text]; simpl.
  - by intros [_ ?]%andb_true_iff; apply IH.
  - by intros [_ ?]%andb_true_iff; apply IH.
  - by intros [_ ?]%andb_true_iff; apply IH.
  - by intros [_ ?]%andb_true_iff; apply IH.
  - intros [_ Hlast]%andb_true_iff. destruct ks, ks'; done.
Qed.

Lemma opens_no_comment_head (c : ascii) (l l' : list ascii) :
  head l = head l' → opens_no_comment c l = opens_no_comment c l'.
Proof.
  unfold opens_no_comment. destruct l, l'; simpl; try done.
  by intros [= ->].
Qed.

(** The scan of a well-formed run of chunks that is followed by more
    input, where the input goes on as a chunk [k] would. *)
Lemma scan_chunks_then (ks : list chunk) (k : chunk) (tail out : list ascii) :
  wf_chunks (ks ++ [k]) = true →
  head tail = head (render_chunk k) →
  stripJSONComments_loop (render ks ++ tail) scanCode out =
  stripJSONComments_loop tail scanCode
    (out ++ render (concat (map uncomment ks))).
Proof.
  intros Hwf Htail. revert out Hwf.
  induction ks as [|k' ks IH]; intros out Hwf.
  - simpl. by rewrite app_nil_r.
  - change (render (k' :: ks)) with (render_chunk k' ++ render ks).
    rewrite <- app_assoc.
    destruct k' as [c|body|text|text|text]; simpl in Hwf.
    + apply andb_true_iff in Hwf as [[Hq%negb_true_iff Hopen]%andb_true_iff Hwf].
      rewrite scan_plain; [|done|].
      * rewrite IH by done. simpl map. simpl concat.
        change (render (Plain c :: concat (map uncomment ks)))
          with (c :: render (concat (map uncomment ks))).
        by rewrite <- app_assoc.
      * rewrite <- Hopen. apply opens_no_comment_head.
        rewrite render_app. unfold render at 3. simpl. rewrite app_nil_r.
        destruct (render ks); [done|done].
    + apply andb_true_iff in Hwf as [Hbody Hwf]. rewrite scan_string by done.
      rewrite IH by done. simpl map. simpl concat.
      change (render (StrLit body :: concat (map uncomment ks)))
        with (render_chunk (StrLit body) ++ render (concat (map uncomment ks))).
      by rewrite <- app_assoc.
    + apply andb_true_iff in Hwf as [Htext Hwf].
      rewrite scan_line_comment by done. rewrite IH by done.
      simpl map. simpl concat.
      change (render (Plain LF :: concat (map uncomment ks)))
        with (LF :: render (concat (map uncomment ks))).
      by rewrite <- app_assoc.
    + apply andb_true_iff in Hwf as [Htext Hwf].
      rewrite scan_block_comment by done. by rewrite IH by done.
    + apply andb_true_iff in Hwf as [_ Hlast]. by destruct ks.
Qed.

(** Inside a block comment that is not closed the scan stays there. *)
Lemma scan_block_open (text out : list ascii) :
  no_block_end text = true →
  stripJSONComments_loop text scanBlock out = (scanBlock, out).
Proof.
  induction text as [|c text IH]; [done|].
  intros Htext. destruct text as [|next text]; [done|].
  simpl in Htext.
  unfold stripJSONComments_loop at 1; fold stripJSONComments_loop.
  simpl inLineComment. simpl inBlockComment. cbv iota.
  destruct (Ascii.eqb c "*" && Ascii.eqb next "/"); [done|]. by apply IH.
Qed.

(** Inside a string that is not closed the scan stays there. *)
Lemma scan_string_open (body out : list ascii) :
  str_open body = true →
  ∃ (st : commentScan) (out' : list ascii),
    stripJSONComments_loop body scanString out = (st, out')
    ∧ inString st = true ∧ inBlockComment st = false.
Proof.
  assert (∀ (n : nat) (body out : list ascii),
            (length body ≤ n)%nat → str_open body = true →
            ∃ (st : commentScan) (out' : list ascii),
              stripJSONComments_loop body scanString out = (st, out')
              ∧ inString st = true ∧ inBlockComment st = false) as Hall.
  { clear body out.
    induction n as [|n IH]; intros [|c body] out Hlen Hbody; simpl in Hlen;
      try lia; try (by exists scanString, out).
    simpl in Hbody. simpl. destruct (Ascii.eqb c "\") eqn:Hc.
    - destruct body as [|d body]; [by eexists _, _|]. simpl.
      apply (IH body); [simpl in Hlen; lia|done].
    - destruct (Ascii.eqb c QUOTE) eqn:Hq; [done|].
      apply (IH body); [lia|done]. }
  intros Hbody. by apply (Hall (length body)).
Qed.

(** X21.  A document that ends inside a block comment, or inside a string
    literal, is rejected with the error of that case, whatever well-formed
    text comes before. *)
Theorem unterminated_input_is_rejected (ks : list chunk)
    (text body : list ascii) :
  (wf_chunks (ks ++ [BlockComment text]) = true →
   normalizeRelaxedJSON (render ks ++ "/"%char :: "*"%char :: text)
   = Err ErrUnterminatedBlockComment)
  ∧ (wf_chunks (ks ++ [StrLit []]) = true → str_open body = true →
     normalizeRelaxedJSON (render ks ++ QUOTE :: body)
     = Err ErrUnterminatedString).
Proof.
  split.
  - intros Hwf. unfold normalizeRelaxedJSON, stripJSONComments.
    rewrite (scan_chunks_then ks (BlockComment text)) by done.
    apply wf_chunks_app_r in Hwf. simpl in Hwf. rewrite andb_true_r in Hwf.
    simpl.
    change {| inString := false; inLineComment := false;
              inBlockComment := true; escape := false |} with scanBlock.
    by rewrite scan_block_open.
  - intros Hwf Hbody. unfold normalizeRelaxedJSON, stripJSONComments.
    rewrite (scan_chunks_then ks (StrLit [])) by done. simpl.
    change {| inString := true; inLineComment := false;
              inBlockComment := false; escape := false |} with scanString.
    destruct (scan_string_open body
                ((render (concat (map uncomment ks))) ++ [QUOTE]) Hbody)
      as (st & out' & -> & Hs & Hb).
    by rewrite Hb, Hs.
Qed.

Lemma unterminated_input_is_rejected_witness :
  normalizeRelaxedJSON (list_ascii_of_string "[1] /* open *")
  = Err ErrUnterminatedBlockComment
  ∧ normalizeRelaxedJSON
      (list_ascii_of_string "[/* c */ " ++ QUOTE :: list_ascii_of_string "a\")
    = Err ErrUnterminatedString.
Proof.
  split.
  - apply (proj1 (unterminated_input_is_rejected
                    [Plain "["; Plain "1"; Plain "]"; Plain " "]
                    (list_ascii_of_string " open *") [])).
    reflexivity.
  - apply (proj2 (unterminated_input_is_rejected
                    [Plain "["; BlockComment (list_ascii_of_string " c ");
                     Plain " "]
                    [] (list_ascii_of_string "a\"))).
    + reflexivity.
    + reflexivity.
Defined.

(** *** Stripping again *)

Lemma opens_no_comment_uncomment (c : ascii) (ks : list chunk) :
  opens_no_comment c (render ks) = true →
  opens_no_comment c (render (concat (map uncomment ks))) = true.
Proof.
  unfold opens_no_comment. destruct (Ascii.eqb c "/"); [|done].
  destruct ks as [|k ks]; [done|]. by destruct k.
Qed.

Lemma uncomment_wf (ks : list chunk) :
  wf_chunks ks = true → wf_chunks (concat (map uncomment ks)) = true.
Proof.
  induction ks as [|k ks IH]; [done|].
  destruct k as [c|body|text|text|text]; simpl.
  - intros [[-> Hopen]%andb_true_iff Hwf]%andb_true_iff.
    rewrite opens_no_comment_uncomment by done. by rewrite IH.
  - intros [-> Hwf]%andb_true_iff. by rewrite IH.
  - intros [_ Hwf]%andb_true_iff. by rewrite IH.
  - intros [_ Hwf]%andb_true_iff. by rewrite IH.
  - intros [_ Hlast]%andb_true_iff. by destruct ks.
Qed.

Lemma uncomment_fixed (ks : list chunk) :
  forallb comment_free ks = true → concat (map uncomment ks) = ks.
Proof.
  induction ks as [|k ks IH]; [done|].
  intros [Hk Hks]%comment_free_cons.
  destruct k; try done; simpl; by rewrite IH.
Qed.

Lemma stripJSONComments_accepts (data out : list ascii) :
  stripJSONComments data = Ok out →
  ∃ ks : list chunk,
    wf_chunks ks = true ∧ render ks = data
    ∧ out = render (concat (map uncomment ks)).
Proof.
  intros Hstrip. pose proof Hstrip as Hscan. unfold stripJSONComments in Hscan.
  destruct (stripJSONComments_loop data scanCode []) as [st' out'] eqn:Hloop.
  destruct (inBlockComment st') eqn:Hb; [discriminate|].
  destruct (inString st') eqn:Hs; [discriminate|].
  destruct (stripJSONComments_loop_accepts _ _ _ _ Hloop Hb Hs)
    as (ks & Hwf & <-).
  exists ks. split; [done|]. split; [done|].
  rewrite stripJSONComments_chunks in Hstrip by done. by injection Hstrip.
Qed.

(** X22.  What the comment pass returns holds no comment any more: the
    pass accepts its own result and gives it back unchanged. *)
Theorem comment_stripping_is_idempotent (data out : list ascii) :
  stripJSONComments data = Ok out → stripJSONComments out = Ok out.
Proof.
  intros (ks & Hwf & _ & ->)%stripJSONComments_accepts.
  rewrite stripJSONComments_chunks by by apply uncomment_wf.
  by rewrite uncomment_fixed by by apply uncomment_comment_free.
Qed.

Lemma comment_stripping_is_idempotent_witness :
  stripJSONComments (list_ascii_of_string "[1, /* two */ 3] // end")
  = Ok (list_ascii_of_string "[1,  3] ")
  ∧ stripJSONComments (list_ascii_of_string "[1,  3] ")
    = Ok (list_ascii_of_string "[1,  3] ").
Proof.
  assert (stripJSONComments (list_ascii_of_string "[1, /* two */ 3] // end")
          = Ok (list_ascii_of_string "[1,  3] ")) as Hfirst by reflexivity.
  split; [exact Hfirst|].
  exact (comment_stripping_is_idempotent _ _ Hfirst).
Defined.

(** The whole normalization is not idempotent: a comma that stood before
    a removed trailing comma becomes a trailing comma. *)
Example normalization_is_not_idempotent :
  normalizeRelaxedJSON (list_ascii_of_string "[1,,]")
  = Ok (list_ascii_of_string "[1,]")
  ∧ normalizeRelaxedJSON (list_ascii_of_string "[1,]")
    = Ok (list_ascii_of_string "[1]").
Proof. split; reflexivity. Qed.

(** *** The two passes only delete *)

Lemma stripJSONComments_loop_deletes (data : list ascii) (st : commentScan)
    (out : list ascii) :
  ∃ kept : list ascii,
    (stripJSONComments_loop data st out).2 = out ++ kept
    ∧ kept `sublist_of` data.
Proof.
  assert (∀ (n : nat) (data : list ascii) (st : commentScan) (out : list ascii),
            (length data ≤ n)%nat →
            ∃ kept : list ascii,
              (stripJSONComments_loop data st out).2 = out ++ kept
              ∧ kept `sublist_of` data) as Hall.
  { clear. induction n as [|n IH]; intros [|ch data] st out Hlen;
      simpl in Hlen; try lia;
      try (exists []; split; [simpl; by rewrite app_nil_r|done]).
    assert (∀ (st' : commentScan),
              ∃ kept : list ascii,
                (stripJSONComments_loop data st' (out ++ [ch])).2 = out ++ kept
                ∧ kept `sublist_of` ch :: data) as Hkeep.
    { intros st'. destruct (IH data st' (out ++ [ch]) ltac:(lia))
        as (kept & -> & Hsub).
      exists (ch :: kept). split; [by rewrite <- app_assoc|].
      by apply sublist_skip. }
    assert (∀ (st' : commentScan),
              ∃ kept : list ascii,
                (stripJSONComments_loop data st' out).2 = out ++ kept
                ∧ kept `sublist_of` ch :: data) as Hdrop.
    { intros st'. destruct (IH data st' out ltac:(lia)) as (kept & -> & Hsub).
      exists kept. split; [done|]. by apply sublist_cons. }
    assert (∀ (st' : commentScan) (next : ascii) (rest : list ascii),
              data = next :: rest →
              ∃ kept : list ascii,
                (stripJSONComments_loop rest st' out).2 = out ++ kept
                ∧ kept `sublist_of` ch :: next :: rest) as Hdrop2.
    { intros st' next rest ->.
      destruct (IH rest st' out ltac:(simpl in Hlen; lia))
        as (kept & -> & Hsub).
      exists kept. split; [done|]. by do 2 apply sublist_cons. }
    unfold stripJSONComments_loop; fold stripJSONComments_loop.
    destruct (inLineComment st).
    { destruct (Ascii.eqb ch LF); [apply Hkeep|apply Hdrop]. }
    destruct (inBlockComment st).
    { destruct data as [|next rest] eqn:Hdata; [apply Hdrop|].
      destruct (Ascii.eqb ch "*" && Ascii.eqb next "/");
        [by apply (Hdrop2 _ next rest)|apply Hdrop]. }
    destruct (inString st).
    { destruct (escape st); [apply Hkeep|].
      destruct (Ascii.eqb ch "\"); [apply Hkeep|].
      destruct (Ascii.eqb ch QUOTE); apply Hkeep. }
    destruct (Ascii.eqb ch QUOTE); [apply Hkeep|].
    destruct data as [|next rest] eqn:Hdata; [apply Hkeep|].
    destruct (Ascii.eqb ch "/" && Ascii.eqb next "/");
      [by apply (Hdrop2 _ next rest)|].
    destruct (Ascii.eqb ch "/" && Ascii.eqb next "*");
      [by apply (Hdrop2 _ next rest)|apply Hkeep]. }
  by apply (Hall (length data)).
Qed.

Lemma stripTrailingCommas_loop_deletes (data : list ascii) (inStr esc : bool)
    (out : list ascii) :
  ∃ kept : list ascii,
    stripTrailingCommas_loop data inStr esc out = out ++ kept
    ∧ kept `sublist_of` data
    ∧ filter (λ c, c ≠ ","%char) kept = filter (λ c, c ≠ ","%char) data.
Proof.
  revert inStr esc out. induction data as [|ch data IH]; intros inStr esc out.
  { exists []. simpl. by rewrite app_nil_r. }
  assert (∀ inStr' esc' : bool,
            ∃ kept : list ascii,
              stripTrailingCommas_loop data inStr' esc' (out ++ [ch])
              = out ++ kept
              ∧ kept `sublist_of` ch :: data
              ∧ filter (λ c, c ≠ ","%char) kept
                = filter (λ c, c ≠ ","%char) (ch :: data)) as Hkeep.
  { intros inStr' esc'.
    destruct (IH inStr' esc' (out ++ [ch])) as (kept & -> & Hsub & Hfilter).
    exists (ch :: kept). split; [by rewrite <- app_assoc|].
    split; [by apply sublist_skip|]. rewrite !filter_cons.
    by rewrite Hfilter. }
  simpl. destruct inStr.
  { destruct esc; [apply Hkeep|].
    destruct (Ascii.eqb ch "\"); [apply Hkeep|].
    destruct (Ascii.eqb ch QUOTE); apply Hkeep. }
  destruct (Ascii.eqb ch QUOTE); [apply Hkeep|].
  destruct (Ascii.eqb ch "," && closesAfterWhitespace data) eqn:Hcomma;
    [|apply Hkeep].
  apply andb_true_iff in Hcomma as [->%Ascii.eqb_eq _].
  destruct (IH false esc out) as (kept & -> & Hsub & Hfilter).
  exists kept. split; [done|]. split; [by apply sublist_cons|].
  by rewrite filter_cons_False by (intros H; by apply H).
Qed.

(** X23.  The normalization only deletes bytes: its result is the input
    with some bytes left out, in the same order. *)
Theorem normalization_only_deletes (data out : list ascii) :
  normalizeRelaxedJSON data = Ok out →
  out `sublist_of` data ∧ (length out ≤ length data)%nat.
Proof.
  unfold normalizeRelaxedJSON, stripJSONComments. intros Hnorm.
  assert (out `sublist_of` data) as Hsub.
  { destruct (stripJSONComments_loop_deletes data scanCode [])
      as (kept & Hkept & Hsub).
    destruct (stripJSONComments_loop data scanCode []) as [st' out'].
    simpl in Hkept. subst out'.
    destruct (inBlockComment st'); [discriminate|].
    destruct (inString st'); [discriminate|]. injection Hnorm as <-.
    destruct (stripTrailingCommas_loop_deletes kept false false [])
      as (kept' & Hkept' & Hsub' & _).
    unfold stripTrailingCommas. rewrite Hkept'. simpl. by etrans. }
  split; [done|]. by apply sublist_length.
Qed.

Lemma normalization_only_deletes_witness :
  list_ascii_of_string "[1 ]" `sublist_of` list_ascii_of_string "[1, /* x */]"
  ∧ (length (list_ascii_of_string "[1 ]")
     ≤ length (list_ascii_of_string "[1, /* x */]"))%nat.
Proof.
  apply (normalization_only_deletes (list_ascii_of_string "[1, /* x */]")
           (list_ascii_of_string "[1 ]")).
  reflexivity.
Defined.

(** X24.  The comma pass deletes nothing but commas: the other bytes of
    its result are those of its input, in order, and an input without a
    comma is returned as it is. *)
Theorem comma_pass_deletes_only_commas (data : list ascii) :
  filter (λ c, c ≠ ","%char) (stripTrailingCommas data)
  = filter (λ c, c ≠ ","%char) data
  ∧ stripTrailingCommas data `sublist_of` data
  ∧ (","%char ∉ data → stripTrailingCommas data = data).
Proof.
  unfold stripTrailingCommas.
  destruct (stripTrailingCommas_loop_deletes data false false [])
    as (kept & -> & Hsub & Hfilter). simpl.
  split; [done|]. split; [done|]. intros Hnone.
  assert (∀ l : list ascii, ","%char ∉ l → filter (λ c, c ≠ ","%char) l = l)
    as Hid.
  { intros l Hl. induction l as [|c l IH]; [done|].
    apply not_elem_of_cons in Hl as [Hc Hl].
    rewrite filter_cons_True by done. by rewrite IH. }
  assert (","%char ∉ kept) as Hkept.
  { intros Hin. apply Hnone.
    eapply elem_of_submseteq; [done|]. by apply sublist_submseteq. }
  rewrite <- (Hid kept Hkept), <- (Hid data Hnone). done.
Qed.

(** *** The outcome of the normalization *)

(** X25.  The normalization accepts exactly the renderings of well-formed
    chunk sequences and returns, for the one that renders the input, its
    normal form; every other input is rejected, with one of the two
    errors for an unterminated block comment or string. *)
Theorem normalization_outcome (data : list ascii) :
  match normalizeRelaxedJSON data with
  | Ok out =>
    ∃ ks : list chunk,
      wf_chunks ks = true ∧ render ks = data
      ∧ out = render (normalize_chunks ks)
  | Err e =>
    (e = ErrUnterminatedBlockComment ∨ e = ErrUnterminatedString)
    ∧ ¬ ∃ ks : list chunk, wf_chunks ks = true ∧ render ks = data
  end.
Proof.
  unfold normalizeRelaxedJSON.
  destruct (stripJSONComments data) as [out|e] eqn:Hstrip.
  - destruct (stripJSONComments_accepts _ _ Hstrip) as (ks & Hwf & Hdata & ->).
    exists ks. split; [done|]. split; [done|].
    unfold stripTrailingCommas, normalize_chunks.
    by rewrite stripTrailingCommas_loop_chunks
      by by apply uncomment_comment_free.
  - split.
    + unfold stripJSONComments in Hstrip.
      destruct (stripJSONComments_loop data scanCode []) as [st' out'].
      destruct (inBlockComment st'); [injection Hstrip as <-; by left|].
      destruct (inString st'); [injection Hstrip as <-; by right|done].
    + intros (ks & Hwf & <-).
      by rewrite stripJSONComments_chunks in Hstrip by done.
Qed.

(** ** A run of the generator *)

Lemma generatedFor_label_of target names pkgArg relFilePath cfg extra :
  label_of <$> generatedFor target names pkgArg relFilePath cfg extra
  = (λ name, Some (targetPrefix target cfg +:+ name)) <$> names.
Proof.
  destruct target; simpl;
    [apply makeGeneratedTasks_label_of|apply makeGeneratedDebugConfigs_label_of].
Qed.

Lemma generatedFor_app target A B pkgArg relFilePath cfg extra :
  generatedFor target (A ++ B) pkgArg relFilePath cfg extra
  = generatedFor target A pkgArg relFilePath cfg extra
    ++ generatedFor target B pkgArg relFilePath cfg extra.
Proof.
  destruct target; simpl; unfold makeGeneratedTasks, makeGeneratedDebugConfigs;
    apply map_app.
Qed.

Lemma generatedFor_length target names pkgArg relFilePath cfg extra :
  length (generatedFor target names pkgArg relFilePath cfg extra)
  = length names.
Proof.
  destruct target; simpl; unfold makeGeneratedTasks, makeGeneratedDebugConfigs;
    apply length_map.
Qed.

Lemma generatedFor_one target name pkgArg relFilePath cfg extra :
  ∃ t : task,
    generatedFor target [name] pkgArg relFilePath cfg extra = [t]
    ∧ label_of t = Some (targetPrefix target cfg +:+ name).
Proof.
  pose proof (generatedFor_label_of target [name] pkgArg relFilePath cfg extra)
    as Hlabel.
  pose proof (generatedFor_length target [name] pkgArg relFilePath cfg extra)
    as Hlen.
  destruct (generatedFor target [name] pkgArg relFilePath cfg extra)
    as [|t [|t' l]]; try discriminate Hlen.
  exists t. split; [done|]. by injection Hlabel.
Qed.

Section Generate.
Context {fs : FileSystem} {json : JSON} {unicode : Unicode}.

(** X26.  When a run of the generator gets as far as its merged document,
    the counts of added and updated entries it prints sum to the number of
    selected names, and the document holds, for every selected name, the
    entry generated for it, under the target's prefix followed by the
    name. *)
Theorem generate_installs_every_selected_test (target : generateTarget)
    (absPath : string) (selected : list string) (pkgArg relFilePath : string)
    (cfg : Config) (extra : list string) (merged : list task)
    (stats : mergeStats) :
  runGenerate_merged target absPath selected pkgArg relFilePath cfg extra
    = Ok (merged, stats) →
  Added stats + Updated stats = length selected
  ∧ ∀ name : string,
      name ∈ selected →
      ∃ t : task,
        generatedFor target [name] pkgArg relFilePath cfg extra = [t]
        ∧ label_of t = Some (targetPrefix target cfg +:+ name)
        ∧ t ∈ merged.
Proof.
  unfold runGenerate_merged, mergeTasks.
  destruct (readTasks absPath) as [existing|e]; [|discriminate].
  intros [= Hmerged]. set (G := generatedFor target selected _ _ _ _) in *.
  assert (merged = (mergeExisting existing G cfg).1) as ->
    by by rewrite Hmerged.
  assert (stats = (mergeExisting existing G cfg).2) as ->
    by by rewrite Hmerged.
  clear Hmerged. split.
  - pose proof (upsertLoop_counts G
      {| us_filtered := (pruneLoop cfg existing [] 0).1;
         us_labelIndex := indexLoop 0 (pruneLoop cfg existing [] 0).1 ∅;
         us_added := 0; us_updated := 0 |}) as [Hcount _].
    unfold mergeExisting.
    destruct (pruneLoop cfg existing [] 0) as [filtered removed].
    simpl in *. rewrite Hcount. unfold G. apply generatedFor_length.
  - intros name Hname.
    destruct (generatedFor_one target name pkgArg relFilePath cfg extra)
      as (t & Ht & Hlabel).
    exists t. split; [done|]. split; [done|].
    apply list_elem_of_split_r in Hname as (A & B & -> & Hlast).
    unfold G. rewrite generatedFor_app.
    change (name :: B) with ([name] ++ B).
    rewrite generatedFor_app, Ht. simpl.
    apply merged_holds_last.
    + change (t :: generatedFor target B pkgArg relFilePath cfg extra)
        with ([t] ++ generatedFor target B pkgArg relFilePath cfg extra).
      rewrite <- Ht, <- !generatedFor_app. apply Forall_forall.
      intros g (i & Hi)%list_elem_of_lookup_1.
      pose proof (generatedFor_label_of target (A ++ [name] ++ B) pkgArg
                    relFilePath cfg extra) as Hlabels.
      apply (f_equal (λ l, l !! i)) in Hlabels.
      rewrite !list_lookup_fmap, Hi in Hlabels. simpl in Hlabels.
      destruct ((A ++ name :: B) !! i); [|discriminate Hlabels].
      injection Hlabels as ->. by eexists.
    + intros g' (i & Hi)%list_elem_of_lookup_1 Heq.
      pose proof (generatedFor_label_of target B pkgArg relFilePath cfg extra)
        as Hlabels.
      apply (f_equal (λ l, l !! i)) in Hlabels.
      rewrite !list_lookup_fmap, Hi in Hlabels. simpl in Hlabels.
      destruct (B !! i) as [name'|] eqn:HB; [|discriminate Hlabels].
      injection Hlabels as Hg'. unfold label_or_zero in Heq.
      rewrite Hg', Hlabel in Heq. simpl in Heq.
      apply (inj (String.app (targetPrefix target cfg))) in Heq as ->.
      apply Hlast. by eapply list_elem_of_lookup_2.
Qed.

End Generate.

Lemma generate_installs_every_selected_test_witness :
  2 + 0 = 2
  ∧ ∀ name : string,
      name ∈ ["TestAlpha"; "TestAlpha/case1"] →
      ∃ t : task,
        generatedFor generateTargetDebug [name] "." "a_test.go" defaultConfig
          ["-v"] = [t]
        ∧ label_of t = Some ("go:debug:" +:+ name)
        ∧ t ∈ (mergeExisting []
                 (makeGeneratedDebugConfigs ["TestAlpha"; "TestAlpha/case1"]
                    "." "a_test.go" defaultConfig ["-v"]) defaultConfig).1.
Proof.
  apply (@generate_installs_every_selected_test
           (oneFile "debug.json" (list_ascii_of_string "[/* none */]"))
           sampleJSON sampleUnicode generateTargetDebug "debug.json"
           ["TestAlpha"; "TestAlpha/case1"] "." "a_test.go" defaultConfig
           ["-v"]
           (mergeExisting []
              (makeGeneratedDebugConfigs ["TestAlpha"; "TestAlpha/case1"]
                 "." "a_test.go" defaultConfig ["-v"]) defaultConfig).1
           {| Added := 2; Updated := 0; Removed := 0 |}).
  vm_compute. reflexivity.
Defined.

(** ** The timeout of the discovery run *)

Section Blocking.
Context {json : JSON} {unicode : Unicode} {process : Process} {time : Time}.

(** C4, as amended.  Discovery that runs the toolchain hands the timeout
    to it as the value of [-timeout] and then waits for the child: the
    call returns exactly when the child exits, after the time the child
    took and with the result the output and the exit error give; it does
    not return when the child never exits.  An error it returns is the
    scanner's or the discovery error; there is no error of its own for a
    timeout. *)
Theorem discovery_blocks_until_exit
    (goBinary packageDir : string) (topLevelTests : list string)
    (timeout : Z) (extraGoTestArgs : list string) :
  topLevelTests ≠ [] →
  let args := discoverSubtestsArgs topLevelTests timeout extraGoTestArgs in
  let run := exec_Run goBinary args packageDir in
  let outcome := discoverSubtestsWithGo_timed goBinary packageDir
                   topLevelTests timeout extraGoTestArgs in
  args = ["test"; "-json"; "-count=1"; "-timeout"; Duration_String timeout]
         ++ sanitizeDiscoveryGoTestArgs extraGoTestArgs
         ++ ["-run"; buildTopLevelRunPattern topLevelTests; "."]
  ∧ (outcome = None ↔ run = NeverExits)
  ∧ (∀ (elapsed : Z) (out : list ascii) (err : option string),
       run = Exits elapsed out err →
       ∃ r : result (list string),
         outcome = Some (elapsed, r)
         ∧ r = @discoverSubtestsWithGo json unicode (exited out err) time
                 goBinary packageDir topLevelTests timeout extraGoTestArgs
         ∧ ∀ e : error,
             r = Err e →
             e = ErrScanner
             ∨ ∃ exit : string,
                 err = Some exit
                 ∧ e = ErrDiscoveryFailed packageDir exit (bytes_TrimSpace out)).
Proof.
  intros Hne args run outcome. subst outcome.
  unfold discoverSubtestsWithGo_timed. fold args. fold run.
  destruct topLevelTests as [|t ts]; [done|].
  split; [by unfold args, discoverSubtestsArgs; rewrite <- app_assoc|].
  destruct run as [elapsed out err|].
  - split; [done|]. intros elapsed' out' err' [= <- <- <-].
    eexists. split; [done|]. split; [done|].
    destruct (parseRunEventsFromGoTestJSON out) as [discovered|e'] eqn:Hparse.
    + intros e. destruct err as [exit|], discovered as [|d ds]; try done.
      intros [= <-]. right. by exists exit.
    + apply parseRunEvents_Err in Hparse as [_ ->]. intros e [= <-]. by left.
  - split; [done|]. by intros elapsed out err.
Qed.

End Blocking.

(** C4, counterexample.  With a timeout of 200 ms, discovery returns
    after the two seconds that the child takes, and does not return for
    a child that never exits. *)
Lemma discovery_outlasts_timeout :
  ¬ returns_within 200000000
      (@discoverSubtestsWithGo_timed sampleJSON sampleUnicode slowChild
         shortTime "go" "." ["TestAlpha"] 200000000 [])
  ∧ ¬ returns_within 200000000
        (@discoverSubtestsWithGo_timed sampleJSON sampleUnicode hangingChild
           shortTime "go" "." ["TestAlpha"] 200000000 []).
Proof.
  split.
  - intros (elapsed & r & Hout & Hle).
    assert (elapsed = 2000000000%Z) as -> by (vm_compute in Hout; congruence).
    lia.
  - intros (elapsed & r & Hout & _). vm_compute in Hout. discriminate.
Qed.

Lemma discovery_blocks_until_exit_witness :
  @discoverSubtestsWithGo_timed sampleJSON sampleUnicode slowChild shortTime
    "go" "." ["TestAlpha"] 200000000 []
  = Some (2000000000%Z, Ok ["TestAlpha"; "TestAlpha/case1"])
  ∧ (@discoverSubtestsWithGo_timed sampleJSON sampleUnicode hangingChild
       shortTime "go" "." ["TestAlpha"] 200000000 [] = None).
Proof.
  split.
  - destruct (@discovery_blocks_until_exit sampleJSON sampleUnicode slowChild
                shortTime "go" "." ["TestAlpha"] 200000000 [])
      as (_ & _ & Hexit); [discriminate|].
    destruct (Hexit 2000000000%Z (list_ascii_of_string sampleEventStream) None)
      as (r & -> & -> & _); [reflexivity|].
    vm_compute. reflexivity.
  - apply (@discovery_blocks_until_exit sampleJSON sampleUnicode hangingChild
             shortTime "go" "." ["TestAlpha"] 200000000 []);
      [discriminate|reflexivity].
Defined.

(** A test run that the toolchain stops at its own timeout ends the
    discovery with the discovery error, as any failing run without a run
    event does; the timeout reaches the toolchain as [-timeout 200ms]. *)
Example toolchain_timeout_is_discovery_error :
  @discoverSubtestsWithGo_timed sampleJSON sampleUnicode stoppedChild shortTime
    "go" "." ["TestAlpha"] 200000000 ["-v"; "-timeout=5s"]
  = Some (200000000%Z,
          Err (ErrDiscoveryFailed "." "exit status 2"
                 (list_ascii_of_string "panic: test timed out after 200ms")))
  ∧ @discoverSubtestsArgs shortTime ["TestAlpha"] 200000000 ["-v"; "-timeout=5s"]
    = ["test"; "-json"; "-count=1"; "-timeout"; "200ms"; "-v"; "-run";
       "^TestAlpha$"; "."].
Proof. split; vm_compute; reflexivity. Qed.
